(** * pyble: node identity engine and block store

    A shallow embedding of [pyble/core/node.py] and [pyble/core/store.py].
    Python objects live in an explicit heap, the two class dictionaries of
    [Node] are association lists in insertion order, and every method is a
    function in a state-and-exception monad. *)

From Stdlib Require Import List NArith ZArith Arith Lia Bool.
From Stdlib.Strings Require Import Byte.
From Stdlib Require String.
Import ListNotations.

Set Implicit Arguments.

(** ** Bytes *)

Definition bytes := list byte.

Definition byte_of (n : N) : byte :=
  match Byte.of_N (n mod 256) with
  | Some b => b
  | None => x00
  end.

Definition bytes_eqb (a b : bytes) : bool :=
  if list_eq_dec Byte.byte_eq_dec a b then true else false.

(** [b'\0' * n] *)
Definition zeros (n : nat) : bytes := repeat x00 n.

(** ** hashlib.sha512 (FIPS 180-4), on 64-bit words carried by [N] *)

Module SHA512.

Local Open Scope N_scope.

Definition w64 (x : N) : N := x mod 2 ^ 64.
Definition add64 (x y : N) : N := w64 (x + y).
Definition rotr (n x : N) : N :=
  N.lor (N.shiftr x n) (w64 (N.shiftl x (64 - n))).
Definition shr (n x : N) : N := N.shiftr x n.
Definition not64 (x : N) : N := N.lxor x (2 ^ 64 - 1).

Definition Ch (x y z : N) : N := N.lxor (N.land x y) (N.land (not64 x) z).
Definition Maj (x y z : N) : N :=
  N.lxor (N.lxor (N.land x y) (N.land x z)) (N.land y z).
Definition Sigma0 (x : N) : N := N.lxor (N.lxor (rotr 28 x) (rotr 34 x)) (rotr 39 x).
Definition Sigma1 (x : N) : N := N.lxor (N.lxor (rotr 14 x) (rotr 18 x)) (rotr 41 x).
Definition sigma0 (x : N) : N := N.lxor (N.lxor (rotr 1 x) (rotr 8 x)) (shr 7 x).
Definition sigma1 (x : N) : N := N.lxor (N.lxor (rotr 19 x) (rotr 61 x)) (shr 6 x).

Definition K : list N :=
  [
   0x428a2f98d728ae22; 0x7137449123ef65cd; 0xb5c0fbcfec4d3b2f; 0xe9b5dba58189dbbc;
   0x3956c25bf348b538; 0x59f111f1b605d019; 0x923f82a4af194f9b; 0xab1c5ed5da6d8118;
   0xd807aa98a3030242; 0x12835b0145706fbe; 0x243185be4ee4b28c; 0x550c7dc3d5ffb4e2;
   0x72be5d74f27b896f; 0x80deb1fe3b1696b1; 0x9bdc06a725c71235; 0xc19bf174cf692694;
   0xe49b69c19ef14ad2; 0xefbe4786384f25e3; 0x0fc19dc68b8cd5b5; 0x240ca1cc77ac9c65;
   0x2de92c6f592b0275; 0x4a7484aa6ea6e483; 0x5cb0a9dcbd41fbd4; 0x76f988da831153b5;
   0x983e5152ee66dfab; 0xa831c66d2db43210; 0xb00327c898fb213f; 0xbf597fc7beef0ee4;
   0xc6e00bf33da88fc2; 0xd5a79147930aa725; 0x06ca6351e003826f; 0x142929670a0e6e70;
   0x27b70a8546d22ffc; 0x2e1b21385c26c926; 0x4d2c6dfc5ac42aed; 0x53380d139d95b3df;
   0x650a73548baf63de; 0x766a0abb3c77b2a8; 0x81c2c92e47edaee6; 0x92722c851482353b;
   0xa2bfe8a14cf10364; 0xa81a664bbc423001; 0xc24b8b70d0f89791; 0xc76c51a30654be30;
   0xd192e819d6ef5218; 0xd69906245565a910; 0xf40e35855771202a; 0x106aa07032bbd1b8;
   0x19a4c116b8d2d0c8; 0x1e376c085141ab53; 0x2748774cdf8eeb99; 0x34b0bcb5e19b48a8;
   0x391c0cb3c5c95a63; 0x4ed8aa4ae3418acb; 0x5b9cca4f7763e373; 0x682e6ff3d6b2b8a3;
   0x748f82ee5defb2fc; 0x78a5636f43172f60; 0x84c87814a1f0ab72; 0x8cc702081a6439ec;
   0x90befffa23631e28; 0xa4506cebde82bde9; 0xbef9a3f7b2c67915; 0xc67178f2e372532b;
   0xca273eceea26619c; 0xd186b8c721c0c207; 0xeada7dd6cde0eb1e; 0xf57d4f7fee6ed178;
   0x06f067aa72176fba; 0x0a637dc5a2c898a6; 0x113f9804bef90dae; 0x1b710b35131c471b;
   0x28db77f523047d84; 0x32caab7b40c72493; 0x3c9ebe0a15c9bebc; 0x431d67c49c100d4c;
   0x4cc5d4becb3e42b6; 0x597f299cfc657e2a; 0x5fcb6fab3ad6faec; 0x6c44198c4a475817  ].

Definition regs : Type := (N * N * N * N * N * N * N * N)%type.

Definition H0 : regs :=
  (0x6a09e667f3bcc908, 0xbb67ae8584caa73b, 0x3c6ef372fe94f82b, 0xa54ff53a5f1d36f1,
   0x510e527fade682d1, 0x9b05688c2b3e6c1f, 0x1f83d9abfb41bd6b, 0x5be0cd19137e2179).

(** Big-endian word of a byte list. *)
Definition be_word (l : bytes) : N :=
  fold_left (fun acc b => acc * 256 + Byte.to_N b) l 0.

(** The eight bytes of a 64-bit word, most significant first. *)
Definition word_bytes (w : N) : bytes :=
  [byte_of (N.shiftr w 56); byte_of (N.shiftr w 48); byte_of (N.shiftr w 40);
   byte_of (N.shiftr w 32); byte_of (N.shiftr w 24); byte_of (N.shiftr w 16);
   byte_of (N.shiftr w 8); byte_of w].

(** Message padding: 0x80, zeros up to 112 mod 128, 128-bit bit length. *)
Definition pad (m : bytes) : bytes :=
  let len := length m in
  let k := ((128 - (len + 17) mod 128) mod 128)%nat in
  m ++ x80 :: zeros k ++ zeros 8 ++ word_bytes (8 * N.of_nat len).

Fixpoint words (n : nat) (l : bytes) : list N :=
  match n with
  | O => []
  | S n' => be_word (firstn 8 l) :: words n' (skipn 8 l)
  end.

(** One round; [w] is the sliding window W[t .. t+15] of the schedule. *)
Definition round (k : N) (st : regs * list N) : regs * list N :=
  let '((a, b, c, d, e, f, g, h), w) := st in
  let wt := nth 0 w 0 in
  let t1 := add64 (add64 (add64 (add64 h (Sigma1 e)) (Ch e f g)) k) wt in
  let t2 := add64 (Sigma0 a) (Maj a b c) in
  let wn := add64 (add64 (add64 (sigma1 (nth 14 w 0)) (nth 9 w 0))
                         (sigma0 (nth 1 w 0))) wt in
  ((add64 t1 t2, a, b, c, add64 d t1, e, f, g), tl w ++ [wn]).

Definition compress (hs : regs) (block : bytes) : regs :=
  let '(a, b, c, d, e, f, g, h) := hs in
  let '((a', b', c', d', e', f', g', h'), _) :=
    fold_left (fun st k => round k st) K (hs, words 16 block) in
  (add64 a a', add64 b b', add64 c c', add64 d d',
   add64 e e', add64 f f', add64 g g', add64 h h').

Fixpoint blocks (n : nat) (hs : regs) (l : bytes) : regs :=
  match n with
  | O => hs
  | S n' => blocks n' (compress hs (firstn 128 l)) (skipn 128 l)
  end.

Definition digest (m : bytes) : bytes :=
  let p := pad m in
  let '(a, b, c, d, e, f, g, h) := blocks (length p / 128) H0 p in
  word_bytes a ++ word_bytes b ++ word_bytes c ++ word_bytes d ++
  word_bytes e ++ word_bytes f ++ word_bytes g ++ word_bytes h.

End SHA512.

(** ** Constants of node.py *)

Definition DIGEST_SIZE : nat := 64.
Definition STORY_SIZE : nat := DIGEST_SIZE * (2 ^ 4 - 2).
Definition TOTAL_SIZE : nat := STORY_SIZE + 2 * DIGEST_SIZE.

(** [q_hash b = sha512(b).digest()] *)
Definition q_hash (b : bytes) : bytes := SHA512.digest b.

(** ** Python [str] and the UTF-8 codec

    A [str] is its sequence of code points.  [str.encode('utf-8')] raises
    [UnicodeEncodeError] on a lone surrogate, [bytes.decode('utf-8')] raises
    [UnicodeDecodeError] on anything but shortest-form UTF-8; both show
    here as [None]. *)

Definition str := list N.

Module UTF8.

Local Open Scope N_scope.

Definition encode_char (c : N) : option bytes :=
  if c <? 0x80 then Some [byte_of c]
  else if c <? 0x800 then
    Some [byte_of (0xC0 + c / 64); byte_of (0x80 + c mod 64)]
  else if c <? 0x10000 then
    if (0xD800 <=? c) && (c <? 0xE000) then None
    else Some [byte_of (0xE0 + c / 4096); byte_of (0x80 + (c / 64) mod 64);
               byte_of (0x80 + c mod 64)]
  else if c <? 0x110000 then
    Some [byte_of (0xF0 + c / 262144); byte_of (0x80 + (c / 4096) mod 64);
          byte_of (0x80 + (c / 64) mod 64); byte_of (0x80 + c mod 64)]
  else None.

Fixpoint encode (s : str) : option bytes :=
  match s with
  | [] => Some []
  | c :: s' =>
      match encode_char c, encode s' with
      | Some b, Some r => Some (b ++ r)
      | _, _ => None
      end
  end.

(** Payload of a continuation byte 10xxxxxx. *)
Definition cont (b : byte) : option N :=
  let n := Byte.to_N b in
  if (0x80 <=? n) && (n <? 0xC0) then Some (n - 0x80) else None.

Definition cons_char (c : N) (r : option str) : option str :=
  match r with
  | Some s => Some (c :: s)
  | None => None
  end.

Fixpoint decode (l : bytes) : option str :=
  match l with
  | [] => Some []
  | b0 :: l1 =>
      let n0 := Byte.to_N b0 in
      if n0 <? 0x80 then cons_char n0 (decode l1)
      else if n0 <? 0xC2 then None
      else if n0 <? 0xE0 then
        match l1 with
        | b1 :: l2 =>
            match cont b1 with
            | Some c1 => cons_char ((n0 - 0xC0) * 64 + c1) (decode l2)
            | None => None
            end
        | _ => None
        end
      else if n0 <? 0xF0 then
        match l1 with
        | b1 :: b2 :: l3 =>
            match cont b1, cont b2 with
            | Some c1, Some c2 =>
                let c := (n0 - 0xE0) * 4096 + c1 * 64 + c2 in
                if (c <? 0x800) || ((0xD800 <=? c) && (c <? 0xE000)) then None
                else cons_char c (decode l3)
            | _, _ => None
            end
        | _ => None
        end
      else if n0 <? 0xF5 then
        match l1 with
        | b1 :: b2 :: b3 :: l4 =>
            match cont b1, cont b2, cont b3 with
            | Some c1, Some c2, Some c3 =>
                let c := (n0 - 0xF0) * 262144 + c1 * 4096 + c2 * 64 + c3 in
                if (c <? 0x10000) || (0x110000 <=? c) then None
                else cons_char c (decode l4)
            | _, _, _ => None
            end
        | _ => None
        end
      else None
  end.

End UTF8.

(** ** struct: the node format [N_FMT = '64s896s64s']

    An ['Ns'] field is cut or null-padded to [N] bytes by [struct.pack];
    [struct.unpack] raises [struct.error] unless the buffer has exactly the
    size of the format. *)

Definition fit (n : nat) (b : bytes) : bytes :=
  firstn n b ++ zeros (n - length b).

Definition pack_N_FMT (parent story sid : bytes) : bytes :=
  fit DIGEST_SIZE parent ++ fit STORY_SIZE story ++ fit DIGEST_SIZE sid.

Definition unpack_N_FMT (b : bytes) : option (bytes * bytes * bytes) :=
  if length b =? TOTAL_SIZE then
    Some (firstn DIGEST_SIZE b,
          firstn STORY_SIZE (skipn DIGEST_SIZE b),
          skipn (DIGEST_SIZE + STORY_SIZE) b)
  else None.

Definition is_x00 (b : byte) : bool := Byte.eqb b x00.

Fixpoint lstrip0 (l : bytes) : bytes :=
  match l with
  | [] => []
  | b :: l' => if is_x00 b then lstrip0 l' else l
  end.

(** [b.rstrip(b'\0')] *)
Definition rstrip0 (l : bytes) : bytes := rev (lstrip0 (rev l)).

(** ** Objects, registry and the monad *)

(** What a parent slot, a dictionary key or a [stop] argument can hold.
    [VNode i] is a reference to the [i]-th object of the heap; two
    references are the same object iff the indices agree. *)
Inductive value : Type :=
| VNone
| VBytes (b : bytes)
| VNode (i : nat).

(** The slots of a [Node] instance. *)
Record node : Type := mkNode {
  _story : str;
  _parent : value;
  _sid : option bytes;
  _bytes : option bytes
}.

(** Values of the builtin [hash]: [hash] of a bytes object is a function
    of its content, taken here as the content itself. *)
Inductive hashv : Type :=
| HNone
| HBytes (b : bytes).

Definition hashv_eqb (a b : hashv) : bool :=
  match a, b with
  | HNone, HNone => true
  | HBytes x, HBytes y => bytes_eqb x y
  | _, _ => false
  end.

(** A dictionary keeps its entries in insertion order, each with the hash
    its key had when inserted. *)
Definition entry (V : Type) : Type := (hashv * value * V)%type.
Definition dict (V : Type) : Type := list (entry V).

(** A [WeakSet] of nodes: the referents with their hashes.  Collection of
    unreferenced nodes is not modelled: a member stays where the source
    drops it once its node is freed, so the members of a child set, which
    [Node.children] lists and an [add] of an equal node looks for, can
    differ from those of the source.  The nodes, the identity map and the
    keys of both dictionaries do not depend on them. *)
Definition weakset : Type := list (hashv * nat).

(** The heap of [Node] instances and the two class attributes [Node._all]
    and [Node._children]. *)
Record state : Type := mkState {
  heap : list node;
  _all : dict value;
  _children : dict weakset
}.

Definition empty_state : state := mkState [] [] [].

Inductive exn : Type :=
| ValueError
| UnicodeEncodeError
| UnicodeDecodeError
| TypeError
| AttributeError
| KeyError
| AssertionError
| SyncError
| StructError.

(** [UnicodeError] and its subclasses derive from [ValueError]. *)
Definition is_ValueError (e : exn) : bool :=
  match e with
  | ValueError | UnicodeEncodeError | UnicodeDecodeError => true
  | _ => false
  end.

Inductive result (A : Type) : Type :=
| Ok (a : A) (st : state)
| Raise (e : exn) (st : state)
| OutOfFuel.

Arguments Raise {A} e st.
Arguments OutOfFuel {A}.

Definition M (A : Type) : Type := state -> result A.

Definition ret {A} (a : A) : M A := fun st => Ok a st.

Definition bind {A B} (m : M A) (k : A -> M B) : M B :=
  fun st =>
    match m st with
    | Ok a st' => k a st'
    | Raise e st' => Raise e st'
    | OutOfFuel => OutOfFuel
    end.

Definition raise {A} (e : exn) : M A := fun st => Raise e st.

(** [try: m  except e: h] for the exceptions selected by [sel]. *)
Definition try_except {A} (m : M A) (sel : exn -> bool) (h : M A) : M A :=
  fun st =>
    match m st with
    | Raise e st' => if sel e then h st' else Raise e st'
    | r => r
    end.

Definition gets {A} (f : state -> A) : M A := fun st => Ok (f st) st.
Definition modify (f : state -> state) : M unit := fun st => Ok tt (f st).

Declare Scope monad_scope.
Delimit Scope monad_scope with monad.
Notation "x <- c1 ;; c2" := (bind c1 (fun x => c2))
  (at level 61, c1 at next level, right associativity) : monad_scope.
Notation "c1 ;; c2" := (bind c1 (fun _ => c2))
  (at level 61, right associativity) : monad_scope.
Local Open Scope monad_scope.

Definition is_AssertionError (e : exn) : bool :=
  match e with AssertionError => true | _ => false end.
Definition is_KeyError (e : exn) : bool :=
  match e with KeyError => true | _ => false end.

(** Slot access.  A reference outside the heap does not occur in states
    built by the constructors; it is reported as [AttributeError]. *)
Definition get_node (i : nat) : M node :=
  fun st =>
    match nth_error (heap st) i with
    | Some n => Ok n st
    | None => Raise AttributeError st
    end.

Fixpoint upd {A} (l : list A) (i : nat) (f : A -> A) : list A :=
  match l, i with
  | [], _ => []
  | x :: l', O => f x :: l'
  | x :: l', S i' => x :: upd l' i' f
  end.

Definition set_heap (h : list node) (st : state) : state :=
  mkState h (_all st) (_children st).
Definition set_all (d : dict value) (st : state) : state :=
  mkState (heap st) d (_children st).
Definition set_children (d : dict weakset) (st : state) : state :=
  mkState (heap st) (_all st) d.

Definition set_sid (i : nat) (s : bytes) : M unit :=
  modify (fun st => set_heap
    (upd (heap st) i (fun n => mkNode (_story n) (_parent n) (Some s) (_bytes n))) st).

Definition set_bytes (i : nat) (b : bytes) : M unit :=
  modify (fun st => set_heap
    (upd (heap st) i (fun n => mkNode (_story n) (_parent n) (_sid n) (Some b))) st).

Definition str_eqb (a b : str) : bool :=
  if list_eq_dec N.eq_dec a b then true else false.

(** [a is b].  Whether two equal bytes objects are one object is not
    tracked: where identity of keys is tested first, the comparison that
    follows decides the same for bytes. *)
Definition value_is (a b : value) : bool :=
  match a, b with
  | VNone, VNone => true
  | VNode i, VNode j => i =? j
  | _, _ => false
  end.

(** ** The [Node] properties

    [sid], [pid], [parent], [__eq__] and [__hash__] call one another
    through the dictionary lookups; [ops] is the pair of entry points the
    recursion goes through, [run] ties the knot with a bound on its depth. *)

Record ops : Type := {
  o_sid : nat -> M bytes;
  o_pid : nat -> M bytes
}.

Section Methods.

Variable rec : ops.

(** [hash(v)]; [Node.__hash__] is [hash(self.sid)]. *)
Definition py_hash (v : value) : M hashv :=
  match v with
  | VNone => ret HNone
  | VBytes b => ret (HBytes b)
  | VNode i => s <- o_sid rec i ;; ret (HBytes s)
  end.

(** [Node.__eq__(self, other)]; [None] stands for [NotImplemented]. *)
Definition Node__eq__ (self : nat) (other : value) : M (option bool) :=
  match other with
  | VBytes b => s <- o_sid rec self ;; ret (Some (bytes_eqb b s))
  | VNode o =>
      try_except
        (po <- o_pid rec o ;;
         ps <- o_pid rec self ;;
         if bytes_eqb po ps then
           no <- get_node o ;;
           ns <- get_node self ;;
           if str_eqb (_story no) (_story ns) then ret (Some true)
           else raise AssertionError
         else raise AssertionError)
        is_AssertionError
        (ret (Some false))
  | VNone => ret None
  end.

(** [a == b]: the left operand's [__eq__], then the reflected one, then
    identity. *)
Definition py_eq (a b : value) : M bool :=
  match a with
  | VNode i =>
      r <- Node__eq__ i b ;;
      match r with
      | Some x => ret x
      | None => ret (value_is a b)
      end
  | VBytes x =>
      match b with
      | VBytes y => ret (bytes_eqb x y)
      | VNode j =>
          r <- Node__eq__ j a ;;
          match r with
          | Some x => ret x
          | None => ret false
          end
      | VNone => ret false
      end
  | VNone =>
      match b with
      | VNone => ret true
      | VBytes _ => ret false
      | VNode j =>
          r <- Node__eq__ j a ;;
          match r with
          | Some x => ret x
          | None => ret false
          end
      end
  end.

(** [a != b]: [Node] defines no [__ne__], so the default inverts [__eq__]. *)
Definition py_ne (a b : value) : M bool :=
  e <- py_eq a b ;; ret (negb e).

(** Position of the entry of [key]: the first entry whose key is the same
    object, or has the same hash and compares equal. *)
Fixpoint lookup_from {V} (h : hashv) (key : value) (d : dict V) (idx : nat)
  : M (option nat) :=
  match d with
  | [] => ret None
  | (hk, k, _) :: d' =>
      if value_is k key then ret (Some idx)
      else if hashv_eqb hk h then
        e <- py_eq k key ;;
        if e then ret (Some idx) else lookup_from h key d' (S idx)
      else lookup_from h key d' (S idx)
  end.

Definition dict_find {V} (d : dict V) (key : value) : M (option nat) :=
  h <- py_hash key ;; lookup_from h key d 0.

(** [key in d] *)
Definition dict_contains {V} (d : dict V) (key : value) : M bool :=
  r <- dict_find d key ;;
  match r with Some _ => ret true | None => ret false end.

(** [d[key]] *)
Definition dict_getitem {V} (d : dict V) (key : value) : M V :=
  r <- dict_find d key ;;
  match r with
  | Some i =>
      match nth_error d i with
      | Some (_, _, v) => ret v
      | None => raise KeyError
      end
  | None => raise KeyError
  end.

(** [d[key] = v]: an existing entry keeps its key object. *)
Definition dict_setitem {V} (d : dict V) (key : value) (v : V) : M (dict V) :=
  h <- py_hash key ;;
  r <- lookup_from h key d 0 ;;
  match r with
  | Some i => ret (upd d i (fun e => (fst e, v)))
  | None => ret (d ++ [(h, key, v)])
  end.

(** [Node.parent] *)
Definition Node_parent (self : nat) : M value :=
  n <- get_node self ;;
  try_except
    (d <- gets _all ;; dict_getitem d (_parent n))
    is_KeyError
    (ret (_parent n)).

(** [Node.pid]; every [self.parent] is a fresh read of the property. *)
Definition Node_pid (self : nat) : M bytes :=
  p1 <- Node_parent self ;;
  match p1 with
  | VNone => ret []
  | _ =>
      p2 <- Node_parent self ;;
      match p2 with
      | VBytes _ =>
          p3 <- Node_parent self ;;
          match p3 with
          | VBytes b => ret b
          | _ => raise TypeError
          end
      | _ =>
          p3 <- Node_parent self ;;
          match p3 with
          | VNode j => o_sid rec j
          | _ => raise AttributeError
          end
      end
  end.

(** [Node.sid] *)
Definition Node_sid (self : nat) : M bytes :=
  n <- get_node self ;;
  match _sid n with
  | Some s => ret s
  | None =>
      p <- Node_pid self ;;
      match UTF8.encode (_story n) with
      | None => raise UnicodeEncodeError
      | Some u =>
          let h := q_hash (p ++ u) in
          if length h =? DIGEST_SIZE then
            set_sid self h ;; ret h
          else raise AssertionError
      end
  end.

End Methods.

Definition step (rec : ops) : ops :=
  {| o_sid := Node_sid rec; o_pid := Node_pid rec |}.

Definition bottom : ops :=
  {| o_sid := fun _ _ => OutOfFuel; o_pid := fun _ _ => OutOfFuel |}.

Fixpoint run (fuel : nat) : ops :=
  match fuel with
  | O => bottom
  | S f => step (run f)
  end.

(** ** Construction, encoding and traversal *)

Section Operations.

Variable rec : ops.

Fixpoint weakset_mem (h : hashv) (item : nat) (ws : weakset) : M bool :=
  match ws with
  | [] => ret false
  | (hm, m) :: ws' =>
      if hashv_eqb hm h then
        e <- py_eq rec (VNode m) (VNode item) ;;
        if e then ret true else weakset_mem h item ws'
      else weakset_mem h item ws'
  end.

(** [WeakSet.add(item)] *)
Definition weakset_add (ws : weakset) (item : nat) : M weakset :=
  h <- py_hash rec (VNode item) ;;
  b <- weakset_mem h item ws ;;
  if b then ret ws else ret (ws ++ [(h, item)]).

(** [self._children[key].add(item)] *)
Definition children_add (key : value) (item : nat) : M unit :=
  c <- gets _children ;;
  r <- dict_find rec c key ;;
  match r with
  | None => raise KeyError
  | Some i =>
      match nth_error c i with
      | None => raise KeyError
      | Some (_, _, ws) =>
          ws' <- weakset_add ws item ;;
          modify (fun st =>
            set_children (upd (_children st) i (fun e => (fst e, ws'))) st)
      end
  end.

(** The new object enters the heap when [__init__] assigns its slots. *)
Definition alloc (n : node) : M nat :=
  fun st => Ok (length (heap st)) (set_heap (heap st ++ [n]) st).

(** "register parent if it exists": enter it in both dictionaries when it
    is in neither; a parent known to one dictionary only is a [SyncError]. *)
Definition register_parent (parent : value) : M unit :=
  d <- gets _all ;;
  pis <- dict_contains rec d parent ;;
  c <- gets _children ;;
  pic <- dict_contains rec c parent ;;
  let not_pis := negb pis in
  let not_pic := negb pic in
  if not_pis && not_pic then
    d <- gets _all ;;
    d' <- dict_setitem rec d parent parent ;;
    modify (set_all d') ;;
    c <- gets _children ;;
    c' <- dict_setitem rec c parent ([] : weakset) ;;
    modify (set_children c')
  else if xorb not_pis not_pic then raise SyncError
  else ret tt.

(** "register node": [self._all[self] = self], and an empty child set for
    [self] unless it has one. *)
Definition register_node (self : nat) : M unit :=
  d <- gets _all ;;
  d' <- dict_setitem rec d (VNode self) (VNode self) ;;
  modify (set_all d') ;;
  c <- gets _children ;;
  sic <- dict_contains rec c (VNode self) ;;
  if negb sic then
    c <- gets _children ;;
    c' <- dict_setitem rec c (VNode self) ([] : weakset) ;;
    modify (set_children c')
  else ret tt.

(** [Node(story, parent)].  The parent is [None], bytes or a [Node] by the
    type of [value], so the [isinstance] test of the source always passes. *)
Definition Node__init__ (story : str) (parent : value) : M nat :=
  if STORY_SIZE <? length story then raise ValueError
  else if existsb (N.eqb 0) story then raise ValueError
  else
    self <- alloc (mkNode story parent None None) ;;
    match parent with
    | VNone => ret tt
    | _ => register_parent parent ;; children_add parent self
    end ;;
    register_node self ;;
    ret self.

(** [Node.to_bytes] *)
Definition Node_to_bytes (self : nat) : M bytes :=
  n <- get_node self ;;
  match _bytes n with
  | Some b => ret b
  | None =>
      p <- Node_pid rec self ;;
      match UTF8.encode (_story n) with
      | None => raise UnicodeEncodeError
      | Some u =>
          s <- Node_sid rec self ;;
          let b := pack_N_FMT p u s in
          if length b =? TOTAL_SIZE then set_bytes self b ;; ret b
          else raise AssertionError
      end
  end.

(** [Node.from_bytes] *)
Definition Node_from_bytes (b : bytes) : M nat :=
  match unpack_N_FMT b with
  | None => raise StructError
  | Some (parent, story, sid) =>
      let story := rstrip0 story in
      match UTF8.decode story with
      | None => raise UnicodeDecodeError
      | Some s =>
          n <- Node__init__ s
                 (if bytes_eqb parent (zeros DIGEST_SIZE) then VNone
                  else VBytes parent) ;;
          s' <- Node_sid rec n ;;
          if negb (bytes_eqb sid s') then raise ValueError else ret n
      end
  end.

(** [Node.branch] *)
Definition Node_branch (self : nat) (story : str) : M nat :=
  nd <- Node__init__ story (VNode self) ;;
  children_add (VNode self) nd ;;
  ret nd.

(** The [while] loop of [Node.retrace]; [n] bounds its iterations. *)
Fixpoint retrace_loop (n : nat) (current : nat) (stop : value) (l : list nat)
  : M (list nat) :=
  match n with
  | O => fun _ => OutOfFuel
  | S n' =>
      p1 <- Node_parent rec current ;;
      c <- py_ne rec p1 stop ;;
      if c then
        p2 <- Node_parent rec current ;;
        match p2 with
        | VBytes _ => ret l
        | _ =>
            p3 <- Node_parent rec current ;;
            match p3 with
            | VNone => ret l
            | _ =>
                p4 <- Node_parent rec current ;;
                match p4 with
                | VNode j => retrace_loop n' j stop (l ++ [j])
                | _ => raise AttributeError
                end
            end
        end
      else ret l
  end.

(** [Node.retrace]; [stop] is [None], bytes or a [Node] by its type. *)
Definition Node_retrace (n : nat) (self : nat) (stop : value) : M (list nat) :=
  retrace_loop n self stop [self].

(** [Store.identify_block] of store.py *)
Definition identify_block (b : bytes) : M (option nat) :=
  try_except
    (n <- Node_from_bytes b ;; ret (Some n))
    is_ValueError
    (ret None).

(** [Node.children]: [self._children[self].copy()], the copy of the child
    set as the list of its members, collected ones included. *)
Definition Node_children (self : nat) : M (list nat) :=
  c <- gets _children ;;
  ws <- dict_getitem rec c (VNode self) ;;
  ret (map snd ws).

(** [binascii.hexlify]: two lowercase hexadecimal digits per byte. *)
Definition hex_digit (n : N) : byte :=
  byte_of (if (n <? 10)%N then 48 + n else 87 + n)%N.

Fixpoint hexlify (b : bytes) : bytes :=
  match b with
  | [] => []
  | x :: b' =>
      hex_digit (Byte.to_N x / 16) :: hex_digit (Byte.to_N x mod 16) :: hexlify b'
  end.

(** [Node.__repr__]: ['<%s : %s>'] filled with the class name and the
    first eight hexadecimal digits of the sid. *)
Definition Node__repr__ (self : nat) : M str :=
  s <- Node_sid rec self ;;
  match UTF8.decode (firstn 8 (hexlify s)) with
  | None => raise UnicodeDecodeError
  | Some digits =>
      ret ([60; 78; 111; 100; 101; 32; 58; 32]%N ++ digits ++ [62%N])
  end.

End Operations.

(** The operations with the recursion depth of the properties bounded by
    [fuel]. *)
Definition sid (fuel : nat) : nat -> M bytes := Node_sid (run fuel).
Definition pid (fuel : nat) : nat -> M bytes := Node_pid (run fuel).
Definition parent (fuel : nat) : nat -> M value := Node_parent (run fuel).
Definition eq (fuel : nat) : value -> value -> M bool := py_eq (run fuel).
Definition hash (fuel : nat) : value -> M hashv := py_hash (run fuel).
Definition Node (fuel : nat) : str -> value -> M nat := Node__init__ (run fuel).
Definition to_bytes (fuel : nat) : nat -> M bytes := Node_to_bytes (run fuel).
Definition from_bytes (fuel : nat) : bytes -> M nat := Node_from_bytes (run fuel).
Definition branch (fuel : nat) : nat -> str -> M nat := Node_branch (run fuel).
Definition retrace (fuel : nat) : nat -> value -> M (list nat) :=
  Node_retrace (run fuel) fuel.
Definition children (fuel : nat) : nat -> M (list nat) := Node_children (run fuel).
Definition repr (fuel : nat) : nat -> M str := Node__repr__ (run fuel).

(** ** store.py: the header and [open_store] *)

Module StoreFile.

(** [OPT_FMT = 'QQQQ']: four unsigned 64-bit fields in native byte order,
    taken little-endian. *)
Definition OPT_SIZE : nat := 32.

Definition le_word (l : bytes) : N :=
  fold_right (fun b acc => (Byte.to_N b + 256 * acc)%N) 0%N l.

(** [struct.unpack(OPT_FMT, b)]; [None] is [struct.error]. *)
Definition unpack_OPT_FMT (b : bytes) : option (N * N * N * N) :=
  if length b =? OPT_SIZE then
    Some (le_word (firstn 8 b), le_word (firstn 8 (skipn 8 b)),
          le_word (firstn 8 (skipn 16 b)), le_word (firstn 8 (skipn 24 b)))
  else None.

(** Files by name, and an open file: its name and position. *)
Definition filesystem : Type := list (String.string * bytes).

Record buffer : Type := mkBuffer {
  b_name : String.string;
  b_pos : nat
}.

Fixpoint contents (fs : filesystem) (name : String.string) : option bytes :=
  match fs with
  | [] => None
  | (n, d) :: fs' => if String.eqb n name then Some d else contents fs' name
  end.

(** The attributes of a [Store]; [_previous] is [None] by default. *)
Record Store : Type := mkStore {
  _buffer : buffer;
  _stored : N;
  _size : N;
  _limit : N;
  _previous : option N
}.

(** [Store(buffer)] with the default keyword arguments. *)
Definition Store_default (b : buffer) : Store :=
  mkStore b 0 16 (2 ^ 20) None.

Inductive io_result (A : Type) : Type :=
| IoOk (a : A) (fs : filesystem)
| IoRaise (e : exn) (fs : filesystem).

Arguments IoRaise {A} e fs.

(** [open(name, 'rb+' if Path(name).exists() else 'wb+')]: mode ['wb+']
    creates the file empty. *)
Definition open_file (name : String.string) (fs : filesystem) : buffer * filesystem :=
  match contents fs name with
  | Some _ => (mkBuffer name 0, fs)
  | None => (mkBuffer name 0, (name, []) :: fs)
  end.

(** [buffer.seek(0); buffer.read(n)] *)
Definition read_at_start (b : buffer) (n : nat) (fs : filesystem)
  : bytes * buffer :=
  let d := match contents fs (b_name b) with Some d => d | None => [] end in
  let r := firstn n d in
  (r, mkBuffer (b_name b) (length r)).

(** [Store.opt_load] *)
Definition opt_load (b : buffer) (fs : filesystem)
  : option (N * N * N * N) * buffer :=
  let '(r, b') := read_at_start b OPT_SIZE fs in
  (unpack_OPT_FMT r, b').

Definition open_store (name : String.string) (fs : filesystem) : io_result Store :=
  let '(file, fs1) := open_file name fs in
  match opt_load file fs1 with
  | (Some (stored, size, limit, previous), file') =>
      IoOk (mkStore file' stored size limit (Some previous)) fs1
  | (None, _) => IoRaise StructError fs1
  end.

(** [struct.pack('Q', n)]: the [k] low bytes of [n], little-endian. *)
Fixpoint le_bytes (k : nat) (n : N) : bytes :=
  match k with
  | O => []
  | S k' => byte_of (n mod 256) :: le_bytes k' (n / 256)
  end.

(** [struct.pack(OPT_FMT, stored, size, limit, previous)]; [None] is
    [struct.error]: [previous] is [None] and not an integer, or a value
    does not fit 64 bits. *)
Definition pack_OPT_FMT (stored size limit : N) (previous : option N)
  : option bytes :=
  match previous with
  | None => None
  | Some p =>
      if forallb (fun x => (x <? 2 ^ 64)%N) [stored; size; limit; p] then
        Some (le_bytes 8 stored ++ le_bytes 8 size ++ le_bytes 8 limit ++
              le_bytes 8 p)
      else None
  end.

Fixpoint set_contents (fs : filesystem) (name : String.string) (d : bytes)
  : filesystem :=
  match fs with
  | [] => [(name, d)]
  | (n, x) :: fs' =>
      if String.eqb n name then (n, d) :: fs'
      else (n, x) :: set_contents fs' name d
  end.

(** [buffer.seek(0); buffer.write(data)]: the bytes replace the start of
    the file. *)
Definition write_at_start (b : buffer) (data : bytes) (fs : filesystem)
  : buffer * filesystem :=
  let old := match contents fs (b_name b) with Some d => d | None => [] end in
  (mkBuffer (b_name b) (length data),
   set_contents fs (b_name b) (data ++ skipn (length data) old)).

(** [Store.opt_save]; the bytes are packed before the buffer is touched.
    The locks are reentrant and, with one thread, never contended. *)
Definition opt_save (s : Store) (fs : filesystem) : io_result Store :=
  match pack_OPT_FMT (_stored s) (_size s) (_limit s) (_previous s) with
  | None => IoRaise StructError fs
  | Some b =>
      let '(buf, fs') := write_at_start (_buffer s) b fs in
      IoOk (mkStore buf (_stored s) (_size s) (_limit s) (_previous s)) fs'
  end.

(** [Store.seek_block] *)
Definition seek_block (s : Store) (i : nat) : Store :=
  mkStore (mkBuffer (b_name (_buffer s)) (OPT_SIZE + TOTAL_SIZE * i))
          (_stored s) (_size s) (_limit s) (_previous s).

(** [Store.close]: the header is saved, then the buffer is closed; an
    exception of [opt_save] leaves before the buffer is closed. *)
Definition close (s : Store) (fs : filesystem) : io_result unit :=
  match opt_save s fs with
  | IoOk _ fs' => IoOk tt fs'
  | IoRaise e fs' => IoRaise e fs'
  end.

End StoreFile.

(** ** What the properties compute: closed forms over the heap

    [sid_of], [pid_of], [eq_of], [find_of] and [parent_of] read the stored
    slots only; the theorems below show that the methods return them in
    every well-formed registry. *)

Definition sid_of (st : state) (i : nat) : bytes :=
  match nth_error (heap st) i with
  | Some n => match _sid n with Some s => s | None => [] end
  | None => []
  end.

Definition story_of (st : state) (i : nat) : str :=
  match nth_error (heap st) i with
  | Some n => _story n
  | None => []
  end.

(** The stored [_parent] slot. *)
Definition slot_of (st : state) (i : nat) : value :=
  match nth_error (heap st) i with
  | Some n => _parent n
  | None => VNone
  end.

(** Identity bytes of a parent reference: empty for [None], the digest
    itself, or the sid of the node. *)
Definition key_id (st : state) (v : value) : bytes :=
  match v with
  | VNone => []
  | VBytes b => b
  | VNode p => sid_of st p
  end.

Definition pid_of (st : state) (i : nat) : bytes := key_id st (slot_of st i).

Definition hash_of (st : state) (v : value) : hashv :=
  match v with
  | VNone => HNone
  | VBytes b => HBytes b
  | VNode i => HBytes (sid_of st i)
  end.

Definition eq_of (st : state) (a b : value) : bool :=
  match a, b with
  | VNode i, VNode j =>
      bytes_eqb (pid_of st j) (pid_of st i) && str_eqb (story_of st j) (story_of st i)
  | VNode i, VBytes x => bytes_eqb x (sid_of st i)
  | VBytes x, VNode j => bytes_eqb x (sid_of st j)
  | VBytes x, VBytes y => bytes_eqb x y
  | VNone, VNone => true
  | _, _ => false
  end.

(** Does the entry with stored hash [hk] and key [k] answer a lookup of
    [key] with hash [h]? *)
Definition matches (st : state) (h : hashv) (key : value) (hk : hashv) (k : value)
  : bool :=
  value_is k key || (hashv_eqb hk h && eq_of st k key).

Definition keys {V} (d : dict V) : list (hashv * value) := map fst d.

(** The position a lookup of [key] with hash [h] stops at; it depends on
    the keys and their stored hashes only. *)
Fixpoint find_keys (st : state) (h : hashv) (key : value)
  (ks : list (hashv * value)) (idx : nat) : option nat :=
  match ks with
  | [] => None
  | (hk, k) :: ks' =>
      if matches st h key hk k then Some idx else find_keys st h key ks' (S idx)
  end.

Definition lookup_of {V} (st : state) (d : dict V) (key : value) : option nat :=
  find_keys st (hash_of st key) key (keys d) 0.

Definition contains_of {V} (st : state) (d : dict V) (key : value) : bool :=
  match lookup_of st d key with Some _ => true | None => false end.

(** The dictionary after [d[key] = v]. *)
Definition setitem_of {V} (st : state) (d : dict V) (key : value) (v : V) : dict V :=
  match lookup_of st d key with
  | Some i => upd d i (fun e => (fst e, v))
  | None => d ++ [(hash_of st key, key, v)]
  end.

(** The state after the sid of object [i] has been cached. *)
Definition with_sid (i : nat) (s : bytes) (st : state) : state :=
  set_heap
    (upd (heap st) i (fun n => mkNode (_story n) (_parent n) (Some s) (_bytes n))) st.

(** The state after "register parent if it exists". *)
Definition registered_parent (st : state) (parent : value) : state :=
  if contains_of st (_all st) parent then st
  else
    set_children (_children st ++ [(hash_of st parent, parent, [])])
      (set_all (_all st ++ [(hash_of st parent, parent, parent)]) st).

(** Is a node equal to [item], with hash [h], in the set? *)
Definition weakset_mem_of (st : state) (h : hashv) (item : nat) (ws : weakset) : bool :=
  existsb (fun e => hashv_eqb (fst e) h && eq_of st (VNode (snd e)) (VNode item)) ws.

(** The state after "register node". *)
Definition registered_node (st : state) (self : nat) : state :=
  mkState (heap st)
    (setitem_of st (_all st) (VNode self) (VNode self))
    (if contains_of st (_children st) (VNode self) then _children st
     else _children st ++ [(hash_of st (VNode self), VNode self, [])]).

(** The parent argument [from_bytes] passes to the constructor. *)
Definition decoded_parent (pf : bytes) : value :=
  if bytes_eqb pf (zeros DIGEST_SIZE) then VNone else VBytes pf.

(** The value [Node.parent] returns. *)
Definition parent_of (st : state) (i : nat) : value :=
  match lookup_of st (_all st) (slot_of st i) with
  | Some idx =>
      match nth_error (_all st) idx with
      | Some (_, _, v) => v
      | None => slot_of st i
      end
  | None => slot_of st i
  end.

(** The digest cached by the first read of the sid of a new object. *)
Definition fresh_digest (st : state) (nd : node) (u : bytes) : bytes :=
  q_hash (key_id st (_parent nd) ++ u).

(** The child set after [add(item)], and the state after
    [self._children[key].add(item)] when the entry of [key] is the [i]-th. *)
Definition added_set (st : state) (item : nat) (h : hashv) (ws : weakset) : weakset :=
  if weakset_mem_of st h item ws then ws else ws ++ [(h, item)].

Definition added_state (st : state) (item : nat) (h : hashv) (i : nat) (ws : weakset)
  : state :=
  set_children (upd (_children st) i (fun e => (fst e, added_set st item h ws))) st.

(** ** Well-formed registries *)

(** The slots the identity of a node depends on; the [_bytes] cache is not
    one of them. *)
Definition core (nd : node) : str * value * option bytes :=
  (_story nd, _parent nd, _sid nd).

(** Two states with the same first [n] nodes, up to the [_bytes] cache. *)
Definition agree (n : nat) (st st' : state) : Prop :=
  forall i, i < n ->
    option_map core (nth_error (heap st') i) = option_map core (nth_error (heap st) i).

(** The first [n] objects are untouched. *)
Definition same_below (n : nat) (st st' : state) : Prop :=
  forall i, i < n -> nth_error (heap st') i = nth_error (heap st) i.

Definition keys_ok (n : nat) (ks : list (hashv * value)) : Prop :=
  forall hk k, In (hk, k) ks -> match k with VNode i => i < n | _ => True end.

Definition val_ok (n : nat) (v : value) : Prop :=
  match v with
  | VNode i => i < n
  | _ => True
  end.

(** Node [p] has an entry among the keys [ks] that no key of a later node
    precedes. *)
Definition covered (st : state) (ks : list (hashv * value)) (p : nat) : Prop :=
  exists l1 l2,
    ks = l1 ++ l2 /\
    (forall h j, In (h, VNode j) l1 -> j <= p) /\
    (exists h k, In (h, k) l1 /\
                 matches st (hash_of st (VNode p)) (VNode p) h k = true).

(** A constructed node: its sid is cached and is the digest of its parent
    identity and story, and a parent node is an earlier, registered node. *)
Definition node_ok (st : state) (i : nat) (nd : node) : Prop :=
  (exists u, UTF8.encode (_story nd) = Some u /\
             _sid nd = Some (q_hash (key_id st (_parent nd) ++ u))) /\
  match _parent nd with
  | VNode p => p < i /\ covered st (keys (_all st)) p
  | _ => True
  end.

Definition heap_ok (n : nat) (st : state) : Prop :=
  n <= length (heap st) /\
  forall i nd, i < n -> nth_error (heap st) i = Some nd -> node_ok st i nd.

(** Keys carry their hash, are bytes or constructed nodes. *)
Definition key_ok (n : nat) (st : state) (h : hashv) (k : value) : Prop :=
  k <> VNone /\ val_ok n k /\ h = hash_of st k.

Definition all_entry_ok (n : nat) (st : state) (e : entry value) : Prop :=
  let '(h, k, v) := e in
  key_ok n st h k /\ v <> VNone /\ val_ok n v /\ hash_of st v = h.

Definition member_ok (n : nat) (st : state) (m : hashv * nat) : Prop :=
  snd m < n /\ fst m = hash_of st (VNode (snd m)).

Definition children_entry_ok (n : nat) (st : state) (e : entry weakset) : Prop :=
  let '(h, k, ws) := e in
  key_ok n st h k /\ Forall (member_ok n st) ws.

(** No key answers a lookup of a later key. *)
Fixpoint distinct_keys (st : state) (l : list (hashv * value)) : Prop :=
  match l with
  | [] => True
  | (h, k) :: l' =>
      Forall (fun e => matches st (fst e) (snd e) h k = false) l' /\
      distinct_keys st l'
  end.

(** A value that is still a raw digest sits under that digest as key. *)
Definition value_ok (e : entry value) : Prop :=
  match snd e with
  | VBytes b => snd (fst e) = VBytes b
  | _ => True
  end.

Definition unique_ok (st : state) (d : dict value) : Prop :=
  distinct_keys st (keys d) /\ Forall value_ok d.

(** The two entry points of the recursion return the closed forms on the
    first [n] nodes. *)
Definition sid_good (rec : ops) (st : state) (n : nat) : Prop :=
  forall i, i < n -> o_sid rec i st = Ok (sid_of st i) st.

Definition pid_good (rec : ops) (st : state) (m : nat) : Prop :=
  forall i, i < m -> o_pid rec i st = Ok (pid_of st i) st.

(** Two values whose comparison stays below [m] when both are nodes. *)
Definition pair_below (m : nat) (a b : value) : Prop :=
  match a, b with
  | VNode i, VNode j => i < m /\ j < m
  | _, _ => True
  end.

(** Entries a lookup of [key] may compare with. *)
Definition scan_ok {V} (n m : nat) (key : value) (l : dict V) : Prop :=
  forall h k v, In (h, k, v) l -> val_ok n k /\ pair_below m k key.

(** The registry invariant: the first [n] objects of the heap are the
    constructed nodes, every one of them is registered, and the two
    dictionaries have the same keys. *)
Record registry_ok (n : nat) (st : state) : Prop := {
  r_heap : heap_ok n st;
  r_all : Forall (all_entry_ok n st) (_all st);
  r_children : Forall (children_entry_ok n st) (_children st);
  r_keys : keys (_all st) = keys (_children st);
  r_covered : forall p, p < n -> covered st (keys (_all st)) p;
  r_unique : unique_ok st (_all st)
}.

(** Inside [__init__]: object [n] has its sid but may not be registered
    yet; it may already be a member of its parent's child set. *)
Record pending (n : nat) (st : state) : Prop := {
  p_heap : heap_ok (S n) st;
  p_all : Forall (all_entry_ok n st) (_all st);
  p_children : Forall (children_entry_ok (S n) st) (_children st);
  p_ckeys : keys_ok n (keys (_children st));
  p_keys : keys (_all st) = keys (_children st);
  p_covered : forall p, p < n -> covered st (keys (_all st)) p;
  p_unique : unique_ok st (_all st)
}.

(** A cached encoding is the packed form of the node. *)
Definition bytes_ok (st : state) (nd : node) : Prop :=
  forall b, _bytes nd = Some b ->
    exists u s, UTF8.encode (_story nd) = Some u /\ _sid nd = Some s /\
                b = pack_N_FMT (key_id st (_parent nd)) u s.

Definition cache_ok (st : state) : Prop := Forall (bytes_ok st) (heap st).

(** The registry holds node [p]: it is a key or a value of the identity
    map. *)
Definition holds (st : state) (p : nat) : Prop :=
  exists h k v, In (h, k, v) (_all st) /\ (k = VNode p \/ v = VNode p).

(** A registry that is well-formed except that its two dictionaries may
    have drifted apart. *)
Definition drifted_ok (st : state) : Prop :=
  heap_ok (length (heap st)) st /\
  Forall (all_entry_ok (length (heap st)) st) (_all st) /\
  keys_ok (length (heap st)) (keys (_children st)).

(** The walk of [retrace] as the specification words it: from the current
    node, stop without the parent when the parent equals [stop], when it
    is an unresolved digest, or when there is none; otherwise move to the
    parent and list it. *)
Inductive retrace_walk (st : state) (stop : value) : nat -> list nat -> Prop :=
| walk_stop (cur : nat) :
    eq_of st (parent_of st cur) stop = true ->
    retrace_walk st stop cur []
| walk_unresolved (cur : nat) (d : bytes) :
    parent_of st cur = VBytes d -> eq_of st (VBytes d) stop = false ->
    retrace_walk st stop cur []
| walk_root (cur : nat) :
    parent_of st cur = VNone ->
    retrace_walk st stop cur []
| walk_step (cur p : nat) (l : list nat) :
    parent_of st cur = VNode p -> eq_of st (VNode p) stop = false ->
    retrace_walk st stop p l ->
    retrace_walk st stop cur (p :: l).

(** The example of the specification: a root [R] with story "r",
    [A = R.branch("x")] and [B = A.branch("y")], in an empty registry. *)
Definition example_chain : M (nat * nat * nat) :=
  (r <- Node 5 [114%N] VNone ;;
   a <- branch 5 r [120%N] ;;
   b <- branch 5 a [121%N] ;;
   ret (r, a, b))%monad.

Definition example_state : state :=
  match example_chain empty_state with
  | Ok _ st => st
  | _ => empty_state
  end.

(** A registry in which every object of the heap is constructed. *)
Definition Inv (st : state) : Prop := registry_ok (length (heap st)) st.

(** Inside [Node(story, parent)] run on [st]: [s3] is the state in which
    the sid of the new object has just been cached by hashing it in [s]. *)
Definition cached (f : nat) (st : state) (story : str) (parent : value) (u : bytes)
  (s s3 : state) : Prop :=
  let n := length (heap st) in
  py_hash (run f) (VNode n) s = Ok (hash_of s3 (VNode n)) s3 /\
  _all s = _all s3 /\ pending n s3 /\ same_below n st s3 /\
  length (heap s3) = S n /\
  nth_error (heap s3) n =
    Some (mkNode story parent (Some (q_hash (key_id st parent ++ u))) None) /\
  exists ext, _all s3 = _all st ++ ext /\
              match parent with VBytes _ => True | _ => ext = [] end.

(** What a successful [Node(story, parent)] leaves behind: object
    [length (heap st)] is the new node, the nodes before it are as they
    were, and the identity map kept its keys, in order.  The identity map
    is the one of [st], with an entry for a parent given as a digest the
    registry did not hold, in which [_all[self] = self] was run. *)
Record constructed (st : state) (story : str) (parent : value) (u : bytes)
  (st' : state) : Prop := {
  c_inv : Inv st';
  c_length : length (heap st') = S (length (heap st));
  c_same : same_below (length (heap st)) st st';
  c_node : nth_error (heap st') (length (heap st)) =
           Some (mkNode story parent (Some (q_hash (key_id st parent ++ u))) None);
  c_keys : exists ext, keys (_all st') = keys (_all st) ++ ext;
  c_all : exists d,
      (exists ext, d = _all st ++ ext) /\
      match parent with VBytes _ => True | _ => d = _all st end /\
      _all st' = setitem_of st' d (VNode (length (heap st))) (VNode (length (heap st)))
}.

(** The identity map answers a lookup of node [m] with [m] itself. *)
Definition current (st : state) (m : nat) : Prop :=
  exists idx h k,
    lookup_of st (_all st) (VNode m) = Some idx /\
    nth_error (_all st) idx = Some (h, k, VNode m).

(** Every key of the identity map is a node, as in a registry built from
    roots and [branch]. *)
Definition node_keys (st : state) : Prop :=
  Forall (fun e => match snd e with VNode _ => True | _ => False end)
         (keys (_all st)).

(** What [Node(story)] and [self.branch(story)] leave in a registry whose
    keys are nodes. *)
Definition grown (st : state) (story : str) (parent : value) (st' : state) : Prop :=
  Inv st' /\ node_keys st' /\ length (heap st') = S (length (heap st)) /\
  current st' (length (heap st)) /\
  slot_of st' (length (heap st)) = parent /\
  story_of st' (length (heap st)) = story /\
  (forall m, m < length (heap st) ->
     slot_of st' m = slot_of st m /\ story_of st' m = story_of st m) /\
  (forall m, m < length (heap st) -> current st m ->
     eq_of st' (VNode m) (VNode (length (heap st))) = false -> current st' m).

(** Bit [i] of a buffer flipped, bit 0 being the lowest bit of byte 0. *)
Definition flip_bit (i : nat) (b : bytes) : bytes :=
  upd b (i / 8)
    (fun x => byte_of (N.lxor (Byte.to_N x) (2 ^ N.of_nat (i mod 8)))).

(** The bytes [from_bytes] hashes for a slot: the parent field, unless it
    is all null, followed by the story field without its padding. *)
Definition slot_hash_input (b : bytes) : bytes :=
  match decoded_parent (firstn DIGEST_SIZE b) with
  | VBytes d => d
  | _ => []
  end ++ rstrip0 (firstn STORY_SIZE (skipn DIGEST_SIZE b)).

(** ** Concrete registries *)

(** What a run ended with, without the state. *)
Definition outcome {A} (r : result A) : option (A + exn) :=
  match r with
  | Ok a _ => Some (inl a)
  | Raise e _ => Some (inr e)
  | OutOfFuel => None
  end.

Definition final_state {A} (r : result A) : state :=
  match r with
  | Ok _ st => st
  | Raise _ st => st
  | OutOfFuel => empty_state
  end.

(** [R = Node("r")] *)
Definition st_w1 : state :=
  Eval vm_compute in final_state (Node 6 [114%N] VNone empty_state).

(** [A = Node("x", R)] *)
Definition st_w2 : state :=
  Eval vm_compute in final_state (Node 6 [120%N] (VNode 0) st_w1).

(** [R2 = Node("r")], a second instance equal to [R] *)
Definition st_w3 : state :=
  Eval vm_compute in final_state (Node 6 [114%N] VNone st_w2).

(** [C = Node("y", R.sid)], a node that knows its parent by digest only *)
Definition st_w4 : state :=
  Eval vm_compute in final_state (Node 6 [121%N] (VBytes (sid_of st_w3 0)) st_w3).

(** A root whose story is 64 times "A" followed by "x", and a node with
    the story "x" whose parent is known by the digest of 64 bytes "A". *)
Definition st_a1 : state :=
  Eval vm_compute in
    final_state (Node 6 (repeat 65%N 64 ++ [120%N]) VNone empty_state).

Definition st_a2 : state :=
  Eval vm_compute in
    final_state (Node 6 [120%N] (VBytes (repeat x41 64)) st_a1).

(** A third node, with the story "y", whose parent is known by the sid
    that the two nodes of [st_a2] share. *)
Definition st_a3 : state :=
  Eval vm_compute in
    final_state (Node 6 [121%N] (VBytes (sid_of st_a2 0)) st_a2).

(** A registry whose children map knows a digest the identity map does
    not. *)
Definition st_drifted : state :=
  mkState [] [] [(HBytes [x01], VBytes [x01], [])].

(** 449 times U+00E9: 449 characters, 898 bytes of UTF-8. *)
Definition long_story : str := repeat 0xE9%N 449.

(** A node with the story "x" and 64 null bytes as parent digest, encoded
    and decoded again. *)
Definition zero_parent_round_trip : M nat :=
  (n <- Node 3 [120%N] (VBytes (zeros DIGEST_SIZE)) ;;
   b <- to_bytes 3 n ;;
   from_bytes 3 b)%monad.

(** ** Reachable registries *)

(** The registries the operations of [Node] lead to from the empty one:
    constructions and encodings that return, and decodings whether they
    return or raise. *)
Inductive reachable : state -> Prop :=
| reach_empty : reachable empty_state
| reach_Node (f : nat) (story : str) (parent : value) (st : state) (n : nat)
    (st' : state) :
    reachable st -> val_ok (length (heap st)) parent ->
    S (length (heap st)) < f ->
    Node f story parent st = Ok n st' -> reachable st'
| reach_branch (f self : nat) (story : str) (st : state) (n : nat) (st' : state) :
    reachable st -> self < length (heap st) -> S (length (heap st)) < f ->
    branch f self story st = Ok n st' -> reachable st'
| reach_from_bytes (f : nat) (b : bytes) (st : state) (n : nat) (st' : state) :
    reachable st -> S (length (heap st)) < f ->
    from_bytes f b st = Ok n st' -> reachable st'
| reach_rejected (f : nat) (b : bytes) (st : state) (e : exn) (st' : state) :
    reachable st -> S (length (heap st)) < f ->
    from_bytes f b st = Raise e st' -> reachable st'
| reach_to_bytes (f n : nat) (st : state) (b : bytes) (st' : state) :
    reachable st -> n < length (heap st) -> length (heap st) < f ->
    to_bytes f n st = Ok b st' -> reachable st'.

Unset Implicit Arguments.

(** * Facts about bytes and the UTF-8 codec *)

Lemma byte_of_to_N (b : byte) : byte_of (Byte.to_N b) = b.
Proof.
  unfold byte_of.
  rewrite N.mod_small by (pose proof (Byte.to_N_bounded b); lia).
  now rewrite Byte.of_to_N.
Qed.

Lemma to_N_byte_of (n : N) : (n < 256)%N -> Byte.to_N (byte_of n) = n.
Proof.
  intros Hn. unfold byte_of. rewrite N.mod_small by exact Hn.
  destruct (Byte.of_N n) as [b|] eqn:E.
  - now apply Byte.to_of_N.
  - apply Byte.of_N_None_iff in E. lia.
Qed.

Lemma bytes_eqb_eq (a b : bytes) : bytes_eqb a b = true <-> a = b.
Proof.
  unfold bytes_eqb. destruct (list_eq_dec Byte.byte_eq_dec a b); split; congruence.
Qed.

Lemma bytes_eqb_refl (a : bytes) : bytes_eqb a a = true.
Proof. now apply bytes_eqb_eq. Qed.

Lemma bytes_eqb_neq (a b : bytes) : bytes_eqb a b = false <-> a <> b.
Proof.
  unfold bytes_eqb. destruct (list_eq_dec Byte.byte_eq_dec a b); split; congruence.
Qed.

Lemma str_eqb_eq (a b : str) : str_eqb a b = true <-> a = b.
Proof.
  unfold str_eqb. destruct (list_eq_dec N.eq_dec a b); split; congruence.
Qed.

Lemma str_eqb_refl (a : str) : str_eqb a a = true.
Proof. now apply str_eqb_eq. Qed.

Module UTF8Facts.

Import UTF8.
Local Open Scope N_scope.

Local Ltac Zify.zify_post_hook ::= Z.to_euclidean_division_equations.

Lemma cont_byte_of (x : N) : x < 64 -> cont (byte_of (0x80 + x)) = Some x.
Proof.
  intros Hx. unfold cont. rewrite to_N_byte_of by lia.
  replace (0x80 <=? 0x80 + x) with true by (symmetry; apply N.leb_le; lia).
  replace (0x80 + x <? 0xC0) with true by (symmetry; apply N.ltb_lt; lia).
  cbn [andb]. f_equal. lia.
Qed.

Lemma cont_inv (b : byte) (c : N) :
  cont b = Some c -> c < 64 /\ b = byte_of (0x80 + c).
Proof.
  unfold cont. intros H.
  destruct (0x80 <=? Byte.to_N b) eqn:E1; [|discriminate].
  destruct (Byte.to_N b <? 0xC0) eqn:E2; [|discriminate].
  cbn [andb] in H. injection H as <-.
  apply N.leb_le in E1. apply N.ltb_lt in E2. split; [lia|].
  replace (0x80 + (Byte.to_N b - 0x80)) with (Byte.to_N b) by lia.
  now rewrite byte_of_to_N.
Qed.

Ltac decide_cmp := repeat (match goal with
  | |- context [?a <? ?b] =>
      first [ replace (a <? b) with true by (symmetry; apply N.ltb_lt; lia)
            | replace (a <? b) with false by (symmetry; apply N.ltb_ge; lia) ]
  | |- context [?a <=? ?b] =>
      first [ replace (a <=? b) with true by (symmetry; apply N.leb_le; lia)
            | replace (a <=? b) with false by (symmetry; apply N.leb_gt; lia) ]
  end; cbv beta iota).

Lemma Some_inj {A} (x y : A) : Some x = Some y -> x = y.
Proof. congruence. Qed.

Lemma decode_encode_char (c : N) (b r : bytes) :
  encode_char c = Some b -> decode (b ++ r) = cons_char c (decode r).
Proof.
  unfold encode_char. intros H.
  destruct (c <? 0x80) eqn:E1.
  { apply Some_inj in H; subst b. apply N.ltb_lt in E1.
    cbn [app decode]. rewrite to_N_byte_of by lia. now decide_cmp. }
  apply N.ltb_ge in E1.
  destruct (c <? 0x800) eqn:E2.
  { apply Some_inj in H; subst b. apply N.ltb_lt in E2.
    cbn [app decode]. rewrite to_N_byte_of by lia.
    rewrite cont_byte_of by lia.
    decide_cmp. f_equal. lia. }
  apply N.ltb_ge in E2.
  destruct (c <? 0x10000) eqn:E3.
  { apply N.ltb_lt in E3.
    destruct ((0xD800 <=? c) && (c <? 0xE000)) eqn:E4; [discriminate|].
    apply Some_inj in H; subst b.
    cbn [app decode]. rewrite to_N_byte_of by lia.
    rewrite !cont_byte_of by lia.
    replace ((0xE0 + c / 4096 - 0xE0) * 4096 + (c / 64) mod 64 * 64 + c mod 64)
      with c by lia.
    rewrite E4. now decide_cmp. }
  apply N.ltb_ge in E3.
  destruct (c <? 0x110000) eqn:E4; [|discriminate].
  apply Some_inj in H; subst b. apply N.ltb_lt in E4.
  cbn [app decode]. rewrite to_N_byte_of by lia.
  rewrite !cont_byte_of by lia.
  replace ((0xF0 + c / 262144 - 0xF0) * 262144 + (c / 4096) mod 64 * 4096 +
           (c / 64) mod 64 * 64 + c mod 64) with c by lia.
  now decide_cmp.
Qed.

(** Decoding inverts encoding. *)
Lemma decode_encode (s : str) (u : bytes) :
  encode s = Some u -> decode u = Some s.
Proof.
  revert u. induction s as [|c s IH]; intros u H; simpl in H.
  - now injection H as <-.
  - destruct (encode_char c) as [b|] eqn:Ec; [|discriminate].
    destruct (encode s) as [r|] eqn:Es; [|discriminate].
    injection H as <-.
    rewrite (decode_encode_char c b r Ec), (IH r eq_refl). reflexivity.
Qed.

Lemma encode_char_1 (b0 : byte) :
  Byte.to_N b0 < 0x80 -> encode_char (Byte.to_N b0) = Some [b0].
Proof.
  intros H. unfold encode_char. decide_cmp. now rewrite byte_of_to_N.
Qed.

Lemma encode_char_2 (b0 : byte) (c1 : N) :
  0xC2 <= Byte.to_N b0 -> Byte.to_N b0 < 0xE0 -> c1 < 64 ->
  encode_char ((Byte.to_N b0 - 0xC0) * 64 + c1) = Some [b0; byte_of (0x80 + c1)].
Proof.
  intros H1 H2 H3. unfold encode_char. decide_cmp.
  replace (0xC0 + ((Byte.to_N b0 - 0xC0) * 64 + c1) / 64) with (Byte.to_N b0) by lia.
  replace (((Byte.to_N b0 - 0xC0) * 64 + c1) mod 64) with c1 by lia.
  now rewrite byte_of_to_N.
Qed.

Lemma encode_char_3 (b0 : byte) (c1 c2 : N) :
  0xE0 <= Byte.to_N b0 -> Byte.to_N b0 < 0xF0 -> c1 < 64 -> c2 < 64 ->
  let c := (Byte.to_N b0 - 0xE0) * 4096 + c1 * 64 + c2 in
  (c <? 0x800) || ((0xD800 <=? c) && (c <? 0xE000)) = false ->
  encode_char c = Some [b0; byte_of (0x80 + c1); byte_of (0x80 + c2)].
Proof.
  intros H1 H2 H3 H4 c Hc.
  apply orb_false_iff in Hc. destruct Hc as [Hc1 Hc2].
  apply N.ltb_ge in Hc1.
  unfold encode_char. rewrite Hc2. subst c.
  set (n0 := Byte.to_N b0) in *. decide_cmp.
  replace (0xE0 + ((n0 - 0xE0) * 4096 + c1 * 64 + c2) / 4096) with n0 by lia.
  replace ((((n0 - 0xE0) * 4096 + c1 * 64 + c2) / 64) mod 64) with c1 by lia.
  replace (((n0 - 0xE0) * 4096 + c1 * 64 + c2) mod 64) with c2 by lia.
  subst n0. now rewrite byte_of_to_N.
Qed.

Lemma encode_char_4 (b0 : byte) (c1 c2 c3 : N) :
  0xF0 <= Byte.to_N b0 -> Byte.to_N b0 < 0xF5 -> c1 < 64 -> c2 < 64 -> c3 < 64 ->
  let c := (Byte.to_N b0 - 0xF0) * 262144 + c1 * 4096 + c2 * 64 + c3 in
  (c <? 0x10000) || (0x110000 <=? c) = false ->
  encode_char c =
  Some [b0; byte_of (0x80 + c1); byte_of (0x80 + c2); byte_of (0x80 + c3)].
Proof.
  intros H1 H2 H3 H4 H5 c Hc.
  apply orb_false_iff in Hc. destruct Hc as [Hc1 Hc2].
  apply N.ltb_ge in Hc1. apply N.leb_gt in Hc2.
  unfold encode_char. subst c.
  set (n0 := Byte.to_N b0) in *. decide_cmp.
  replace (0xF0 + ((n0 - 0xF0) * 262144 + c1 * 4096 + c2 * 64 + c3) / 262144)
    with n0 by lia.
  replace ((((n0 - 0xF0) * 262144 + c1 * 4096 + c2 * 64 + c3) / 4096) mod 64)
    with c1 by lia.
  replace ((((n0 - 0xF0) * 262144 + c1 * 4096 + c2 * 64 + c3) / 64) mod 64)
    with c2 by lia.
  replace (((n0 - 0xF0) * 262144 + c1 * 4096 + c2 * 64 + c3) mod 64)
    with c3 by lia.
  subst n0. now rewrite byte_of_to_N.
Qed.

Lemma cons_char_inv (c : N) (r : option str) (s : str) :
  cons_char c r = Some s -> exists s', r = Some s' /\ s = c :: s'.
Proof.
  destruct r as [s'|]; simpl; [|discriminate].
  intros H. apply Some_inj in H. eauto.
Qed.

Lemma encode_cons (c : N) (s : str) (b r : bytes) :
  encode_char c = Some b -> encode s = Some r -> encode (c :: s) = Some (b ++ r).
Proof. intros H1 H2. cbn [encode]. now rewrite H1, H2. Qed.

(** Encoding inverts decoding: a byte string that decodes is the encoding
    of what it decodes to. *)
Lemma encode_decode_aux (n : nat) :
  forall (u : bytes) (s : str),
    (length u <= n)%nat -> decode u = Some s -> encode s = Some u.
Proof.
  induction n as [|n IH]; intros u s Hlen H.
  { destruct u; [|simpl in Hlen; lia]. simpl in H. apply Some_inj in H. now subst. }
  destruct u as [|b0 l1]; [simpl in H; apply Some_inj in H; now subst|].
  cbn [decode] in H. cbn [length] in Hlen.
  destruct (Byte.to_N b0 <? 0x80) eqn:E1.
  { apply N.ltb_lt in E1. apply cons_char_inv in H. destruct H as (s' & Hs & ->).
    apply IH in Hs; [|lia].
    exact (encode_cons _ _ _ _ (encode_char_1 b0 E1) Hs). }
  apply N.ltb_ge in E1.
  destruct (Byte.to_N b0 <? 0xC2) eqn:E2; [discriminate|]. apply N.ltb_ge in E2.
  destruct (Byte.to_N b0 <? 0xE0) eqn:E3.
  { apply N.ltb_lt in E3. destruct l1 as [|b1 l2]; [discriminate|].
    destruct (cont b1) as [c1|] eqn:C1; [|discriminate].
    apply cont_inv in C1. destruct C1 as [C1 ->].
    apply cons_char_inv in H. destruct H as (s' & Hs & ->).
    apply IH in Hs; [|cbn [length] in Hlen; lia].
    exact (encode_cons _ _ _ _ (encode_char_2 b0 _ E2 E3 C1) Hs). }
  apply N.ltb_ge in E3.
  destruct (Byte.to_N b0 <? 0xF0) eqn:E4.
  { apply N.ltb_lt in E4. destruct l1 as [|b1 [|b2 l3]]; try discriminate.
    destruct (cont b1) as [c1|] eqn:C1; [|discriminate].
    destruct (cont b2) as [c2|] eqn:C2; [|discriminate].
    apply cont_inv in C1. destruct C1 as [C1 ->].
    apply cont_inv in C2. destruct C2 as [C2 ->].
    match type of H with (if ?c then _ else _) = _ => destruct c eqn:E5 end;
      [discriminate|].
    apply cons_char_inv in H. destruct H as (s' & Hs & ->).
    apply IH in Hs; [|cbn [length] in Hlen; lia].
    exact (encode_cons _ _ _ _ (encode_char_3 b0 _ _ E3 E4 C1 C2 E5) Hs). }
  apply N.ltb_ge in E4.
  destruct (Byte.to_N b0 <? 0xF5) eqn:E5; [|discriminate].
  apply N.ltb_lt in E5. destruct l1 as [|b1 [|b2 [|b3 l4]]]; try discriminate.
  destruct (cont b1) as [c1|] eqn:C1; [|discriminate].
  destruct (cont b2) as [c2|] eqn:C2; [|discriminate].
  destruct (cont b3) as [c3|] eqn:C3; [|discriminate].
  apply cont_inv in C1. destruct C1 as [C1 ->].
  apply cont_inv in C2. destruct C2 as [C2 ->].
  apply cont_inv in C3. destruct C3 as [C3 ->].
  match type of H with (if ?c then _ else _) = _ => destruct c eqn:E6 end;
    [discriminate|].
  apply cons_char_inv in H. destruct H as (s' & Hs & ->).
  apply IH in Hs; [|cbn [length] in Hlen; lia].
  exact (encode_cons _ _ _ _ (encode_char_4 b0 _ _ _ E4 E5 C1 C2 C3 E6) Hs).
Qed.

Lemma encode_decode (u : bytes) (s : str) :
  decode u = Some s -> encode s = Some u.
Proof. exact (encode_decode_aux (length u) u s (le_n _)). Qed.

Lemma byte_of_nonzero (n : N) : 0 < n -> n < 256 -> byte_of n <> x00.
Proof.
  intros H0 H1 E. apply (f_equal Byte.to_N) in E.
  rewrite to_N_byte_of in E by exact H1. simpl in E. lia.
Qed.

Lemma encode_char_nonzero (c : N) (b : bytes) :
  encode_char c = Some b -> c <> 0 -> ~ In x00 b.
Proof.
  unfold encode_char. intros H Hc.
  destruct (c <? 0x80) eqn:E1.
  { apply Some_inj in H; subst b. apply N.ltb_lt in E1.
    intros [E|[]]. revert E. apply byte_of_nonzero; lia. }
  destruct (c <? 0x800) eqn:E2.
  { apply Some_inj in H; subst b. apply N.ltb_lt in E2.
    intros [E|[E|[]]]; revert E; apply byte_of_nonzero; lia. }
  destruct (c <? 0x10000) eqn:E3.
  { destruct ((0xD800 <=? c) && (c <? 0xE000)); [discriminate|].
    apply Some_inj in H; subst b. apply N.ltb_lt in E3.
    intros [E|[E|[E|[]]]]; revert E; apply byte_of_nonzero; lia. }
  destruct (c <? 0x110000) eqn:E4; [|discriminate].
  apply Some_inj in H; subst b. apply N.ltb_lt in E4.
  intros [E|[E|[E|[E|[]]]]]; revert E; apply byte_of_nonzero; lia.
Qed.

Lemma encode_char_length (c : N) (b : bytes) :
  encode_char c = Some b -> (1 <= length b)%nat.
Proof.
  unfold encode_char. intros H.
  repeat match type of H with
  | (if ?c then _ else _) = _ => destruct c
  end; try discriminate; apply Some_inj in H; subst b; simpl; lia.
Qed.

(** A story without the null character encodes without a null byte. *)
Lemma encode_no_null (s : str) (u : bytes) :
  encode s = Some u -> existsb (N.eqb 0) s = false -> ~ In x00 u.
Proof.
  revert u. induction s as [|c s IH]; intros u H Hn.
  - simpl in H. apply Some_inj in H. subst u. intros [].
  - cbn [encode] in H. cbn [existsb] in Hn. apply orb_false_iff in Hn.
    destruct Hn as [Hc Hn].
    destruct (encode_char c) as [b|] eqn:Ec; [|discriminate].
    destruct (encode s) as [r|] eqn:Es; [|discriminate].
    apply Some_inj in H. subst u. intros Hin. apply in_app_or in Hin.
    destruct Hin as [Hin|Hin].
    + revert Hin. apply (encode_char_nonzero _ _ Ec). apply N.eqb_neq in Hc. lia.
    + revert Hin. now apply IH.
Qed.

(** An encoding has at least as many bytes as the story has characters. *)
Lemma encode_length (s : str) (u : bytes) :
  encode s = Some u -> (length s <= length u)%nat.
Proof.
  revert u. induction s as [|c s IH]; intros u H.
  - simpl. lia.
  - cbn [encode] in H.
    destruct (encode_char c) as [b|] eqn:Ec; [|discriminate].
    destruct (encode s) as [r|] eqn:Es; [|discriminate].
    apply Some_inj in H. subst u. rewrite length_app. cbn [length].
    pose proof (encode_char_length _ _ Ec). pose proof (IH r eq_refl). lia.
Qed.

End UTF8Facts.

(** * Facts about the digest and the node format *)

Lemma word_bytes_length (w : N) : length (SHA512.word_bytes w) = 8.
Proof. reflexivity. Qed.

(** A digest has [DIGEST_SIZE] bytes. *)
Lemma q_hash_length (b : bytes) : length (q_hash b) = DIGEST_SIZE.
Proof.
  unfold q_hash, SHA512.digest.
  destruct (SHA512.blocks _ _ _) as [[[[[[[a c] d] e] f] g] h] i].
  rewrite !length_app, !word_bytes_length. reflexivity.
Qed.

Lemma zeros_length (n : nat) : length (zeros n) = n.
Proof. apply repeat_length. Qed.

Lemma fit_length (n : nat) (b : bytes) : length (fit n b) = n.
Proof.
  unfold fit. rewrite length_app, length_firstn, zeros_length. lia.
Qed.

Lemma fit_exact (n : nat) (b : bytes) : length b = n -> fit n b = b.
Proof.
  intros H. unfold fit. rewrite firstn_all2 by lia.
  replace (n - length b) with 0 by lia. simpl. apply app_nil_r.
Qed.

Lemma fit_short (n : nat) (b : bytes) :
  length b <= n -> fit n b = b ++ zeros (n - length b).
Proof. intros H. unfold fit. now rewrite firstn_all2 by lia. Qed.

Lemma fit_nil (n : nat) : fit n [] = zeros n.
Proof. unfold fit. rewrite firstn_nil. simpl. now rewrite Nat.sub_0_r. Qed.

Lemma pack_N_FMT_length (p u s : bytes) : length (pack_N_FMT p u s) = TOTAL_SIZE.
Proof.
  unfold pack_N_FMT. rewrite !length_app, !fit_length. reflexivity.
Qed.

Lemma firstn_app_exact {A} (n : nat) (l1 l2 : list A) :
  length l1 = n -> firstn n (l1 ++ l2) = l1.
Proof.
  intros H. rewrite firstn_app. replace (n - length l1) with 0 by lia.
  rewrite firstn_all2 by lia. simpl. apply app_nil_r.
Qed.

Lemma skipn_app_exact {A} (n : nat) (l1 l2 : list A) :
  length l1 = n -> skipn n (l1 ++ l2) = l2.
Proof.
  intros H. rewrite skipn_app. replace (n - length l1) with 0 by lia.
  rewrite skipn_all2 by lia. reflexivity.
Qed.

(** Unpacking a packed node gives back the three fitted fields. *)
Lemma unpack_pack (p u s : bytes) :
  unpack_N_FMT (pack_N_FMT p u s) =
  Some (fit DIGEST_SIZE p, fit STORY_SIZE u, fit DIGEST_SIZE s).
Proof.
  unfold unpack_N_FMT. rewrite pack_N_FMT_length, Nat.eqb_refl.
  unfold pack_N_FMT.
  rewrite firstn_app_exact by apply fit_length.
  rewrite skipn_app_exact by apply fit_length.
  rewrite firstn_app_exact by apply fit_length.
  rewrite app_assoc.
  rewrite skipn_app_exact by (rewrite length_app, !fit_length; reflexivity).
  reflexivity.
Qed.

Lemma unpack_length (b p u s : bytes) :
  unpack_N_FMT b = Some (p, u, s) -> length b = TOTAL_SIZE.
Proof.
  unfold unpack_N_FMT. destruct (length b =? TOTAL_SIZE) eqn:E; [|discriminate].
  intros _. now apply Nat.eqb_eq.
Qed.

Lemma unpack_total (b : bytes) :
  length b = TOTAL_SIZE -> exists p u s, unpack_N_FMT b = Some (p, u, s).
Proof.
  intros H. unfold unpack_N_FMT. rewrite H, Nat.eqb_refl. eauto.
Qed.

Lemma lstrip0_zeros (n : nat) (l : bytes) :
  lstrip0 (zeros n ++ l) = lstrip0 l.
Proof. induction n as [|n IH]; simpl; auto. Qed.

Lemma lstrip0_nonzero_head (l : bytes) :
  (forall b l', l = b :: l' -> b <> x00) -> lstrip0 l = l.
Proof.
  destruct l as [|b l]; intros H; [reflexivity|].
  simpl. unfold is_x00. destruct (Byte.eqb b x00) eqn:E; [|reflexivity].
  apply Byte.byte_dec_bl in E. exfalso. exact (H b l eq_refl E).
Qed.

Lemma rev_zeros (n : nat) : rev (zeros n) = zeros n.
Proof.
  unfold zeros. induction n as [|n IH]; [reflexivity|].
  simpl. rewrite IH. clear IH. induction n as [|n IH]; [reflexivity|].
  simpl. now rewrite IH.
Qed.

(** Stripping the null padding from a null-free story gives the story. *)
Lemma rstrip0_padded (u : bytes) (n : nat) :
  ~ In x00 u -> rstrip0 (u ++ zeros n) = u.
Proof.
  intros H. unfold rstrip0. rewrite rev_app_distr, rev_zeros, lstrip0_zeros.
  rewrite lstrip0_nonzero_head; [apply rev_involutive|].
  intros b l' E Hb. apply H. subst b. apply in_rev. rewrite E. now left.
Qed.

Lemma rstrip0_fit (u : bytes) (n : nat) :
  length u <= n -> ~ In x00 u -> rstrip0 (fit n u) = u.
Proof. intros H1 H2. rewrite fit_short by exact H1. now apply rstrip0_padded. Qed.

(** * The properties return their closed forms *)

Lemma bind_Ok {A B} (m : M A) (k : A -> M B) (st st' : state) (a : A) :
  m st = Ok a st' -> bind m k st = k a st'.
Proof. intros H. unfold bind. now rewrite H. Qed.

Lemma bind_Raise {A B} (m : M A) (k : A -> M B) (st st' : state) (e : exn) :
  m st = Raise e st' -> bind m k st = Raise e st'.
Proof. intros H. unfold bind. now rewrite H. Qed.

Lemma get_node_Ok (st : state) (i : nat) (nd : node) :
  nth_error (heap st) i = Some nd -> get_node i st = Ok nd st.
Proof. intros H. unfold get_node. now rewrite H. Qed.

Lemma nth_error_lt {A} (l : list A) (i : nat) :
  i < length l -> exists x, nth_error l i = Some x.
Proof.
  intros H. destruct (nth_error l i) eqn:E; eauto.
  apply nth_error_None in E. lia.
Qed.

Lemma hashv_eqb_eq (a b : hashv) : hashv_eqb a b = true <-> a = b.
Proof.
  destruct a, b; simpl; try (split; congruence).
  rewrite bytes_eqb_eq. split; congruence.
Qed.

Lemma hashv_eqb_refl (a : hashv) : hashv_eqb a a = true.
Proof. now apply hashv_eqb_eq. Qed.

Lemma hash_of_key_id (st : state) (v w : value) :
  hash_of st v = hash_of st w -> key_id st v = key_id st w.
Proof. destruct v, w; simpl; congruence. Qed.

Section Characterisation.

Variable rec : ops.
Variable st : state.
Variable n : nat.
Hypothesis Hn : n <= length (heap st).

Hypothesis Hsid : sid_good rec st n.

Lemma py_hash_char (v : value) :
  val_ok n v -> py_hash rec v st = Ok (hash_of st v) st.
Proof.
  destruct v as [|b|i]; simpl; intros Hv; try reflexivity.
  now rewrite (bind_Ok _ _ _ _ _ (Hsid i Hv)).
Qed.

Lemma get_node_story (i : nat) :
  i < n -> exists nd, get_node i st = Ok nd st /\ _story nd = story_of st i.
Proof.
  intros Hi. destruct (nth_error_lt (heap st) i) as [nd Hnd]; [lia|].
  exists nd. split; [now apply get_node_Ok|].
  unfold story_of. now rewrite Hnd.
Qed.

Variable m : nat.
Hypothesis Hm : m <= n.
Hypothesis Hpid : pid_good rec st m.

Lemma Node__eq__node (i j : nat) :
  i < m -> j < m ->
  Node__eq__ rec i (VNode j) st = Ok (Some (eq_of st (VNode i) (VNode j))) st.
Proof.
  intros Hi Hj. unfold Node__eq__, try_except.
  rewrite (bind_Ok _ _ _ _ _ (Hpid j Hj)).
  rewrite (bind_Ok _ _ _ _ _ (Hpid i Hi)).
  cbn [eq_of].
  destruct (bytes_eqb (pid_of st j) (pid_of st i)); [|reflexivity].
  destruct (get_node_story j) as (nj & Gj & Sj); [lia|].
  destruct (get_node_story i) as (ni & Gi & Si); [lia|].
  rewrite (bind_Ok _ _ _ _ _ Gj), (bind_Ok _ _ _ _ _ Gi), Sj, Si.
  cbn [andb]. now destruct (str_eqb _ _).
Qed.

Lemma Node__eq__bytes (i : nat) (b : bytes) :
  i < n ->
  Node__eq__ rec i (VBytes b) st = Ok (Some (bytes_eqb b (sid_of st i))) st.
Proof.
  intros Hi. unfold Node__eq__. now rewrite (bind_Ok _ _ _ _ _ (Hsid i Hi)).
Qed.

Lemma py_eq_char (a b : value) :
  val_ok n a -> val_ok n b -> pair_below m a b ->
  py_eq rec a b st = Ok (eq_of st a b) st.
Proof.
  intros Ha Hb Hp. destruct a as [|x|i], b as [|y|j]; simpl in *; try reflexivity.
  - now rewrite (bind_Ok _ _ _ _ _ (Node__eq__bytes j x Hb)).
  - now rewrite (bind_Ok _ _ _ _ _ (Node__eq__bytes i y Ha)).
  - destruct Hp as [Hi Hj].
    now rewrite (bind_Ok _ _ _ _ _ (Node__eq__node i j Hi Hj)).
Qed.

Lemma lookup_from_char {V} (h : hashv) (key : value) :
  val_ok n key ->
  forall (l1 l2 : dict V) (idx : nat),
    scan_ok n m key l1 ->
    (l2 = [] \/ exists hk k v, In (hk, k, v) l1 /\ matches st h key hk k = true) ->
    lookup_from rec h key (l1 ++ l2) idx st =
    Ok (find_keys st h key (keys (l1 ++ l2)) idx) st.
Proof.
  intros Hkey l1. induction l1 as [|[[hk k] v] l1 IH]; intros l2 idx Hscan Hex.
  - destruct Hex as [->|(hk & k & v & [] & _)]. reflexivity.
  - cbn [app lookup_from]. unfold keys. cbn [map fst find_keys].
    fold (keys (l1 ++ l2)). unfold matches at 1.
    destruct (Hscan hk k v (or_introl eq_refl)) as [Hk Hp].
    destruct (value_is k key) eqn:Eis; [reflexivity|]. cbn [orb].
    assert (Hrest : lookup_from rec h key (l1 ++ l2) (S idx) st =
                    Ok (find_keys st h key (keys (l1 ++ l2)) (S idx)) st
                    \/ hashv_eqb hk h && eq_of st k key = true).
    { destruct (hashv_eqb hk h && eq_of st k key) eqn:Em; [now right|left].
      apply IH.
      - intros h' k' v' Hin. apply (Hscan h' k' v'). now right.
      - destruct Hex as [->|(h' & k' & v' & [E|Hin] & Hmat)]; [now left| |].
        + inversion E; subst. unfold matches in Hmat. rewrite Eis, Em in Hmat.
          discriminate.
        + right. eauto. }
    destruct (hashv_eqb hk h) eqn:Eh; cbn [andb] in *.
    + rewrite (bind_Ok _ _ _ _ _ (py_eq_char k key Hk Hkey Hp)).
      destruct (eq_of st k key); [reflexivity|].
      destruct Hrest as [Hrest|Hrest]; [exact Hrest|discriminate].
    + destruct Hrest as [Hrest|Hrest]; [exact Hrest|discriminate].
Qed.

Lemma dict_find_char {V} (d : dict V) (key : value) (l1 l2 : dict V) :
  val_ok n key -> d = l1 ++ l2 -> scan_ok n m key l1 ->
  (l2 = [] \/ exists hk k v, In (hk, k, v) l1 /\
                            matches st (hash_of st key) key hk k = true) ->
  dict_find rec d key st = Ok (lookup_of st d key) st.
Proof.
  intros Hkey -> Hscan Hex. unfold dict_find.
  rewrite (bind_Ok _ _ _ _ _ (py_hash_char key Hkey)).
  now apply lookup_from_char.
Qed.

End Characterisation.

Lemma find_keys_Some (st : state) (h : hashv) (key : value)
  (ks : list (hashv * value)) :
  forall idx0 idx,
    find_keys st h key ks idx0 = Some idx ->
    exists hk k, nth_error ks (idx - idx0) = Some (hk, k) /\
                 matches st h key hk k = true /\ idx0 <= idx /\
                 forall hk' k', In (hk', k') (firstn (idx - idx0) ks) ->
                                matches st h key hk' k' = false.
Proof.
  induction ks as [|[hk k] ks IH]; intros idx0 idx H; [discriminate|].
  cbn [find_keys] in H. destruct (matches st h key hk k) eqn:E.
  - inversion H; subst. rewrite Nat.sub_diag. exists hk, k.
    repeat split; auto. intros hk' k' [].
  - apply IH in H. destruct H as (hk' & k' & Hn & Hm & Hle & Hbefore).
    exists hk', k'. replace (idx - idx0) with (S (idx - S idx0)) by lia.
    repeat split; auto; [lia|].
    intros hk2 k2 [Heq|Hin]; [inversion Heq; now subst|]. now apply Hbefore.
Qed.

Lemma find_keys_None (st : state) (h : hashv) (key : value)
  (ks : list (hashv * value)) :
  forall idx0,
    find_keys st h key ks idx0 = None ->
    forall hk k, In (hk, k) ks -> matches st h key hk k = false.
Proof.
  induction ks as [|[hk k] ks IH]; intros idx0 H hk' k' Hin; [destruct Hin|].
  cbn [find_keys] in H. destruct (matches st h key hk k) eqn:E; [discriminate|].
  destruct Hin as [Heq|Hin]; [inversion Heq; now subst|].
  eapply IH; eauto.
Qed.

Lemma find_keys_exists (st : state) (h : hashv) (key : value)
  (ks : list (hashv * value)) (hk : hashv) (k : value) :
  In (hk, k) ks -> matches st h key hk k = true ->
  forall idx0, exists idx, find_keys st h key ks idx0 = Some idx.
Proof.
  intros Hin Hm idx0. destruct (find_keys st h key ks idx0) eqn:E; eauto.
  rewrite (find_keys_None st h key ks idx0 E hk k Hin) in Hm. discriminate.
Qed.

Lemma nth_error_keys {V} (d : dict V) (idx : nat) (hk : hashv) (k : value) :
  nth_error (keys d) idx = Some (hk, k) ->
  exists v, nth_error d idx = Some (hk, k, v).
Proof.
  unfold keys. rewrite nth_error_map. intros H. unfold dict, entry in *.
  destruct (nth_error d idx) as [[[h' k'] v]|]; simpl in H; [|discriminate H].
  inversion H; subst. eauto.
Qed.

Lemma in_keys {V} (d : dict V) (hk : hashv) (k : value) :
  In (hk, k) (keys d) <-> exists v, In (hk, k, v) d.
Proof.
  unfold keys. rewrite in_map_iff. split.
  - intros ([[h' k'] v] & E & Hin). simpl in E. inversion E; subst. eauto.
  - intros (v & Hin). exists (hk, k, v). auto.
Qed.

Lemma keys_app {V} (d1 d2 : dict V) : keys (d1 ++ d2) = keys d1 ++ keys d2.
Proof. apply map_app. Qed.

Lemma keys_split {V} (d : dict V) (l1 l2 : list (hashv * value)) :
  keys d = l1 ++ l2 ->
  exists d1 d2, d = d1 ++ d2 /\ keys d1 = l1 /\ keys d2 = l2.
Proof.
  intros H. exists (firstn (length l1) d), (skipn (length l1) d).
  split; [symmetry; apply firstn_skipn|]. unfold keys, dict, entry in *.
  rewrite <- firstn_map, <- skipn_map. rewrite H. split.
  - rewrite firstn_app, Nat.sub_diag, firstn_all. simpl. apply app_nil_r.
  - rewrite skipn_app, Nat.sub_diag, skipn_all. reflexivity.
Qed.

Lemma value_is_true (a b : value) : value_is a b = true -> a = b.
Proof.
  destruct a, b; simpl; try discriminate; auto.
  intros H. apply Nat.eqb_eq in H. now subst.
Qed.

(** The value found for a key has the identity of the key. *)
Lemma lookup_value_hash (n : nat) (st : state) (key : value) (idx : nat) :
  Forall (all_entry_ok n st) (_all st) ->
  lookup_of st (_all st) key = Some idx ->
  exists hk k v, nth_error (_all st) idx = Some (hk, k, v) /\
                 hash_of st v = hash_of st key /\ val_ok n v /\ v <> VNone.
Proof.
  intros Hall H. unfold lookup_of in H. apply find_keys_Some in H.
  destruct H as (hk & k & Hnth & Hm & _). rewrite Nat.sub_0_r in Hnth.
  apply nth_error_keys in Hnth. destruct Hnth as [v Hnth].
  exists hk, k, v. split; [exact Hnth|].
  rewrite Forall_forall in Hall. specialize (Hall _ (nth_error_In _ _ Hnth)).
  destruct Hall as ((Hk0 & Hkv & Hh) & Hv0 & Hvv & Hvh).
  repeat split; auto. rewrite Hvh. unfold matches in Hm.
  apply orb_true_iff in Hm. destruct Hm as [Hm|Hm].
  - apply value_is_true in Hm. now subst.
  - apply andb_true_iff in Hm. destruct Hm as [Hm _]. now apply hashv_eqb_eq.
Qed.

Lemma parent_of_hash (n : nat) (st : state) (i : nat) :
  Forall (all_entry_ok n st) (_all st) ->
  val_ok n (slot_of st i) ->
  hash_of st (parent_of st i) = hash_of st (slot_of st i) /\
  val_ok n (parent_of st i).
Proof.
  intros Hall Hslot. unfold parent_of.
  destruct (lookup_of st (_all st) (slot_of st i)) as [idx|] eqn:E; [|auto].
  destruct (lookup_value_hash n st _ idx Hall E) as (hk & k & v & Hn & Hh & Hv & _).
  rewrite Hn. auto.
Qed.

Section Parent.

Variable rec : ops.
Variable st : state.
Variable n : nat.
Hypothesis Hn : n <= length (heap st).
Hypothesis Hsid : sid_good rec st n.
Variable m : nat.
Hypothesis Hm : m <= n.
Hypothesis Hpid : pid_good rec st m.

Lemma Node_parent_char (i : nat) (l1 l2 : dict value) :
  i < length (heap st) ->
  val_ok n (slot_of st i) -> _all st = l1 ++ l2 ->
  scan_ok n m (slot_of st i) l1 ->
  (l2 = [] \/ exists hk k v, In (hk, k, v) l1 /\
     matches st (hash_of st (slot_of st i)) (slot_of st i) hk k = true) ->
  Node_parent rec i st = Ok (parent_of st i) st.
Proof.
  intros Hi Hslot Hsplit Hscan Hex.
  destruct (nth_error_lt (heap st) i Hi) as [nd Hnd].
  unfold Node_parent. rewrite (bind_Ok _ _ _ _ _ (get_node_Ok st i nd Hnd)).
  assert (Es : slot_of st i = _parent nd) by (unfold slot_of; now rewrite Hnd).
  rewrite <- Es. unfold try_except, gets, dict_getitem.
  rewrite (bind_Ok _ _ st st (_all st)) by reflexivity.
  assert (Hfind : dict_find rec (_all st) (slot_of st i) st =
                  Ok (lookup_of st (_all st) (slot_of st i)) st)
    by exact (dict_find_char rec st n Hn Hsid m Hm Hpid (_all st) (slot_of st i)
                l1 l2 Hslot Hsplit Hscan Hex).
  rewrite (bind_Ok _ _ _ _ _ Hfind).
  unfold parent_of.
  destruct (lookup_of st (_all st) (slot_of st i)) as [idx|]; [|reflexivity].
  destruct (nth_error (_all st) idx) as [[[hk k] v]|]; reflexivity.
Qed.

Lemma Node_pid_of_parent (i : nat) (v : value) :
  Node_parent rec i st = Ok v st -> val_ok n v ->
  Node_pid rec i st = Ok (key_id st v) st.
Proof.
  intros Hp Hv. unfold Node_pid.
  rewrite (bind_Ok _ _ _ _ _ Hp).
  destruct v as [|b|j]; [reflexivity| |].
  - now rewrite !(bind_Ok _ _ _ _ _ Hp).
  - rewrite !(bind_Ok _ _ _ _ _ Hp). exact (Hsid j Hv).
Qed.

Lemma Node_pid_char (i : nat) (l1 l2 : dict value) :
  Forall (all_entry_ok n st) (_all st) ->
  i < length (heap st) ->
  val_ok n (slot_of st i) -> _all st = l1 ++ l2 ->
  scan_ok n m (slot_of st i) l1 ->
  (l2 = [] \/ exists hk k v, In (hk, k, v) l1 /\
     matches st (hash_of st (slot_of st i)) (slot_of st i) hk k = true) ->
  Node_pid rec i st = Ok (pid_of st i) st.
Proof.
  intros Hall Hi Hslot Hsplit Hscan Hex.
  pose proof (Node_parent_char i l1 l2 Hi Hslot Hsplit Hscan Hex) as Hp.
  destruct (parent_of_hash n st i Hall Hslot) as [Hh Hv].
  rewrite (Node_pid_of_parent i _ Hp Hv).
  unfold pid_of. f_equal. now apply hash_of_key_id.
Qed.

End Parent.

(** ** Enough fuel: more than the number of constructed nodes *)

Lemma heap_ok_node (n : nat) (st : state) (i : nat) :
  heap_ok n st -> i < n ->
  exists nd, nth_error (heap st) i = Some nd /\ node_ok st i nd.
Proof.
  intros [Hlen Hok] Hi.
  destruct (nth_error_lt (heap st) i) as [nd Hnd]; [lia|]. eauto.
Qed.

Lemma run_sid_good (n : nat) (st : state) (f : nat) :
  heap_ok n st -> sid_good (run (S f)) st n.
Proof.
  intros Hheap i Hi. destruct (heap_ok_node n st i Hheap Hi) as (nd & Hnd & Hok).
  cbn [run step o_sid]. unfold Node_sid.
  rewrite (bind_Ok _ _ _ _ _ (get_node_Ok st i nd Hnd)).
  destruct Hok as [(u & _ & Hs) _]. rewrite Hs.
  unfold sid_of. now rewrite Hnd, Hs.
Qed.

Lemma all_scan_ok (n m : nat) (st : state) (key : value) (l : dict value) :
  Forall (all_entry_ok n st) l ->
  (forall h j v, In (h, VNode j, v) l -> pair_below m (VNode j) key) ->
  scan_ok n m key l.
Proof.
  intros Hall Hp h k v Hin. rewrite Forall_forall in Hall.
  destruct (Hall _ Hin) as ((_ & Hk & _) & _). split; [exact Hk|].
  destruct k as [| |j]; try exact I. now apply (Hp h j v).
Qed.

Lemma run_pid_good (n : nat) (st : state) :
  heap_ok n st -> Forall (all_entry_ok n st) (_all st) ->
  forall i, i < n -> forall f, i < f ->
  o_pid (run (S f)) i st = Ok (pid_of st i) st.
Proof.
  intros Hheap Hall i. induction i as [i IH] using lt_wf_ind. intros Hi f Hf.
  destruct (heap_ok_node n st i Hheap Hi) as (nd & Hnd & Hok).
  destruct f as [|f']; [lia|].
  assert (Hn : n <= length (heap st)) by apply Hheap.
  assert (Hsid : sid_good (run (S f')) st n) by now apply run_sid_good.
  assert (Hpid : pid_good (run (S f')) st i).
  { intros j Hj. apply IH; lia. }
  assert (Hslot : slot_of st i = _parent nd) by (unfold slot_of; now rewrite Hnd).
  change (o_pid (run (S (S f'))) i) with (Node_pid (run (S f')) i).
  destruct Hok as [_ Hpar]. rewrite <- Hslot in Hpar.
  destruct (slot_of st i) as [|b|p] eqn:Es.
  - apply (Node_pid_char _ st n Hn Hsid i (Nat.lt_le_incl _ _ Hi) Hpid i
             (_all st) []); rewrite ?Es; auto; try exact I; try lia.
    + now rewrite app_nil_r.
    + apply (all_scan_ok n i st); [exact Hall|]. intros; exact I.
  - apply (Node_pid_char _ st n Hn Hsid i (Nat.lt_le_incl _ _ Hi) Hpid i
             (_all st) []); rewrite ?Es; auto; try exact I; try lia.
    + now rewrite app_nil_r.
    + apply (all_scan_ok n i st); [exact Hall|]. intros; exact I.
  - destruct Hpar as [Hp (l1 & l2 & Hsplit & Hle & (h & k & Hin & Hmat))].
    apply keys_split in Hsplit. destruct Hsplit as (d1 & d2 & Hsplit & <- & <-).
    apply in_keys in Hin. destruct Hin as [v Hin].
    apply (Node_pid_char _ st n Hn Hsid i (Nat.lt_le_incl _ _ Hi) Hpid i d1 d2);
      rewrite ?Es; auto; try lia.
    + simpl. lia.
    + apply (all_scan_ok n i st).
      * rewrite Hsplit in Hall. now apply Forall_app in Hall.
      * intros h' j v' Hin'. simpl.
        assert (j <= p) by (apply (Hle h'); apply in_keys; eauto). lia.
    + right. eauto.
Qed.

(** With more fuel than constructed nodes both entry points are good. *)
Lemma run_good (n : nat) (st : state) (f : nat) :
  heap_ok n st -> Forall (all_entry_ok n st) (_all st) -> n < f ->
  sid_good (run f) st n /\ pid_good (run f) st n.
Proof.
  intros Hheap Hall Hf. destruct f as [|f']; [lia|]. split.
  - now apply run_sid_good.
  - intros i Hi. apply (run_pid_good n st Hheap Hall i Hi). lia.
Qed.

(** * Frame: the closed forms depend on the constructed nodes only *)

Section Frame.

Variables (n : nat) (st st' : state).
Hypothesis Hag : agree n st st'.

Lemma agree_core (i : nat) :
  i < n -> sid_of st' i = sid_of st i /\ story_of st' i = story_of st i /\
           slot_of st' i = slot_of st i.
Proof.
  intros Hi. specialize (Hag i Hi). unfold sid_of, story_of, slot_of.
  destruct (nth_error (heap st') i) as [a|], (nth_error (heap st) i) as [b|];
    simpl in Hag; try discriminate; auto.
  unfold core in Hag. inversion Hag. rewrite H0, H1, H2. auto.
Qed.

Lemma agree_sid (i : nat) : i < n -> sid_of st' i = sid_of st i.
Proof. intros Hi. apply (agree_core i Hi). Qed.

Lemma agree_story (i : nat) : i < n -> story_of st' i = story_of st i.
Proof. intros Hi. apply (agree_core i Hi). Qed.

Lemma agree_slot (i : nat) : i < n -> slot_of st' i = slot_of st i.
Proof. intros Hi. apply (agree_core i Hi). Qed.

Lemma agree_key_id (v : value) : val_ok n v -> key_id st' v = key_id st v.
Proof. destruct v; simpl; auto. apply agree_sid. Qed.

Lemma agree_hash (v : value) : val_ok n v -> hash_of st' v = hash_of st v.
Proof. destruct v; simpl; auto. intros H. now rewrite agree_sid. Qed.

Hypothesis Hheap : heap_ok n st.

Lemma slot_ok (i : nat) : i < n -> val_ok i (slot_of st i).
Proof.
  intros Hi. destruct (heap_ok_node n st i Hheap Hi) as (nd & Hnd & _ & Hp).
  unfold slot_of. rewrite Hnd. destruct (_parent nd); simpl; auto. apply Hp.
Qed.

Lemma slot_ok_n (i : nat) : i < n -> val_ok n (slot_of st i).
Proof.
  intros Hi. pose proof (slot_ok i Hi) as H.
  destruct (slot_of st i); simpl in *; auto. lia.
Qed.

Lemma agree_pid (i : nat) : i < n -> pid_of st' i = pid_of st i.
Proof.
  intros Hi. unfold pid_of. rewrite agree_slot by exact Hi.
  apply agree_key_id. now apply slot_ok_n.
Qed.

Lemma agree_eq (a b : value) :
  val_ok n a -> val_ok n b -> eq_of st' a b = eq_of st a b.
Proof.
  destruct a as [|x|i], b as [|y|j]; simpl; intros Ha Hb; auto.
  - now rewrite agree_sid.
  - now rewrite agree_sid.
  - now rewrite !agree_pid, !agree_story.
Qed.

Lemma agree_matches (h : hashv) (key : value) (hk : hashv) (k : value) :
  val_ok n key -> val_ok n k ->
  matches st' h key hk k = matches st h key hk k.
Proof. intros H1 H2. unfold matches. now rewrite agree_eq. Qed.

Lemma agree_find (h : hashv) (key : value) (ks : list (hashv * value)) :
  val_ok n key -> keys_ok n ks ->
  forall idx, find_keys st' h key ks idx = find_keys st h key ks idx.
Proof.
  intros Hkey. induction ks as [|[hk k] ks IH]; intros Hks idx; [reflexivity|].
  cbn [find_keys]. rewrite agree_matches; auto.
  - rewrite IH; auto. intros hk' k' Hin. apply (Hks hk' k'). now right.
  - apply (Hks hk k). now left.
Qed.

Lemma agree_lookup {V} (d : dict V) (key : value) :
  val_ok n key -> keys_ok n (keys d) ->
  lookup_of st' d key = lookup_of st d key.
Proof.
  intros Hkey Hks. unfold lookup_of. rewrite agree_hash by exact Hkey.
  now apply agree_find.
Qed.

Lemma agree_covered (ks : list (hashv * value)) (p : nat) :
  p < n -> keys_ok n ks -> covered st ks p -> covered st' ks p.
Proof.
  intros Hp Hks (l1 & l2 & Hsplit & Hle & (h & k & Hin & Hm)).
  exists l1, l2. repeat split; auto. exists h, k. split; [exact Hin|].
  rewrite agree_hash by exact Hp. rewrite agree_matches; auto.
  apply (Hks h k). rewrite Hsplit. apply in_or_app. now left.
Qed.

End Frame.

Lemma covered_app (st : state) (ks ext : list (hashv * value)) (p : nat) :
  covered st ks p -> covered st (ks ++ ext) p.
Proof.
  intros (l1 & l2 & Hsplit & Hle & Hex). exists l1, (l2 ++ ext).
  rewrite Hsplit, app_assoc. auto.
Qed.

Lemma all_keys_ok (n : nat) (st : state) (d : dict value) :
  Forall (all_entry_ok n st) d -> keys_ok n (keys d).
Proof.
  intros Hall hk k Hin. apply in_keys in Hin. destruct Hin as [v Hin].
  rewrite Forall_forall in Hall. destruct (Hall _ Hin) as ((_ & Hk & _) & _).
  exact Hk.
Qed.

Lemma children_keys_ok (n : nat) (st : state) (d : dict weakset) :
  Forall (children_entry_ok n st) d -> keys_ok n (keys d).
Proof.
  intros Hall hk k Hin. apply in_keys in Hin. destruct Hin as [v Hin].
  rewrite Forall_forall in Hall. destruct (Hall _ Hin) as ((_ & Hk & _) & _).
  exact Hk.
Qed.

Lemma agree_refl (n : nat) (st : state) : agree n st st.
Proof. intros i _. reflexivity. Qed.

Lemma agree_trans (n : nat) (a b c : state) :
  agree n a b -> agree n b c -> agree n a c.
Proof. intros H1 H2 i Hi. now rewrite (H2 i Hi), (H1 i Hi). Qed.

Lemma agree_le (n m : nat) (a b : state) : m <= n -> agree n a b -> agree m a b.
Proof. intros Hle H i Hi. apply H. lia. Qed.

Lemma agree_length (n : nat) (st st' : state) :
  agree n st st' -> n <= length (heap st) -> n <= length (heap st').
Proof.
  intros Hag Hlen. destruct n as [|n]; [lia|].
  specialize (Hag n (Nat.lt_succ_diag_r n)).
  destruct (nth_error (heap st') n) eqn:E.
  - apply Nat.le_succ_l. apply nth_error_Some. congruence.
  - destruct (nth_error_lt (heap st) n Hlen) as [x Hx]. rewrite Hx in Hag.
    discriminate.
Qed.

(** A node stays well-formed when the constructed nodes are kept and the
    identity map only gains keys. *)
Lemma node_ok_frame (n : nat) (st st' : state) (i : nat) (nd : node)
  (ext : list (hashv * value)) :
  agree n st st' -> heap_ok n st -> keys_ok n (keys (_all st)) ->
  keys (_all st') = keys (_all st) ++ ext ->
  i < n -> node_ok st i nd -> node_ok st' i nd.
Proof.
  intros Hag Hheap Hks Hext Hi [(u & Hu & Hs) Hp]. split.
  - exists u. split; [exact Hu|]. rewrite Hs. do 3 f_equal.
    symmetry. apply (agree_key_id n st st' Hag).
    destruct (_parent nd); simpl; auto. destruct Hp. lia.
  - destruct (_parent nd) as [| |p]; auto. destruct Hp as [Hlt Hc].
    split; [exact Hlt|]. rewrite Hext. apply covered_app.
    apply (agree_covered n st st' Hag Hheap); auto. lia.
Qed.

Lemma heap_ok_frame (n : nat) (st st' : state) (ext : list (hashv * value)) :
  agree n st st' -> heap_ok n st -> keys_ok n (keys (_all st)) ->
  keys (_all st') = keys (_all st) ++ ext ->
  heap_ok n st'.
Proof.
  intros Hag Hheap Hks Hext. split.
  - apply (agree_length n st st' Hag). apply Hheap.
  - intros i nd Hi Hnd.
    destruct (heap_ok_node n st i Hheap Hi) as (nd0 & Hnd0 & Hok).
    apply (node_ok_frame n st st' i nd ext Hag Hheap Hks Hext Hi).
    pose proof (Hag i Hi) as Ec. rewrite Hnd, Hnd0 in Ec. simpl in Ec.
    unfold core in Ec. inversion Ec as [[E1 E2 E3]].
    unfold node_ok. rewrite E1, E2, E3. exact Hok.
Qed.

Lemma all_entry_ok_frame (n : nat) (st st' : state) (e : entry value) :
  agree n st st' -> all_entry_ok n st e -> all_entry_ok n st' e.
Proof.
  intros Hag. destruct e as [[h k] v]. intros ((Hk0 & Hk & Hh) & Hv0 & Hv & Hvh).
  repeat split; auto.
  - now rewrite (agree_hash n st st' Hag k Hk).
  - now rewrite (agree_hash n st st' Hag v Hv).
Qed.

Lemma member_ok_frame (n : nat) (st st' : state) (m : hashv * nat) :
  agree n st st' -> member_ok n st m -> member_ok n st' m.
Proof.
  intros Hag [Hm Hh]. split; [exact Hm|].
  now rewrite (agree_hash n st st' Hag (VNode (snd m)) Hm).
Qed.

Lemma children_entry_ok_frame (n : nat) (st st' : state) (e : entry weakset) :
  agree n st st' -> children_entry_ok n st e -> children_entry_ok n st' e.
Proof.
  intros Hag. destruct e as [[h k] ws]. intros ((Hk0 & Hk & Hh) & Hws).
  repeat split; auto.
  - now rewrite (agree_hash n st st' Hag k Hk).
  - eapply Forall_impl; [|exact Hws]. intros m. now apply member_ok_frame.
Qed.

Lemma distinct_frame (n : nat) (st st' : state) (ks : list (hashv * value)) :
  agree n st st' -> heap_ok n st -> keys_ok n ks ->
  distinct_keys st ks -> distinct_keys st' ks.
Proof.
  intros Hag Hheap. induction ks as [|[h k] ks IH]; intros Hks Hd; [exact I|].
  destruct Hd as [Hf Hd]. split.
  - rewrite Forall_forall in *. intros [h' k'] Hin. cbn [fst snd].
    rewrite (agree_matches n st st' Hag Hheap).
    + apply (Hf (h', k') Hin).
    + apply (Hks h' k'). now right.
    + apply (Hks h k). now left.
  - apply IH; auto. intros h' k' Hin. apply (Hks h' k'). now right.
Qed.

Lemma unique_frame (n : nat) (st st' : state) (d : dict value) :
  agree n st st' -> heap_ok n st -> keys_ok n (keys d) ->
  unique_ok st d -> unique_ok st' d.
Proof.
  intros Hag Hheap Hks [Hd Hv]. split; [|exact Hv].
  now apply (distinct_frame n st st').
Qed.

Lemma distinct_app (st : state) (ks : list (hashv * value)) (h : hashv) (key : value) :
  distinct_keys st ks ->
  (forall hk k, In (hk, k) ks -> matches st h key hk k = false) ->
  distinct_keys st (ks ++ [(h, key)]).
Proof.
  induction ks as [|[hk k] ks IH]; intros Hd Hno.
  - simpl. auto.
  - destruct Hd as [Hf Hd]. simpl. split.
    + apply Forall_app. split; [exact Hf|]. constructor; [|constructor].
      cbn [fst snd]. apply Hno. now left.
    + apply IH; auto. intros hk' k' Hin. apply Hno. now right.
Qed.

Lemma unique_app (st : state) (d : dict value) (key v : value) :
  unique_ok st d -> lookup_of st d key = None ->
  value_ok (hash_of st key, key, v) ->
  unique_ok st (d ++ [(hash_of st key, key, v)]).
Proof.
  intros [Hd Hv] Hl Hnew. split.
  - rewrite keys_app. apply distinct_app; [exact Hd|].
    intros hk k Hin. unfold lookup_of in Hl.
    apply (find_keys_None st _ _ _ _ Hl hk k Hin).
  - apply Forall_app. split; [exact Hv|]. now constructor.
Qed.

(** The invariant does not depend on anything but the constructed nodes
    and the two dictionaries. *)
Lemma registry_ok_frame (n : nat) (st st' : state) :
  registry_ok n st -> agree n st st' ->
  _all st' = _all st -> _children st' = _children st ->
  registry_ok n st'.
Proof.
  intros [Hheap Hall Hch Hkeys Hcov Huniq] Hag Ea Ec.
  pose proof (all_keys_ok n st _ Hall) as Hks.
  constructor.
  - apply (heap_ok_frame n st st' [] Hag Hheap Hks).
    now rewrite Ea, app_nil_r.
  - rewrite Ea. eapply Forall_impl; [|exact Hall].
    intros e. now apply all_entry_ok_frame.
  - rewrite Ec. eapply Forall_impl; [|exact Hch].
    intros e. now apply children_entry_ok_frame.
  - now rewrite Ea, Ec.
  - intros p Hp. rewrite Ea.
    apply (agree_covered n st st' Hag Hheap); auto.
  - rewrite Ea. now apply (unique_frame n st st').
Qed.

(** ** The methods on a well-formed registry *)

Section Public.

Variables (n : nat) (st : state) (f : nat).
Hypothesis Hheap : heap_ok n st.
Hypothesis Hall : Forall (all_entry_ok n st) (_all st).
Hypothesis Hf : n < f.

Lemma reg_good : n <= length (heap st) /\ sid_good (run f) st n /\
                 pid_good (run f) st n.
Proof. split; [apply Hheap|]. now apply run_good. Qed.

Lemma char_hash (v : value) :
  val_ok n v -> py_hash (run f) v st = Ok (hash_of st v) st.
Proof.
  destruct reg_good as (Hn & Hsid & Hpid). now apply py_hash_char.
Qed.

Lemma char_eq (a b : value) :
  val_ok n a -> val_ok n b -> py_eq (run f) a b st = Ok (eq_of st a b) st.
Proof.
  destruct reg_good as (Hn & Hsid & Hpid). intros Ha Hb.
  apply (py_eq_char (run f) st n Hn Hsid n (le_n n) Hpid a b Ha Hb).
  destruct a, b; simpl in *; auto.
Qed.

Lemma keys_scan_ok {V} (key : value) (d : dict V) :
  val_ok n key -> keys_ok n (keys d) -> scan_ok n n key d.
Proof.
  intros Hkey Hks h k v Hin.
  assert (Hk : val_ok n k) by (apply (Hks h k); apply in_keys; eauto).
  split; [exact Hk|]. destruct k, key; simpl in *; auto.
Qed.

Lemma char_find {V} (d : dict V) (key : value) :
  val_ok n key -> keys_ok n (keys d) ->
  dict_find (run f) d key st = Ok (lookup_of st d key) st.
Proof.
  destruct reg_good as (Hn & Hsid & Hpid). intros Hkey Hks.
  apply (dict_find_char (run f) st n Hn Hsid n (le_n n) Hpid d key d []); auto.
  - now rewrite app_nil_r.
  - now apply keys_scan_ok.
Qed.

Lemma char_contains {V} (d : dict V) (key : value) :
  val_ok n key -> keys_ok n (keys d) ->
  dict_contains (run f) d key st = Ok (contains_of st d key) st.
Proof.
  intros Hkey Hks. unfold dict_contains, contains_of.
  rewrite (bind_Ok _ _ _ _ _ (char_find d key Hkey Hks)).
  now destruct (lookup_of st d key).
Qed.

Lemma char_setitem {V} (d : dict V) (key : value) (v : V) :
  val_ok n key -> keys_ok n (keys d) ->
  dict_setitem (run f) d key v st = Ok (setitem_of st d key v) st.
Proof.
  destruct reg_good as (Hn & Hsid & Hpid). intros Hkey Hks.
  unfold dict_setitem, setitem_of.
  rewrite (bind_Ok _ _ _ _ _ (char_hash key Hkey)).
  pose proof (lookup_from_char (run f) st n Hn Hsid n (le_n n) Hpid
                (hash_of st key) key Hkey d [] 0 (keys_scan_ok key d Hkey Hks)
                (or_introl eq_refl)) as Hl.
  rewrite app_nil_r in Hl. rewrite (bind_Ok _ _ _ _ _ Hl).
  unfold lookup_of. now destruct (find_keys _ _ _ _ _).
Qed.

Lemma char_sid (i : nat) : i < n -> Node_sid (run f) i st = Ok (sid_of st i) st.
Proof.
  intros Hi. destruct (heap_ok_node n st i Hheap Hi) as (nd & Hnd & Hok).
  unfold Node_sid. rewrite (bind_Ok _ _ _ _ _ (get_node_Ok st i nd Hnd)).
  destruct Hok as [(u & _ & Hs) _]. rewrite Hs.
  unfold sid_of. now rewrite Hnd, Hs.
Qed.

(** [Node.parent] and [Node.pid] of any object whose parent slot holds a
    constructed node, bytes or [None]. *)
Lemma char_parent (i : nat) :
  i < length (heap st) -> val_ok n (slot_of st i) ->
  Node_parent (run f) i st = Ok (parent_of st i) st.
Proof.
  destruct reg_good as (Hn & Hsid & Hpid). intros Hi Hslot.
  apply (Node_parent_char (run f) st n Hn Hsid n (le_n n) Hpid i (_all st) []);
    auto.
  - now rewrite app_nil_r.
  - apply keys_scan_ok; [exact Hslot|]. now apply (all_keys_ok n st).
Qed.

Lemma char_pid (i : nat) :
  i < length (heap st) -> val_ok n (slot_of st i) ->
  Node_pid (run f) i st = Ok (pid_of st i) st.
Proof.
  destruct reg_good as (Hn & Hsid & Hpid). intros Hi Hslot.
  apply (Node_pid_char (run f) st n Hn Hsid n (le_n n) Hpid i (_all st) []);
    auto.
  - now rewrite app_nil_r.
  - apply keys_scan_ok; [exact Hslot|]. now apply (all_keys_ok n st).
Qed.

End Public.

(** * Construction keeps the registry well-formed *)

Lemma upd_length {A} (l : list A) (i : nat) (g : A -> A) :
  length (upd l i g) = length l.
Proof.
  revert i. induction l as [|x l IH]; intros [|i]; simpl; auto.
Qed.

Lemma nth_error_upd_eq {A} (l : list A) (i : nat) (g : A -> A) :
  nth_error (upd l i g) i = option_map g (nth_error l i).
Proof.
  revert i. induction l as [|x l IH]; intros [|i]; simpl; auto.
Qed.

Lemma nth_error_upd_neq {A} (l : list A) (i j : nat) (g : A -> A) :
  i <> j -> nth_error (upd l i g) j = nth_error l j.
Proof.
  revert i j. induction l as [|x l IH]; intros [|i] [|j] H; simpl; auto; try lia.
Qed.

Lemma keys_upd {V} (d : dict V) (i : nat) (v : V) :
  keys (upd d i (fun e => (fst e, v))) = keys d.
Proof.
  revert i. induction d as [|x d IH]; intros [|i]; simpl; auto.
  now rewrite IH.
Qed.

Lemma In_upd {A} (l : list A) (i : nat) (g : A -> A) (y : A) :
  In y (upd l i g) -> In y l \/ exists x, nth_error l i = Some x /\ y = g x.
Proof.
  revert i. induction l as [|x l IH]; intros [|i] H; simpl in *; auto.
  - destruct H as [H|H]; eauto.
  - destruct H as [H|H]; auto. destruct (IH i H) as [H'|H']; auto.
Qed.

Lemma val_ok_S (n : nat) (v : value) : val_ok n v -> val_ok (S n) v.
Proof. destruct v; simpl; auto. Qed.

Lemma val_ok_le (n m : nat) (v : value) : n <= m -> val_ok n v -> val_ok m v.
Proof. destruct v; simpl; auto. lia. Qed.

Lemma all_entry_ok_S (n : nat) (st : state) (e : entry value) :
  all_entry_ok n st e -> all_entry_ok (S n) st e.
Proof.
  destruct e as [[h k] v]. intros ((Hk0 & Hk & Hh) & Hv0 & Hv & Hvh).
  repeat split; auto using val_ok_S.
Qed.

Lemma children_entry_ok_S (n : nat) (st : state) (e : entry weakset) :
  children_entry_ok n st e -> children_entry_ok (S n) st e.
Proof.
  destruct e as [[h k] ws]. intros ((Hk0 & Hk & Hh) & Hws).
  repeat split; auto using val_ok_S.
  eapply Forall_impl; [|exact Hws]. intros m [Hm Hmh]. split; auto.
Qed.

Lemma heap_ok_le (n m : nat) (st : state) : m <= n -> heap_ok n st -> heap_ok m st.
Proof.
  intros Hle [Hlen Hok]. split; [lia|]. intros i nd Hi. apply Hok. lia.
Qed.

Lemma matches_refl (st : state) (v : value) :
  v <> VNone -> matches st (hash_of st v) v (hash_of st v) v = true.
Proof.
  intros Hv. unfold matches. destruct v as [|b|i]; [congruence| |].
  - simpl. now rewrite !bytes_eqb_refl.
  - simpl. now rewrite Nat.eqb_refl.
Qed.

(** ** Allocation *)

Lemma alloc_agree (st : state) (nd : node) :
  agree (length (heap st)) st (set_heap (heap st ++ [nd]) st).
Proof.
  intros i Hi. simpl. now rewrite nth_error_app1.
Qed.

Lemma alloc_registry (st : state) (nd : node) :
  Inv st -> registry_ok (length (heap st)) (set_heap (heap st ++ [nd]) st).
Proof.
  intros H. apply (registry_ok_frame _ st); auto. apply alloc_agree.
Qed.

Lemma alloc_nth (st : state) (nd : node) :
  nth_error (heap (set_heap (heap st ++ [nd]) st)) (length (heap st)) = Some nd.
Proof.
  simpl. rewrite nth_error_app2, Nat.sub_diag; auto.
Qed.

(** ** The first read of the sid of a new object *)

Section Fresh.

Variables (n : nat) (st : state) (f : nat) (nd : node) (u : bytes).
Hypothesis Hreg : registry_ok n st.
Hypothesis Hf : n < f.
Hypothesis Hnd : nth_error (heap st) n = Some nd.
Hypothesis Hfresh : _sid nd = None.
Hypothesis Hpar : val_ok n (_parent nd).
Hypothesis Hu : UTF8.encode (_story nd) = Some u.

Lemma fresh_slot : slot_of st n = _parent nd.
Proof. unfold slot_of. now rewrite Hnd. Qed.

Lemma fresh_lt : n < length (heap st).
Proof. apply nth_error_Some. congruence. Qed.

Lemma fresh_pid : Node_pid (run f) n st = Ok (key_id st (_parent nd)) st.
Proof.
  destruct Hreg as [Hheap Hall _ _ _ _].
  rewrite (char_pid n st f Hheap Hall Hf n fresh_lt).
  - unfold pid_of. now rewrite fresh_slot.
  - now rewrite fresh_slot.
Qed.

Lemma fresh_sid :
  Node_sid (run f) n st = Ok (fresh_digest st nd u) (with_sid n (fresh_digest st nd u) st).
Proof.
  unfold Node_sid. rewrite (bind_Ok _ _ _ _ _ (get_node_Ok st n nd Hnd)).
  rewrite Hfresh, (bind_Ok _ _ _ _ _ fresh_pid), Hu.
  fold (fresh_digest st nd u). unfold fresh_digest at 1.
  rewrite q_hash_length, Nat.eqb_refl. reflexivity.
Qed.

Lemma fresh_hash :
  py_hash (run (S f)) (VNode n) st =
  Ok (HBytes (fresh_digest st nd u)) (with_sid n (fresh_digest st nd u) st).
Proof.
  unfold py_hash. cbn [run step o_sid].
  now rewrite (bind_Ok _ _ _ _ _ fresh_sid).
Qed.

Lemma with_sid_agree : agree n st (with_sid n (fresh_digest st nd u) st).
Proof.
  intros i Hi. simpl. rewrite nth_error_upd_neq by lia. reflexivity.
Qed.

Lemma with_sid_nth :
  nth_error (heap (with_sid n (fresh_digest st nd u) st)) n =
  Some (mkNode (_story nd) (_parent nd) (Some (fresh_digest st nd u)) (_bytes nd)).
Proof. simpl. now rewrite nth_error_upd_eq, Hnd. Qed.

Lemma with_sid_registry : registry_ok n (with_sid n (fresh_digest st nd u) st).
Proof. apply (registry_ok_frame n st); auto. apply with_sid_agree. Qed.

Lemma with_sid_pending : pending n (with_sid n (fresh_digest st nd u) st).
Proof.
  pose proof with_sid_registry as [Hheap Hall Hch Hkeys Hcov Huniq].
  constructor; auto.
  - split.
    + simpl. rewrite upd_length. apply fresh_lt.
    + intros i x Hi Hx. destruct (Nat.eq_dec i n) as [->|Hne].
      * rewrite with_sid_nth in Hx. inversion Hx; subst x. split; simpl.
        -- exists u. split; [exact Hu|]. unfold fresh_digest. do 3 f_equal.
           symmetry. now apply (agree_key_id n st _ with_sid_agree).
        -- destruct (_parent nd) as [| |p]; auto.
      * apply Hheap; auto. lia.
  - eapply Forall_impl; [|exact Hch]. apply children_entry_ok_S.
  - now apply (children_keys_ok n (with_sid n (fresh_digest st nd u) st)).
Qed.

End Fresh.

Lemma agree_same_heap (n : nat) (st st' : state) :
  heap st' = heap st -> agree n st st'.
Proof. intros H i _. now rewrite H. Qed.

Lemma contains_keys {V W} (st : state) (d : dict V) (d' : dict W) (key : value) :
  keys d = keys d' -> contains_of st d key = contains_of st d' key.
Proof. intros H. unfold contains_of, lookup_of. now rewrite H. Qed.

(** ** "register parent if it exists" *)

Section RegisterParent.

Variables (n : nat) (st : state) (f : nat) (parent : value).
Hypothesis Hreg : registry_ok n st.
Hypothesis Hf : n < f.
Hypothesis Hp0 : parent <> VNone.
Hypothesis Hp : val_ok n parent.

Let h := hash_of st parent.
Let st_a := set_all (_all st ++ [(h, parent, parent)]) st.

Lemma new_all_entry_ok : all_entry_ok n st (h, parent, parent).
Proof. repeat split; auto. Qed.

Lemma register_parent_registry : registry_ok n (registered_parent st parent).
Proof.
  unfold registered_parent.
  destruct (contains_of st (_all st) parent) eqn:Econt; [exact Hreg|].
  destruct Hreg as [Hheap Hall Hch Hkeys Hcov Huniq]. constructor; simpl.
  - apply (heap_ok_frame n st _ [(h, parent)]); auto.
    + now apply agree_same_heap.
    + now apply (all_keys_ok n st).
    + simpl. apply keys_app.
  - apply Forall_app. split; [exact Hall|].
    constructor; [|constructor]. apply new_all_entry_ok.
  - apply Forall_app. split; [exact Hch|].
    constructor; [|constructor]. repeat split; auto.
  - now rewrite !keys_app, Hkeys.
  - intros p Hlt. rewrite keys_app. apply covered_app. now apply Hcov.
  - eapply (unique_frame n st); [now apply agree_same_heap|exact Hheap| |].
    + rewrite keys_app. intros hk k Hin. apply in_app_or in Hin.
      destruct Hin as [Hin|[E|[]]].
      * now apply (all_keys_ok n st _ Hall hk k).
      * inversion E; subst. exact Hp.
    + apply unique_app; auto.
      * unfold contains_of in Econt. now destruct (lookup_of st (_all st) parent).
      * unfold value_ok. cbn [fst snd]. now destruct parent.
Qed.

Lemma register_parent_contains :
  contains_of st (_all (registered_parent st parent)) parent = true.
Proof.
  unfold registered_parent.
  destruct (contains_of st (_all st) parent) eqn:E; [exact E|].
  cbn [_all set_children set_all]. unfold contains_of, lookup_of.
  destruct (find_keys_exists st (hash_of st parent) parent
              (keys (_all st ++ [(h, parent, parent)])) h parent) with (idx0 := 0)
    as [idx Hidx].
  - rewrite keys_app. apply in_or_app. right. now left.
  - now apply matches_refl.
  - unfold h in Hidx. now rewrite Hidx.
Qed.

Lemma register_parent_eval :
  register_parent (run f) parent st = Ok tt (registered_parent st parent).
Proof.
  destruct Hreg as [Hheap Hall Hch Hkeys Hcov Huniq].
  pose proof (all_keys_ok n st _ Hall) as Hka.
  pose proof (children_keys_ok n st _ Hch) as Hkc.
  unfold register_parent, registered_parent, gets.
  rewrite (bind_Ok _ _ st st (_all st)) by reflexivity.
  rewrite (bind_Ok _ _ _ _ _ (char_contains n st f Hheap Hall Hf _ parent Hp Hka)).
  rewrite (bind_Ok _ _ st st (_children st)) by reflexivity.
  rewrite (bind_Ok _ _ _ _ _ (char_contains n st f Hheap Hall Hf _ parent Hp Hkc)).
  rewrite <- (contains_keys st (_all st) (_children st) parent Hkeys).
  destruct (contains_of st (_all st) parent) eqn:E; [reflexivity|].
  cbn [negb andb].
  rewrite (bind_Ok _ _ st st (_all st)) by reflexivity.
  rewrite (bind_Ok _ _ _ _ _ (char_setitem n st f Hheap Hall Hf _ parent parent Hp Hka)).
  assert (Ea : setitem_of st (_all st) parent parent = _all st ++ [(h, parent, parent)]).
  { unfold setitem_of. unfold contains_of in E.
    now destruct (lookup_of st (_all st) parent). }
  rewrite Ea. unfold modify at 1.
  rewrite (bind_Ok _ _ st st_a tt) by reflexivity.
  rewrite (bind_Ok _ _ st_a st_a (_children st)) by reflexivity.
  assert (Hheap_a : heap_ok n st_a).
  { apply (heap_ok_frame n st _ [(h, parent)]); auto.
    - now apply agree_same_heap.
    - simpl. apply keys_app. }
  assert (Hall_a : Forall (all_entry_ok n st_a) (_all st_a)).
  { simpl. apply Forall_app. split; [exact Hall|].
    constructor; [|constructor]. apply new_all_entry_ok. }
  rewrite (bind_Ok _ _ _ _ _
             (char_setitem n st_a f Hheap_a Hall_a Hf (_children st) parent [] Hp Hkc)).
  assert (Ec : setitem_of st_a (_children st) parent ([] : weakset) =
               _children st ++ [(h, parent, [])]).
  { unfold setitem_of.
    rewrite (agree_lookup n st st_a (agree_same_heap n st st_a eq_refl) Hheap
               (_children st) parent Hp Hkc).
    replace (hash_of st_a parent) with h
      by (symmetry; apply (agree_hash n st st_a (agree_same_heap n st st_a eq_refl)
                             parent Hp)).
    unfold contains_of in E. unfold lookup_of in *. rewrite <- Hkeys.
    now destruct (find_keys st (hash_of st parent) parent (keys (_all st)) 0). }
  rewrite Ec. reflexivity.
Qed.

End RegisterParent.

(** ** [self._children[key].add(item)] *)

Lemma Forall_upd {A} (P : A -> Prop) (l : list A) (i : nat) (g : A -> A) :
  Forall P l -> (forall x, nth_error l i = Some x -> P x -> P (g x)) ->
  Forall P (upd l i g).
Proof.
  revert i. induction l as [|x l IH]; intros i Hall Hg; [destruct i; exact Hall|].
  inversion Hall; subst. destruct i as [|i]; simpl.
  - constructor; auto.
  - constructor; auto.
Qed.

Section ChildrenAdd.

Variables (N : nat) (sa s3 : state) (f : nat) (key : value) (item : nat).
Variables (h : hashv) (i : nat) (hk : hashv) (k : value) (ws : weakset).
Hypothesis Hheap : heap_ok N s3.
Hypothesis Hall : Forall (all_entry_ok N s3) (_all s3).
Hypothesis Hch : Forall (children_entry_ok N s3) (_children s3).
Hypothesis Hf : N < f.
Hypothesis Hitem : item < N.
Hypothesis Hh : h = hash_of s3 (VNode item).
Hypothesis Hhash : py_hash (run f) (VNode item) sa = Ok h s3.
Hypothesis Hsame : _children sa = _children s3.
Hypothesis Hfind : dict_find (run f) (_children sa) key sa = Ok (Some i) sa.
Hypothesis Hnth : nth_error (_children sa) i = Some (hk, k, ws).

Lemma weakset_mem_char (l : weakset) :
  Forall (member_ok N s3) l ->
  weakset_mem (run f) h item l s3 = Ok (weakset_mem_of s3 h item l) s3.
Proof.
  induction l as [|[hm m] l IH]; intros Hl; [reflexivity|].
  inversion Hl as [|x y [Hm Hhm] Hl']; subst. simpl in Hm.
  cbn [weakset_mem]. unfold weakset_mem_of. cbn [existsb fst snd].
  fold (weakset_mem_of s3 (hash_of s3 (VNode item)) item l).
  destruct (hashv_eqb hm (hash_of s3 (VNode item))); cbn [andb orb].
  - rewrite (bind_Ok _ _ _ _ _
               (char_eq N s3 f Hheap Hall Hf (VNode m) (VNode item) Hm Hitem)).
    destruct (eq_of s3 (VNode m) (VNode item)); cbn [orb]; auto.
  - auto.
Qed.

Lemma entry_members_ok : Forall (member_ok N s3) ws.
Proof.
  rewrite Hsame in Hnth. rewrite Forall_forall in Hch.
  apply (Hch _ (nth_error_In _ _ Hnth)).
Qed.

Lemma children_add_eval :
  children_add (run f) key item sa = Ok tt (added_state s3 item h i ws).
Proof.
  unfold children_add, gets.
  rewrite (bind_Ok _ _ sa sa (_children sa)) by reflexivity.
  rewrite (bind_Ok _ _ _ _ _ Hfind), Hnth.
  assert (Hadd : weakset_add (run f) ws item sa = Ok (added_set s3 item h ws) s3).
  { unfold weakset_add. rewrite (bind_Ok _ _ _ _ _ Hhash).
    rewrite (bind_Ok _ _ _ _ _ (weakset_mem_char ws entry_members_ok)).
    unfold added_set. destruct (weakset_mem_of s3 h item ws); reflexivity. }
  rewrite (bind_Ok _ _ _ _ _ Hadd). reflexivity.
Qed.

Lemma added_children_ok :
  Forall (children_entry_ok N (added_state s3 item h i ws)) (_children (added_state s3 item h i ws)).
Proof.
  assert (Hag : agree N s3 (added_state s3 item h i ws)) by now apply agree_same_heap.
  unfold added_state at 2. cbn [_children set_children].
  apply Forall_upd.
  - eapply Forall_impl; [|exact Hch].
    intros e. now apply children_entry_ok_frame.
  - intros [[h' k'] ws0] Hx. rewrite <- Hsame, Hnth in Hx.
    inversion Hx; subst h' k' ws0. intros ((Hk0 & Hk & Hkh) & _). cbn [fst].
    rewrite Forall_forall in Hch. rewrite Hsame in Hnth.
    destruct (Hch _ (nth_error_In _ _ Hnth)) as [_ Hws].
    split; [repeat split; auto|].
    assert (Hold : Forall (member_ok N (added_state s3 item h i ws)) ws).
    { eapply Forall_impl; [|exact Hws]. intros m. now apply member_ok_frame. }
    unfold added_set. destruct (weakset_mem_of s3 h item ws); [exact Hold|].
    apply Forall_app. split; [exact Hold|]. constructor; [|constructor].
    split; [exact Hitem|]. cbn [fst snd].
    etransitivity; [exact Hh|]. symmetry.
    now apply (agree_hash N s3 (added_state s3 item h i ws) Hag).
Qed.

End ChildrenAdd.

(** ** "register node" *)

Lemma dict_setitem_shift {V} (rec : ops) (d : dict V) (key : value) (v : V)
  (sa s3 : state) (h : hashv) :
  py_hash rec key sa = Ok h s3 -> py_hash rec key s3 = Ok h s3 ->
  dict_setitem rec d key v sa = dict_setitem rec d key v s3.
Proof.
  intros H1 H2. unfold dict_setitem.
  now rewrite (bind_Ok _ _ _ _ _ H1), (bind_Ok _ _ _ _ _ H2).
Qed.

Lemma keys_setitem {V} (st : state) (d : dict V) (key : value) (v : V) :
  keys (setitem_of st d key v) =
  keys d ++ (if contains_of st d key then [] else [(hash_of st key, key)]).
Proof.
  unfold setitem_of, contains_of. destruct (lookup_of st d key).
  - now rewrite keys_upd, app_nil_r.
  - apply keys_app.
Qed.

Lemma keys_ok_le (n m : nat) (ks : list (hashv * value)) :
  n <= m -> keys_ok n ks -> keys_ok m ks.
Proof.
  intros Hle H hk k Hin. specialize (H hk k Hin). destruct k; auto. lia.
Qed.

Section Pending.

Variables (n : nat) (s3 : state).
Hypothesis Hpend : pending n s3.

Lemma rn_heap : heap_ok (S n) s3.
Proof. apply Hpend. Qed.

Lemma rn_all : Forall (all_entry_ok (S n) s3) (_all s3).
Proof.
  eapply Forall_impl; [|apply Hpend]. apply all_entry_ok_S.
Qed.

Lemma rn_keys_ok : keys_ok (S n) (keys (_all s3)).
Proof. apply (all_keys_ok (S n) s3). apply rn_all. Qed.

Lemma rn_ckeys_ok : keys_ok (S n) (keys (_children s3)).
Proof. apply (keys_ok_le n); [lia|]. apply Hpend. Qed.

Lemma rn_all' :
  Forall (all_entry_ok (S n) s3) (setitem_of s3 (_all s3) (VNode n) (VNode n)).
Proof.
  unfold setitem_of.
  destruct (lookup_of s3 (_all s3) (VNode n)) as [i|] eqn:E.
  - apply Forall_upd; [apply rn_all|].
    intros [[hk k] v] Hx ((Hk0 & Hk & Hkh) & _). cbn [fst].
    split; [repeat split; auto|]. split; [discriminate|].
    split; [simpl; lia|]. simpl. unfold lookup_of in E.
    apply find_keys_Some in E. destruct E as (hk' & k' & Hn' & Hm & _).
    rewrite Nat.sub_0_r in Hn'. apply nth_error_keys in Hn'.
    destruct Hn' as [v' Hn']. rewrite Hx in Hn'. inversion Hn'; subst hk' k' v'.
    unfold matches in Hm. apply orb_true_iff in Hm. destruct Hm as [Hm|Hm].
    + apply value_is_true in Hm. now subst k.
    + apply andb_true_iff in Hm. destruct Hm as [Hm _].
      apply hashv_eqb_eq in Hm. now subst hk.
  - apply Forall_app. split; [apply rn_all|].
    constructor; [|constructor].
    split; [split; [discriminate|split; [simpl; lia|reflexivity]]|].
    split; [discriminate|]. split; [simpl; lia|reflexivity].
Qed.

End Pending.

Section RegisterNode.

Variables (n : nat) (sa s3 : state) (f : nat).
Hypothesis Hpend : pending n s3.
Hypothesis Hf : S n < f.
Hypothesis Hhash : py_hash (run f) (VNode n) sa = Ok (hash_of s3 (VNode n)) s3.
Hypothesis Hall_same : _all sa = _all s3.

Let h := hash_of s3 (VNode n).
Let d' := setitem_of s3 (_all s3) (VNode n) (VNode n).
Let s5 := set_all d' s3.
Let s6 := registered_node s3 n.

Lemma rn_agree5 : agree (S n) s3 s5.
Proof. now apply agree_same_heap. Qed.

Lemma rn_agree6 : agree (S n) s3 s6.
Proof. now apply agree_same_heap. Qed.

Lemma rn_heap5 : heap_ok (S n) s5.
Proof.
  eapply (heap_ok_frame (S n) s3 s5 _ rn_agree5 (rn_heap n s3 Hpend) (rn_keys_ok n s3 Hpend)).
  unfold s5. cbn [_all set_all]. apply keys_setitem.
Qed.

Lemma rn_all5 : Forall (all_entry_ok (S n) s5) (_all s5).
Proof.
  eapply Forall_impl; [|apply (rn_all' n s3 Hpend)].
  intros e. apply all_entry_ok_frame. apply rn_agree5.
Qed.

Lemma rn_contains5 :
  contains_of s5 (_children s3) (VNode n) = contains_of s3 (_children s3) (VNode n).
Proof.
  unfold contains_of.
  assert (Hn : val_ok (S n) (VNode n)) by (simpl; lia).
  now rewrite (agree_lookup (S n) s3 s5 rn_agree5 (rn_heap n s3 Hpend) (_children s3) (VNode n)
                 Hn (rn_ckeys_ok n s3 Hpend)).
Qed.

Lemma register_node_eval :
  register_node (run f) n sa = Ok tt s6.
Proof.
  assert (Hn : val_ok (S n) (VNode n)) by (simpl; lia).
  unfold register_node, gets.
  rewrite (bind_Ok _ _ sa sa (_all sa)) by reflexivity. rewrite Hall_same.
  assert (Hset : dict_setitem (run f) (_all s3) (VNode n) (VNode n) sa = Ok d' s3).
  { rewrite (dict_setitem_shift (run f) (_all s3) (VNode n) (VNode n) sa s3 h Hhash
               (char_hash (S n) s3 f (rn_heap n s3 Hpend) (rn_all n s3 Hpend) Hf (VNode n) Hn)).
    apply (char_setitem (S n) s3 f (rn_heap n s3 Hpend) (rn_all n s3 Hpend) Hf _ (VNode n) (VNode n) Hn
             (rn_keys_ok n s3 Hpend)). }
  rewrite (bind_Ok _ _ _ _ _ Hset). unfold modify at 1.
  rewrite (bind_Ok _ _ s3 s5 tt) by reflexivity.
  rewrite (bind_Ok _ _ s5 s5 (_children s3)) by reflexivity.
  rewrite (bind_Ok _ _ _ _ _
             (char_contains (S n) s5 f rn_heap5 rn_all5 Hf (_children s3) (VNode n)
                Hn (rn_ckeys_ok n s3 Hpend))).
  rewrite rn_contains5. unfold s6, registered_node. fold d'.
  destruct (contains_of s3 (_children s3) (VNode n)) eqn:E; [reflexivity|].
  cbn [negb].
  rewrite (bind_Ok _ _ s5 s5 (_children s3)) by reflexivity.
  rewrite (bind_Ok _ _ _ _ _
             (char_setitem (S n) s5 f rn_heap5 rn_all5 Hf (_children s3) (VNode n)
                ([] : weakset) Hn (rn_ckeys_ok n s3 Hpend))).
  unfold setitem_of.
  rewrite (agree_lookup (S n) s3 s5 rn_agree5 (rn_heap n s3 Hpend) (_children s3) (VNode n) Hn
             (rn_ckeys_ok n s3 Hpend)).
  rewrite (agree_hash (S n) s3 s5 rn_agree5 (VNode n) Hn).
  unfold contains_of in E.
  destruct (lookup_of s3 (_children s3) (VNode n)); [discriminate|]. reflexivity.
Qed.

End RegisterNode.

Section RegisteredNode.

Variables (n : nat) (s3 : state).
Hypothesis Hpend : pending n s3.

Let s6 := registered_node s3 n.

Lemma rg_agree : agree (S n) s3 s6.
Proof. now apply agree_same_heap. Qed.

Lemma rg_keys_all :
  keys (_all s6) =
  keys (_all s3) ++
  (if contains_of s3 (_all s3) (VNode n) then [] else [(hash_of s3 (VNode n), (VNode n))]).
Proof. unfold s6, registered_node. cbn [_all]. apply keys_setitem. Qed.

Lemma rg_keys_children :
  keys (_children s6) =
  keys (_children s3) ++
  (if contains_of s3 (_all s3) (VNode n) then [] else [(hash_of s3 (VNode n), (VNode n))]).
Proof.
  unfold s6, registered_node. cbn [_children].
  rewrite (contains_keys s3 (_all s3) (_children s3) (VNode n)) by apply Hpend.
  destruct (contains_of s3 (_children s3) (VNode n)).
  - now rewrite app_nil_r.
  - apply keys_app.
Qed.

Lemma rg_covered_self : covered s6 (keys (_all s6)) n.
Proof.
  assert (Hn : val_ok (S n) (VNode n)) by (simpl; lia).
  rewrite rg_keys_all. exists
    (keys (_all s3) ++
     (if contains_of s3 (_all s3) (VNode n) then [] else [(hash_of s3 (VNode n), (VNode n))])), [].
  split; [now rewrite app_nil_r|]. split.
  - intros h j Hin. apply in_app_or in Hin. destruct Hin as [Hin|Hin].
    + pose proof (all_keys_ok n s3 _ (p_all Hpend) h (VNode j) Hin) as Hj.
      simpl in Hj. lia.
    + destruct (contains_of s3 (_all s3) (VNode n)); [destruct Hin|].
      destruct Hin as [E|[]]. inversion E. lia.
  - rewrite (agree_hash (S n) s3 s6 rg_agree (VNode n) Hn).
    unfold contains_of, lookup_of.
    destruct (find_keys s3 (hash_of s3 (VNode n)) (VNode n) (keys (_all s3)) 0) as [i|] eqn:E.
    + apply find_keys_Some in E. destruct E as (hk & k & Hnth & Hm & _).
      exists hk, k. split.
      * apply in_or_app. left. eapply nth_error_In. exact Hnth.
      * rewrite (agree_matches (S n) s3 s6 rg_agree (rn_heap n s3 Hpend)); auto.
        apply (rn_keys_ok n s3 Hpend hk k). eapply nth_error_In. exact Hnth.
    + exists (hash_of s3 (VNode n)), (VNode n). split.
      * apply in_or_app. right. now left.
      * rewrite (agree_matches (S n) s3 s6 rg_agree (rn_heap n s3 Hpend)); auto.
        apply matches_refl. discriminate.
Qed.

Lemma rg_unique :
  unique_ok s3 (setitem_of s3 (_all s3) (VNode n) (VNode n)).
Proof.
  destruct (p_unique Hpend) as [Hd Hv]. unfold setitem_of.
  destruct (lookup_of s3 (_all s3) (VNode n)) eqn:E.
  - split; [now rewrite keys_upd|].
    apply Forall_upd; [exact Hv|]. intros x _ _. exact I.
  - apply unique_app; [now split|exact E|exact I].
Qed.

Lemma registered_node_ok : registry_ok (S n) s6.
Proof.
  pose proof (rn_heap n s3 Hpend) as Hheap.
  pose proof (rn_keys_ok n s3 Hpend) as Hks.
  assert (Hn : val_ok (S n) (VNode n)) by (simpl; lia).
  constructor.
  - apply (heap_ok_frame (S n) s3 s6 _ rg_agree Hheap Hks rg_keys_all).
  - unfold s6, registered_node. cbn [_all].
    eapply Forall_impl; [|apply (rn_all' n s3 Hpend)].
    intros e. apply all_entry_ok_frame. apply rg_agree.
  - assert (Hold : Forall (children_entry_ok (S n) s6) (_children s3)).
    { eapply Forall_impl; [|apply Hpend].
      intros e. apply children_entry_ok_frame. apply rg_agree. }
    unfold s6 at 2, registered_node. cbn [_children].
    destruct (contains_of s3 (_children s3) (VNode n)); [exact Hold|].
    apply Forall_app. split; [exact Hold|]. constructor; [|constructor].
    split; [|constructor]. split; [discriminate|]. split; [exact Hn|].
    symmetry. apply (agree_hash (S n) s3 s6 rg_agree (VNode n) Hn).
  - now rewrite rg_keys_all, rg_keys_children, (p_keys Hpend).
  - intros p Hp. destruct (Nat.eq_dec p n) as [->|Hne]; [apply rg_covered_self|].
    rewrite rg_keys_all. apply covered_app.
    apply (agree_covered (S n) s3 s6 rg_agree Hheap); auto.
    apply Hpend. lia.
  - apply (unique_frame (S n) s3 s6 _ rg_agree Hheap).
    + unfold s6, registered_node. cbn [_all]. rewrite keys_setitem.
      intros hk k Hin. apply in_app_or in Hin. destruct Hin as [Hin|Hin].
      * now apply (Hks hk k).
      * destruct (contains_of s3 (_all s3) (VNode n)); [destruct Hin|].
        destruct Hin as [E|[]]. inversion E. simpl. lia.
    + unfold s6, registered_node. cbn [_all]. apply rg_unique.
Qed.

End RegisteredNode.

(** * [Node(story, parent)] on a well-formed registry *)

Lemma pending_children_update (n : nat) (s s' : state) :
  pending n s -> heap s' = heap s -> _all s' = _all s ->
  keys (_children s') = keys (_children s) ->
  Forall (children_entry_ok (S n) s') (_children s') ->
  pending n s'.
Proof.
  intros Hp Hh Ha Hk Hc.
  pose proof (agree_same_heap (S n) s s' Hh) as Hag.
  pose proof (agree_same_heap n s s' Hh) as Hag'.
  constructor.
  - apply (heap_ok_frame (S n) s s' [] Hag (p_heap Hp) (rn_keys_ok n s Hp)).
    now rewrite Ha, app_nil_r.
  - rewrite Ha. eapply Forall_impl; [|apply (p_all Hp)].
    intros e. now apply all_entry_ok_frame.
  - exact Hc.
  - rewrite Hk. apply (p_ckeys Hp).
  - rewrite Ha, Hk. apply (p_keys Hp).
  - intros p Hlt. rewrite Ha.
    apply (agree_covered n s s' Hag' (heap_ok_le (S n) n s (Nat.le_succ_diag_r n)
                                         (p_heap Hp)) _ p Hlt).
    + apply (all_keys_ok n s). apply (p_all Hp).
    + now apply (p_covered Hp).
  - rewrite Ha. apply (unique_frame (S n) s s' _ Hag (p_heap Hp) (rn_keys_ok n s Hp)).
    apply (p_unique Hp).
Qed.

Lemma pending_registry_S (n : nat) (s : state) :
  pending n s ->
  heap_ok (S n) s /\ Forall (all_entry_ok (S n) s) (_all s).
Proof. intros Hp. split; [apply (p_heap Hp)|apply (rn_all n s Hp)]. Qed.

Lemma contains_lookup {V} (st : state) (d : dict V) (key : value) :
  contains_of st d key = true ->
  exists i hk k v, lookup_of st d key = Some i /\ nth_error d i = Some (hk, k, v).
Proof.
  unfold contains_of. destruct (lookup_of st d key) as [i|] eqn:E; [|discriminate].
  intros _. unfold lookup_of in E. apply find_keys_Some in E.
  destruct E as (hk & k & Hn & _). rewrite Nat.sub_0_r in Hn.
  apply nth_error_keys in Hn. destruct Hn as [v Hn]. eauto 6.
Qed.

Lemma value_none_dec (v : value) : v = VNone \/ v <> VNone.
Proof. destruct v; [now left|right|right]; discriminate. Qed.

Lemma match_none {A} (v : value) (a b : A) :
  v = VNone -> match v with VNone => a | _ => b end = a.
Proof. now intros ->. Qed.

Lemma match_not_none {A} (v : value) (a b : A) :
  v <> VNone -> match v with VNone => a | _ => b end = b.
Proof. destruct v; congruence. Qed.

Lemma covered_contains (st : state) (ks : list (hashv * value)) (p : nat) :
  covered st ks p ->
  exists i, find_keys st (hash_of st (VNode p)) (VNode p) ks 0 = Some i.
Proof.
  intros (l1 & l2 & -> & _ & h & k & Hin & Hm).
  apply (find_keys_exists st _ _ _ h k); [|exact Hm].
  apply in_or_app. now left.
Qed.

Lemma ext_nil_node {A} (parent : value) (ext : list A) :
  parent <> VNone -> (forall p, parent = VNode p -> ext = []) ->
  match parent with VBytes _ => True | _ => ext = [] end.
Proof. destruct parent; intros H1 H2; auto; [congruence|now apply (H2 i)]. Qed.

Lemma ext_nil_root {A} (parent : value) :
  parent = VNone -> match parent with VBytes _ => True | _ => @nil A = [] end.
Proof. now intros ->. Qed.

Lemma ext_nil_all {A} (parent : value) (ext d d0 : list A) :
  d = d0 ++ ext -> match parent with VBytes _ => True | _ => ext = [] end ->
  match parent with VBytes _ => True | _ => d = d0 end.
Proof.
  intros -> H. destruct parent; auto; subst ext; apply app_nil_r.
Qed.

(** The closed forms read the heap only. *)
Lemma eq_of_heap (s s' : state) (a b : value) :
  heap s = heap s' -> eq_of s a b = eq_of s' a b.
Proof.
  intros H. unfold eq_of, pid_of, key_id, slot_of, sid_of, story_of.
  now rewrite H.
Qed.

Lemma hash_of_heap (s s' : state) (a : value) :
  heap s = heap s' -> hash_of s a = hash_of s' a.
Proof. intros H. unfold hash_of, sid_of. now rewrite H. Qed.

Lemma find_keys_heap (s s' : state) (h : hashv) (key : value)
  (ks : list (hashv * value)) (i : nat) :
  heap s = heap s' -> find_keys s h key ks i = find_keys s' h key ks i.
Proof.
  intros H. revert i. induction ks as [|[hk k] ks IH]; intros i; simpl; auto.
  unfold matches. rewrite (eq_of_heap s s' k key H), IH. reflexivity.
Qed.

Lemma lookup_of_heap {V} (s s' : state) (d : dict V) (key : value) :
  heap s = heap s' -> lookup_of s d key = lookup_of s' d key.
Proof.
  intros H. unfold lookup_of.
  now rewrite (hash_of_heap s s' key H), (find_keys_heap s s' _ _ _ _ H).
Qed.

Lemma setitem_of_heap {V} (s s' : state) (d : dict V) (key : value) (v : V) :
  heap s = heap s' -> setitem_of s' d key v = setitem_of s d key v.
Proof.
  intros H. unfold setitem_of.
  now rewrite (lookup_of_heap s s' d key H), (hash_of_heap s s' key H).
Qed.

Lemma same_below_agree (n : nat) (st st' : state) :
  same_below n st st' -> agree n st st'.
Proof. intros H i Hi. now rewrite (H i Hi). Qed.

Section Construction.

Variables (st : state) (story : str) (parent : value) (u : bytes) (f : nat).
Hypothesis HInv : Inv st.
Hypothesis Hf : S (length (heap st)) < f.
Hypothesis Hpar : val_ok (length (heap st)) parent.
Hypothesis Hu : UTF8.encode story = Some u.

Let n := length (heap st).
Let nd0 := mkNode story parent None None.
Let s1 := set_heap (heap st ++ [nd0]) st.
Let h := q_hash (key_id st parent ++ u).

Lemma cons_reg1 : registry_ok n s1.
Proof. apply alloc_registry. exact HInv. Qed.

Lemma cons_agree1 : agree n st s1.
Proof. apply alloc_agree. Qed.

Lemma cons_nth1 : nth_error (heap s1) n = Some nd0.
Proof. apply alloc_nth. Qed.

Lemma cons_fuel : exists f', f = S f' /\ n < f'.
Proof. destruct f as [|f']; [lia|]. exists f'. split; auto. unfold n. lia. Qed.

Lemma fresh_cached (s : state) (ext : dict value) :
  registry_ok n s -> heap s = heap s1 ->
  _all s = _all st ++ ext ->
  match parent with VBytes _ => True | _ => ext = [] end ->
  cached f st story parent u s (with_sid n (fresh_digest s nd0 u) s) /\
  fresh_digest s nd0 u = h.
Proof.
  intros Hreg Hheap Hkeys Hext0.
  assert (Hnth : nth_error (heap s) n = Some nd0) by (rewrite Hheap; apply cons_nth1).
  assert (Hag : agree n s1 s) by now apply agree_same_heap.
  assert (Hd : fresh_digest s nd0 u = h).
  { unfold fresh_digest, h. cbn [_parent nd0]. do 2 f_equal.
    rewrite (agree_key_id n s1 s Hag parent Hpar).
    apply (agree_key_id n st s1 cons_agree1 parent Hpar). }
  split; [|exact Hd].
  destruct cons_fuel as (f' & Ef & Hf').
  pose proof (with_sid_nth n s nd0 u Hnth) as Hn3. cbn [_story _parent _bytes nd0] in Hn3.
  unfold cached. fold n. fold h.
  refine (conj _ (conj _ (conj _ (conj _ (conj _ (conj _ _)))))).
  - rewrite Ef. rewrite (fresh_hash n s f' nd0 u Hreg); auto.
    unfold hash_of, sid_of. now rewrite Hn3.
  - reflexivity.
  - apply (with_sid_pending n s f' nd0 u Hreg); auto.
  - intros i Hi. cbn [heap with_sid set_heap].
    rewrite nth_error_upd_neq by lia. rewrite Hheap. unfold s1.
    cbn [heap set_heap]. apply nth_error_app1. exact Hi.
  - cbn [heap with_sid set_heap]. rewrite upd_length, Hheap. unfold s1.
    cbn [heap set_heap]. rewrite length_app. simpl. fold n. lia.
  - now rewrite Hn3, Hd.
  - exists ext. split; [exact Hkeys|exact Hext0].
Qed.

Lemma cached_hash (s s3 : state) :
  cached f st story parent u s s3 ->
  py_hash (run f) (VNode n) s = Ok (hash_of s3 (VNode n)) s3.
Proof. intros H. apply H. Qed.

Lemma registered_parent_heap (s : state) (p : value) :
  heap (registered_parent s p) = heap s.
Proof. unfold registered_parent. now destruct (contains_of s (_all s) p). Qed.

Lemma registered_parent_all (s : state) (p : value) :
  exists ext, _all (registered_parent s p) = _all s ++ ext /\
              (contains_of s (_all s) p = true -> ext = []).
Proof.
  unfold registered_parent. destruct (contains_of s (_all s) p).
  - exists []. now rewrite app_nil_r.
  - eexists. cbn [_all set_children set_all]. split; [reflexivity|discriminate].
Qed.

(** Registering the parent and entering the new object in its child set. *)
Lemma parent_step (Hp0 : parent <> VNone) :
  exists s4,
    bind (register_parent (run f) parent)
         (fun _ => children_add (run f) parent n) s1 = Ok tt s4 /\
    cached f st story parent u s4 s4.
Proof.
  assert (Hnf : n < f) by (unfold n; lia).
  set (s2 := registered_parent s1 parent).
  assert (Hreg2 : registry_ok n s2)
    by (apply register_parent_registry; auto; apply cons_reg1).
  assert (Hheap2 : heap s2 = heap s1) by apply registered_parent_heap.
  destruct (registered_parent_all s1 parent) as (ext & Hext & Hnil). fold s2 in Hext.
  assert (Hext0 : match parent with VBytes _ => True | _ => ext = [] end).
  { apply ext_nil_node; [exact Hp0|]. intros p Ep. apply Hnil.
    rewrite Ep in Hpar. simpl in Hpar. rewrite Ep.
    destruct (covered_contains s1 _ p (r_covered cons_reg1 Hpar)) as [i Hi].
    unfold contains_of, lookup_of. now rewrite Hi. }
  destruct (fresh_cached s2 ext Hreg2 Hheap2 Hext Hext0) as [Hc Hd].
  set (s3 := with_sid n (fresh_digest s2 nd0 u) s2) in *.
  destruct Hc as (Hhash & Hall3 & Hpend & Hag3 & Hlen3 & Hnth3 & Hkeys3).
  fold n in Hhash, Hpend, Hag3, Hlen3, Hnth3.
  destruct (pending_registry_S n s3 Hpend) as [Hheap3 HallS].
  (* the entry of the parent in the children map *)
  assert (Hcont : contains_of s2 (_children s2) parent = true).
  { rewrite <- (contains_keys s2 (_all s2) (_children s2) parent (r_keys Hreg2)).
    pose proof (register_parent_contains s1 parent Hp0) as Hc. fold s2 in Hc.
    unfold contains_of in *.
    rewrite (agree_lookup n s1 s2 (agree_same_heap n s1 s2 Hheap2) (r_heap cons_reg1)
               (_all s2) parent Hpar (all_keys_ok n s2 _ (r_all Hreg2))).
    exact Hc. }
  destruct (contains_lookup s2 (_children s2) parent Hcont)
    as (i & hk & k & ws & Hlook & Hnth).
  assert (Hfind : dict_find (run f) (_children s2) parent s2 = Ok (Some i) s2).
  { rewrite <- Hlook.
    apply (char_find n s2 f (r_heap Hreg2) (r_all Hreg2) Hnf (_children s2) parent
             Hpar (children_keys_ok n s2 _ (r_children Hreg2))). }
  set (hh := hash_of s3 (VNode n)) in *.
  set (s4 := added_state s3 n hh i ws).
  assert (Hadd : children_add (run f) parent n s2 = Ok tt s4).
  { apply (children_add_eval (S n) s2 s3 f parent n hh i hk k ws Hheap3 HallS
             (p_children Hpend) Hf (Nat.lt_succ_diag_r n) eq_refl Hhash eq_refl
             Hfind Hnth). }
  assert (Hpend4 : pending n s4).
  { apply (pending_children_update n s3 s4 Hpend); try reflexivity.
    - unfold s4, added_state. cbn [_children set_children]. apply keys_upd.
    - apply (added_children_ok (S n) s2 s3 n hh i hk k ws (p_children Hpend)
               (Nat.lt_succ_diag_r n) eq_refl eq_refl Hnth). }
  exists s4. split.
  - rewrite (bind_Ok _ _ _ _ _
               (register_parent_eval n s1 f parent cons_reg1 Hnf Hp0 Hpar)).
    exact Hadd.
  - unfold cached. fold n.
    refine (conj _ (conj eq_refl (conj Hpend4 (conj _ (conj Hlen3 (conj Hnth3 _)))))).
    + destruct (pending_registry_S n s4 Hpend4) as [Hheap4 Hall4].
      apply (char_hash (S n) s4 f Hheap4 Hall4 Hf (VNode n)). simpl. lia.
    + exact Hag3.
    + exact Hkeys3.
Qed.

Lemma root_step : parent = VNone ->
  exists s3, cached f st story parent u s1 s3.
Proof.
  intros E. eexists.
  apply (fresh_cached s1 [] cons_reg1 eq_refl).
  - unfold s1. cbn [_all set_heap]. now rewrite app_nil_r.
  - now apply ext_nil_root.
Qed.

Lemma parent_step_or_root :
  (parent = VNone /\ exists s3, cached f st story parent u s1 s3) \/
  (parent <> VNone /\ exists s4,
     bind (register_parent (run f) parent)
          (fun _ => children_add (run f) parent n) s1 = Ok tt s4 /\
     cached f st story parent u s4 s4).
Proof.
  destruct (value_none_dec parent) as [E|E].
  - left. split; [exact E|]. now apply root_step.
  - right. split; [exact E|]. now apply parent_step.
Qed.

Lemma parent_or_root :
  exists s s3,
    (match parent with
     | VNone => ret tt
     | _ => bind (register_parent (run f) parent)
                 (fun _ => children_add (run f) parent n)
     end) s1 = Ok tt s /\
    cached f st story parent u s s3.
Proof.
  destruct (parent_step_or_root) as [[E [s3 H]]|[Hp0 [s4 [H1 H2]]]].
  - exists s1, s3. split; [|exact H]. now rewrite (match_none _ _ _ E).
  - exists s4, s4. split; [|exact H2]. now rewrite (match_not_none _ _ _ Hp0).
Qed.

(** A valid story and a registered parent: the constructor returns the new
    object and leaves a well-formed registry. *)
Lemma Node_init_ok :
  length story <= STORY_SIZE -> existsb (N.eqb 0) story = false ->
  exists st', Node__init__ (run f) story parent st = Ok n st' /\
              constructed st story parent u st'.
Proof.
  intros Hlen Hnull.
  destruct parent_or_root as (s & s3 & Hstep & Hc).
  pose proof Hc as (Hhash & Hall3 & Hpend & Hag3 & Hlen3 & Hnth3 & ext & Hext & Hext0).
  fold n in Hhash, Hpend, Hag3, Hlen3, Hnth3.
  exists (registered_node s3 n). split.
  - unfold Node__init__.
    replace (STORY_SIZE <? length story) with false
      by (symmetry; apply Nat.ltb_ge; exact Hlen).
    rewrite Hnull.
    rewrite (bind_Ok _ _ st s1 n) by reflexivity.
    rewrite (bind_Ok _ _ s1 s tt Hstep).
    now rewrite (bind_Ok _ _ _ _ _ (register_node_eval n s s3 f Hpend Hf Hhash Hall3)).
  - pose proof (registered_node_ok n s3 Hpend) as Hreg.
    constructor.
    + unfold Inv. cbn [heap registered_node]. rewrite Hlen3. exact Hreg.
    + cbn [heap registered_node]. exact Hlen3.
    + exact Hag3.
    + cbn [heap registered_node]. exact Hnth3.
    + rewrite (rg_keys_all n s3), Hext, keys_app, <- app_assoc. eauto.
    + exists (_all s3). split; [eauto|]. split.
      * apply (ext_nil_all parent ext); auto.
      * cbn [_all registered_node heap]. fold n.
        now apply setitem_of_heap.
Qed.

End Construction.

(** ** Rejected stories *)

Lemma Node_init_too_long (rec : ops) (story : str) (parent : value) (st : state) :
  STORY_SIZE < length story ->
  Node__init__ rec story parent st = Raise ValueError st.
Proof.
  intros H. unfold Node__init__.
  replace (STORY_SIZE <? length story) with true
    by (symmetry; now apply Nat.ltb_lt).
  reflexivity.
Qed.

Lemma Node_init_null (rec : ops) (story : str) (parent : value) (st : state) :
  length story <= STORY_SIZE -> existsb (N.eqb 0) story = true ->
  Node__init__ rec story parent st = Raise ValueError st.
Proof.
  intros H1 H2. unfold Node__init__.
  replace (STORY_SIZE <? length story) with false
    by (symmetry; now apply Nat.ltb_ge).
  now rewrite H2.
Qed.

Section Unencodable.

Variables (st : state) (story : str) (parent : value) (f : nat).
Hypothesis HInv : Inv st.
Hypothesis Hf : S (length (heap st)) < f.
Hypothesis Hpar : val_ok (length (heap st)) parent.
Hypothesis Hu : UTF8.encode story = None.

Let n := length (heap st).
Let nd0 := mkNode story parent None None.
Let s1 := set_heap (heap st ++ [nd0]) st.

Lemma fresh_hash_raise (s : state) :
  registry_ok n s -> heap s = heap s1 ->
  py_hash (run f) (VNode n) s = Raise UnicodeEncodeError s.
Proof.
  intros Hreg Hheap.
  assert (Hnth : nth_error (heap s) n = Some nd0) by (rewrite Hheap; apply alloc_nth).
  destruct f as [|f'] eqn:Ef; [lia|].
  assert (Hf' : n < f') by (unfold n; lia).
  unfold py_hash. cbn [run step o_sid].
  assert (Hsid : Node_sid (run f') n s = Raise UnicodeEncodeError s).
  { unfold Node_sid. rewrite (bind_Ok _ _ _ _ _ (get_node_Ok s n nd0 Hnth)).
    cbn [_sid nd0].
    rewrite (bind_Ok _ _ _ _ _ (fresh_pid n s f' nd0 Hreg Hf' Hnth Hpar)).
    cbn [_story nd0]. now rewrite Hu. }
  now rewrite (bind_Raise _ _ _ _ _ Hsid).
Qed.

(** A story with a lone surrogate passes the two tests of [__init__] and
    fails when its sid is first needed. *)
Lemma Node_init_unencodable :
  length story <= STORY_SIZE -> existsb (N.eqb 0) story = false ->
  exists st', Node__init__ (run f) story parent st = Raise UnicodeEncodeError st'.
Proof.
  intros Hlen Hnull.
  pose proof (alloc_registry st nd0 HInv) as Hreg1. fold n in Hreg1. fold s1 in Hreg1.
  assert (Hnf : n < f) by (unfold n; lia).
  unfold Node__init__.
  replace (STORY_SIZE <? length story) with false
    by (symmetry; now apply Nat.ltb_ge).
  rewrite Hnull. rewrite (bind_Ok _ _ st s1 n) by reflexivity.
  destruct (value_none_dec parent) as [E|E].
  - exists s1. rewrite (match_none _ _ _ E).
    rewrite (bind_Ok _ _ s1 s1 tt) by reflexivity.
    assert (Hreg : register_node (run f) n s1 = Raise UnicodeEncodeError s1).
    { unfold register_node, gets.
      rewrite (bind_Ok _ _ s1 s1 (_all s1)) by reflexivity.
      unfold dict_setitem.
      now rewrite (bind_Raise _ _ _ _ _
                     (bind_Raise _ _ _ _ _ (fresh_hash_raise s1 Hreg1 eq_refl))). }
    now rewrite (bind_Raise _ _ _ _ _ Hreg).
  - set (s2 := registered_parent s1 parent).
    assert (Hreg2 : registry_ok n s2) by now apply register_parent_registry.
    assert (Hheap2 : heap s2 = heap s1) by apply registered_parent_heap.
    exists s2. rewrite (match_not_none _ _ _ E).
    assert (Hcont : contains_of s2 (_children s2) parent = true).
    { rewrite <- (contains_keys s2 (_all s2) (_children s2) parent (r_keys Hreg2)).
      pose proof (register_parent_contains s1 parent E) as Hc. fold s2 in Hc.
      unfold contains_of in *.
      rewrite (agree_lookup n s1 s2 (agree_same_heap n s1 s2 Hheap2) (r_heap Hreg1)
                 (_all s2) parent Hpar (all_keys_ok n s2 _ (r_all Hreg2))).
      exact Hc. }
    destruct (contains_lookup s2 (_children s2) parent Hcont)
      as (i & hk & k & ws & Hlook & Hnth).
    assert (Hfind : dict_find (run f) (_children s2) parent s2 = Ok (Some i) s2).
    { rewrite <- Hlook.
      apply (char_find n s2 f (r_heap Hreg2) (r_all Hreg2) Hnf (_children s2) parent
               Hpar (children_keys_ok n s2 _ (r_children Hreg2))). }
    assert (Hadd : children_add (run f) parent n s2 = Raise UnicodeEncodeError s2).
    { unfold children_add, gets.
      rewrite (bind_Ok _ _ s2 s2 (_children s2)) by reflexivity.
      rewrite (bind_Ok _ _ _ _ _ Hfind), Hnth. unfold weakset_add.
      now rewrite (bind_Raise _ _ _ _ _
                     (bind_Raise _ _ _ _ _ (fresh_hash_raise s2 Hreg2 Hheap2))). }
    assert (Hstep : bind (register_parent (run f) parent)
                      (fun _ => children_add (run f) parent n) s1 =
                    Raise UnicodeEncodeError s2).
    { rewrite (bind_Ok _ _ _ _ _
                 (register_parent_eval n s1 f parent Hreg1 Hnf E Hpar)).
      exact Hadd. }
    now rewrite (bind_Raise _ _ _ _ _ Hstep).
Qed.

End Unencodable.

(** ** Every outcome of the constructor on a well-formed registry *)

Lemma Node_init_cases (st : state) (story : str) (parent : value) (f : nat) :
  Inv st -> S (length (heap st)) < f -> val_ok (length (heap st)) parent ->
  (exists u st', UTF8.encode story = Some u /\
     length story <= STORY_SIZE /\ existsb (N.eqb 0) story = false /\
     Node__init__ (run f) story parent st = Ok (length (heap st)) st' /\
     constructed st story parent u st') \/
  ((STORY_SIZE < length story \/ existsb (N.eqb 0) story = true) /\
   Node__init__ (run f) story parent st = Raise ValueError st) \/
  (UTF8.encode story = None /\
   exists st', Node__init__ (run f) story parent st = Raise UnicodeEncodeError st').
Proof.
  intros HInv Hf Hpar.
  destruct (le_lt_dec (length story) STORY_SIZE) as [Hlen|Hlen].
  - destruct (existsb (N.eqb 0) story) eqn:Hnull.
    + right. left. split; [now right|]. now apply Node_init_null.
    + destruct (UTF8.encode story) as [u|] eqn:Hu.
      * left. destruct (Node_init_ok st story parent u f HInv Hf Hpar Hu Hlen Hnull)
          as (st' & H1 & H2).
        exists u, st'. auto.
      * right. right. split; [reflexivity|].
        now apply Node_init_unencodable.
  - right. left. split; [now left|]. now apply Node_init_too_long.
Qed.

(** A construction that succeeded was of a valid story and left a
    well-formed registry. *)
Lemma Node_init_Ok_inv (st : state) (story : str) (parent : value) (f n : nat)
  (st' : state) :
  Inv st -> S (length (heap st)) < f -> val_ok (length (heap st)) parent ->
  Node__init__ (run f) story parent st = Ok n st' ->
  n = length (heap st) /\
  exists u, UTF8.encode story = Some u /\ constructed st story parent u st'.
Proof.
  intros HInv Hf Hpar H.
  destruct (Node_init_cases st story parent f HInv Hf Hpar)
    as [(u & s & Hu & _ & _ & E & Hc)|[[_ E]|[_ [s E]]]];
    rewrite E in H; try discriminate.
  inversion H; subst. eauto.
Qed.

Lemma Inv_empty : Inv empty_state.
Proof.
  constructor; simpl.
  - split; [simpl; lia|]. intros i nd Hi. lia.
  - constructor.
  - constructor.
  - reflexivity.
  - intros p Hp. lia.
  - split; [exact I|constructor].
Qed.

(** * Properties of the node engine *)

Lemma Inv_node (st : state) (n : nat) :
  Inv st -> n < length (heap st) ->
  exists nd u,
    nth_error (heap st) n = Some nd /\
    UTF8.encode (story_of st n) = Some u /\
    sid_of st n = q_hash (pid_of st n ++ u) /\
    slot_of st n = _parent nd /\
    val_ok (length (heap st)) (slot_of st n).
Proof.
  intros HInv Hn.
  destruct (heap_ok_node _ st n (r_heap HInv) Hn) as (nd & Hnd & (u & Hu & Hs) & Hp).
  exists nd, u. unfold story_of, sid_of, pid_of, slot_of. rewrite Hnd, Hs.
  repeat split; auto.
  destruct (_parent nd); simpl; auto. destruct Hp. lia.
Qed.

Lemma Inv_sid (st : state) (f n : nat) :
  Inv st -> n < length (heap st) -> sid f n st = Ok (sid_of st n) st.
Proof.
  intros HInv Hn.
  destruct (heap_ok_node _ st n (r_heap HInv) Hn) as (nd & Hnd & (u & Hu & Hs) & Hp).
  unfold sid, Node_sid. rewrite (bind_Ok _ _ _ _ _ (get_node_Ok st n nd Hnd)).
  rewrite Hs. unfold sid_of. now rewrite Hnd, Hs.
Qed.

Lemma Inv_pid (st : state) (f n : nat) :
  Inv st -> n < length (heap st) -> length (heap st) < f ->
  pid f n st = Ok (pid_of st n) st.
Proof.
  intros HInv Hn Hf. destruct (Inv_node st n HInv Hn) as (nd & u & _ & _ & _ & _ & Hv).
  apply (char_pid _ st f (r_heap HInv) (r_all HInv) Hf n Hn Hv).
Qed.

Lemma Inv_parent (st : state) (f n : nat) :
  Inv st -> n < length (heap st) -> length (heap st) < f ->
  parent f n st = Ok (parent_of st n) st.
Proof.
  intros HInv Hn Hf. destruct (Inv_node st n HInv Hn) as (nd & u & _ & _ & _ & _ & Hv).
  apply (char_parent _ st f (r_heap HInv) (r_all HInv) Hf n Hn Hv).
Qed.

Lemma Inv_eq (st : state) (f : nat) (a b : value) :
  Inv st -> length (heap st) < f ->
  val_ok (length (heap st)) a -> val_ok (length (heap st)) b ->
  eq f a b st = Ok (eq_of st a b) st.
Proof.
  intros HInv Hf Ha Hb.
  apply (char_eq _ st f (r_heap HInv) (r_all HInv) Hf a b Ha Hb).
Qed.

Lemma Inv_hash (st : state) (f : nat) (v : value) :
  Inv st -> length (heap st) < f -> val_ok (length (heap st)) v ->
  hash f v st = Ok (hash_of st v) st.
Proof.
  intros HInv Hf Hv.
  apply (char_hash _ st f (r_heap HInv) (r_all HInv) Hf v Hv).
Qed.

Lemma Inv_parent_id (st : state) (n : nat) :
  Inv st -> n < length (heap st) ->
  key_id st (parent_of st n) = pid_of st n /\
  val_ok (length (heap st)) (parent_of st n).
Proof.
  intros HInv Hn. destruct (Inv_node st n HInv Hn) as (nd & u & _ & _ & _ & _ & Hv).
  destruct (parent_of_hash _ st n (r_all HInv) Hv) as [Hh Hok].
  split; [|exact Hok]. unfold pid_of. now apply hash_of_key_id.
Qed.

(** C1.  In a well-formed registry the sid of every node is a 64-byte
    digest, the SHA-512 hash of the parent identity followed by the UTF-8
    story; the parent identity is empty when [parent] is [None], the raw
    digest when it is bytes, and the sid of the parent when it is a node.
    The value is the cached one: reading it again, with any fuel, returns
    the same bytes and leaves the state as it is. *)
Theorem sid_is_digest (st : state) (f n : nat) :
  Inv st -> n < length (heap st) -> length (heap st) < f ->
  exists s p u,
    sid f n st = Ok s st /\ length s = DIGEST_SIZE /\
    parent f n st = Ok p st /\ UTF8.encode (story_of st n) = Some u /\
    match p with
    | VNone => s = q_hash ([] ++ u)
    | VBytes d => s = q_hash (d ++ u)
    | VNode q => exists sq, sid f q st = Ok sq st /\ s = q_hash (sq ++ u)
    end /\
    forall f', sid f' n st = Ok s st.
Proof.
  intros HInv Hn Hf.
  destruct (Inv_node st n HInv Hn) as (nd & u & Hnd & Hu & Hs & _ & _).
  destruct (Inv_parent_id st n HInv Hn) as [Hid Hok].
  exists (sid_of st n), (parent_of st n), u.
  split; [now apply Inv_sid|]. split; [rewrite Hs; apply q_hash_length|].
  split; [now apply Inv_parent|]. split; [exact Hu|]. split.
  - rewrite Hs, <- Hid. destruct (parent_of st n) as [|d|q]; try reflexivity.
    exists (sid_of st q). split; [|reflexivity]. now apply Inv_sid.
  - intros f'. now apply Inv_sid.
Qed.

(** C5.  Two nodes of a well-formed registry with the same parent identity
    and the same story compare equal and have the same hash, whether or
    not they are one object; and a node compares equal to a bytes value,
    on either side of [==], exactly when the value is its sid. *)
Theorem identity_dedup (st : state) (f m n : nat) (p : bytes) :
  Inv st -> m < length (heap st) -> n < length (heap st) ->
  length (heap st) < f ->
  pid f m st = Ok p st -> pid f n st = Ok p st ->
  story_of st m = story_of st n ->
  eq f (VNode m) (VNode n) st = Ok true st /\
  (exists h, hash f (VNode m) st = Ok h st /\ hash f (VNode n) st = Ok h st) /\
  (forall d, exists s b b',
      sid f n st = Ok s st /\
      eq f (VNode n) (VBytes d) st = Ok b st /\
      eq f (VBytes d) (VNode n) st = Ok b' st /\
      (b = true <-> d = s) /\ (b' = true <-> d = s)).
Proof.
  intros HInv Hm Hn Hf Hpm Hpn Hstory.
  rewrite (Inv_pid st f m HInv Hm Hf) in Hpm.
  rewrite (Inv_pid st f n HInv Hn Hf) in Hpn.
  assert (Em : pid_of st m = p) by congruence.
  assert (En : pid_of st n = p) by congruence.
  split; [|split].
  - rewrite (Inv_eq st f (VNode m) (VNode n) HInv Hf Hm Hn). simpl.
    now rewrite Em, En, Hstory, bytes_eqb_refl, str_eqb_refl.
  - exists (hash_of st (VNode m)).
    split; [now apply Inv_hash|].
    rewrite (Inv_hash st f (VNode n) HInv Hf Hn). f_equal. cbn [hash_of]. f_equal.
    destruct (Inv_node st m HInv Hm) as (_ & um & _ & Hum & Hsm & _).
    destruct (Inv_node st n HInv Hn) as (_ & un & _ & Hun & Hsn & _).
    rewrite Hsm, Hsn, Em, En. rewrite Hstory in Hum. congruence.
  - intros d. exists (sid_of st n), (bytes_eqb d (sid_of st n)),
      (bytes_eqb d (sid_of st n)).
    split; [now apply Inv_sid|].
    split; [now apply (Inv_eq st f (VNode n) (VBytes d) HInv Hf)|].
    split; [now apply (Inv_eq st f (VBytes d) (VNode n) HInv Hf)|].
    split; apply bytes_eqb_eq.
Qed.

Lemma distinct_nth (st : state) (ks : list (hashv * value)) :
  distinct_keys st ks ->
  forall i j hi ki hj kj,
    nth_error ks i = Some (hi, ki) -> nth_error ks j = Some (hj, kj) -> i < j ->
    matches st hj kj hi ki = false.
Proof.
  induction ks as [|[h k] ks IH]; intros Hd i j hi ki hj kj Hi Hj Hlt.
  - destruct i; discriminate.
  - destruct Hd as [Hf Hd]. destruct j as [|j]; [lia|]. simpl in Hj.
    destruct i as [|i].
    + simpl in Hi. inversion Hi; subst. rewrite Forall_forall in Hf.
      apply (Hf (hj, kj)). eapply nth_error_In. exact Hj.
    + simpl in Hi. apply (IH Hd i j hi ki hj kj Hi Hj). lia.
Qed.

Lemma matches_bytes_key (st : state) (d : bytes) (h : hashv) (k : value) :
  h = hash_of st k -> h = HBytes d ->
  matches st (HBytes d) (VBytes d) h k = true /\
  matches st h k (HBytes d) (VBytes d) = true.
Proof.
  intros Hk Hd. unfold matches. rewrite Hd, hashv_eqb_refl. cbn [andb].
  rewrite Hd in Hk. destruct k as [|x|q]; simpl in Hk; try discriminate.
  - inversion Hk; subst. simpl. split; apply bytes_eqb_refl.
  - inversion Hk as [E]. simpl. rewrite <- E. split; apply bytes_eqb_refl.
Qed.

(** An entry with the hash of a digest makes the lookup of the digest
    succeed; the value found is a node as soon as one entry with that hash
    has a node as key or value. *)
Lemma lookup_digest (st : state) (d : bytes) (h : hashv) (k v : value) :
  Inv st -> In (h, k, v) (_all st) -> h = HBytes d ->
  (exists p, k = VNode p \/ v = VNode p) ->
  exists i hk' k' q,
    lookup_of st (_all st) (VBytes d) = Some i /\
    nth_error (_all st) i = Some (hk', k', VNode q) /\ sid_of st q = d.
Proof.
  intros HInv Hin Hh [p Hp].
  pose proof (r_all HInv) as Hall. rewrite Forall_forall in Hall.
  destruct (Hall _ Hin) as ((Hk0 & Hkv & Hkh) & Hv0 & Hvv & Hvh).
  destruct (matches_bytes_key st d h k Hkh Hh) as [Hm1 Hm2].
  destruct (In_nth_error _ _ Hin) as [j Hj].
  assert (Hjk : nth_error (keys (_all st)) j = Some (h, k)).
  { unfold keys. now rewrite (map_nth_error fst _ _ Hj). }
  destruct (find_keys_exists st (HBytes d) (VBytes d) (keys (_all st)) h k
              (nth_error_In _ _ Hjk) Hm1 0) as [i Hi].
  pose proof Hi as Hi'. apply find_keys_Some in Hi'.
  destruct Hi' as (hi & ki & Hnthk & Hmi & _ & Hbefore).
  rewrite Nat.sub_0_r in Hnthk, Hbefore.
  destruct (lookup_value_hash _ st (VBytes d) i (r_all HInv) Hi)
    as (hk' & k' & v' & Hnth & Hvh' & Hvok & Hvn).
  assert (Ek : (hi, ki) = (hk', k')).
  { unfold keys in Hnthk. rewrite (map_nth_error fst _ _ Hnth) in Hnthk.
    simpl in Hnthk. congruence. }
  inversion Ek; subst hi ki.
  destruct v' as [|x|q]; [congruence| |].
  - (* a bytes value: its key is the digest, and no other entry has its hash *)
    exfalso. simpl in Hvh'. inversion Hvh'; subst x.
    destruct (r_unique HInv) as [Hdist Hval]. rewrite Forall_forall in Hval.
    pose proof (Hval _ (nth_error_In _ _ Hnth)) as Hkey. unfold value_ok in Hkey.
    cbn [fst snd] in Hkey. subst k'.
    destruct (Hall _ (nth_error_In _ _ Hnth)) as ((_ & _ & Hkh') & _).
    simpl in Hkh'. subst hk'.
    destruct (Nat.lt_trichotomy i j) as [Hlt|[Heq|Hgt]].
    + pose proof (distinct_nth st _ Hdist i j _ _ _ _ Hnthk Hjk Hlt) as Hno.
      rewrite Hm2 in Hno. discriminate.
    + rewrite <- Heq in Hj.
      assert (E : Some (h, k, v) = Some (HBytes d, VBytes d, VBytes d))
        by (rewrite <- Hj, <- Hnth; reflexivity).
      inversion E; subst. destruct Hp as [Hp|Hp]; discriminate.
    + assert (Hin' : In (h, k) (firstn i (keys (_all st)))).
      { assert (Hjl : j < length (keys (_all st)))
          by (apply nth_error_Some; congruence).
        rewrite <- (firstn_skipn i (keys (_all st))) in Hjk.
        rewrite nth_error_app1 in Hjk.
        - eapply nth_error_In. exact Hjk.
        - rewrite length_firstn. now apply Nat.min_glb_lt. }
      rewrite (Hbefore h k Hin') in Hm1. discriminate.
  - exists i, hk', k', q. repeat split; auto.
    simpl in Hvh'. now inversion Hvh'.
Qed.

(** C8.  For a node whose parent slot holds a raw digest [d]: when the
    registry holds a node with sid [d], reading [parent] returns a node the
    registry holds whose sid is [d] (so that very node when it is the only
    one); when it holds none, the digest is returned as it is. *)
Theorem parent_resolution (st : state) (f n : nat) (d : bytes) :
  Inv st -> n < length (heap st) -> length (heap st) < f ->
  slot_of st n = VBytes d ->
  ((exists p, holds st p /\ sid_of st p = d) ->
   exists q, parent f n st = Ok (VNode q) st /\ holds st q /\
             sid f q st = Ok d st) /\
  (forall p, holds st p -> sid_of st p = d ->
     (forall p', holds st p' -> sid_of st p' = d -> p' = p) ->
     parent f n st = Ok (VNode p) st) /\
  (~ (exists p, holds st p /\ sid_of st p = d) ->
   parent f n st = Ok (VBytes d) st).
Proof.
  intros HInv Hn Hf Hslot.
  rewrite (Inv_parent st f n HInv Hn Hf).
  pose proof (r_all HInv) as Hall. rewrite Forall_forall in Hall.
  assert (H1 : (exists p, holds st p /\ sid_of st p = d) ->
               exists q, parent_of st n = VNode q /\ holds st q /\ sid_of st q = d).
  { intros (p & (h & k & v & Hin & Hp) & Hs).
    destruct (Hall _ Hin) as ((Hk0 & Hkv & Hkh) & Hv0 & Hvv & Hvh).
    assert (Hh : h = HBytes d).
    { destruct Hp as [->| ->]; [rewrite Hkh|rewrite <- Hvh]; simpl; now rewrite Hs. }
    destruct (lookup_digest st d h k v HInv Hin Hh (ex_intro _ p Hp))
      as (i & hk' & k' & q & Hl & Hnth & Hq).
    exists q. unfold parent_of. rewrite Hslot, Hl, Hnth.
    repeat split; auto. exists hk', k', (VNode q).
    split; [eapply nth_error_In; exact Hnth|now right]. }
  split; [|split].
  - intros Hex. destruct (H1 Hex) as (q & Hq & Hh & Hs). exists q.
    rewrite Hq. repeat split; auto. rewrite <- Hs. apply Inv_sid; auto.
    destruct Hh as (h & k & v & Hin & Hk).
    destruct (Hall _ Hin) as ((_ & Hkv & _) & _ & Hvv & _).
    destruct Hk as [->| ->]; assumption.
  - intros p Hp Hs Huniq.
    destruct (H1 (ex_intro _ p (conj Hp Hs))) as (q & Hq & Hh & Hsq).
    rewrite Hq. now rewrite (Huniq q Hh Hsq).
  - intros Hno. unfold parent_of. rewrite Hslot.
    destruct (lookup_of st (_all st) (VBytes d)) as [i|] eqn:El; [|reflexivity].
    destruct (lookup_value_hash _ st (VBytes d) i (r_all HInv) El)
      as (hk' & k' & v' & Hnth & Hvh' & Hvok & Hvn).
    rewrite Hnth. destruct v' as [|x|q]; [congruence| |].
    + simpl in Hvh'. now inversion Hvh'.
    + exfalso. apply Hno. exists q. split.
      * exists hk', k', (VNode q).
        split; [eapply nth_error_In; exact Hnth|now right].
      * simpl in Hvh'. now inversion Hvh'.
Qed.

Lemma Inv_contains {V} (st : state) (f : nat) (d : dict V) (x : value) :
  Inv st -> length (heap st) < f -> val_ok (length (heap st)) x ->
  keys_ok (length (heap st)) (keys d) ->
  dict_contains (run f) d x st = Ok (contains_of st d x) st.
Proof.
  intros HInv Hf Hx Hk.
  apply (char_contains _ st f (r_heap HInv) (r_all HInv) Hf d x Hx Hk).
Qed.

Lemma sync_after_construction (st : state) (f : nat) (story : str) (parent : value)
  (n : nat) (st' : state) :
  Inv st -> val_ok (length (heap st)) parent -> S (length (heap st)) < f ->
  Node f story parent st = Ok n st' ->
  forall x, val_ok (length (heap st')) x ->
    exists b, dict_contains (run f) (_all st') x st' = Ok b st' /\
              dict_contains (run f) (_children st') x st' = Ok b st'.
Proof.
  intros HInv Hpar Hf HN x Hx.
  destruct (Node_init_Ok_inv st story parent f n st' HInv Hf Hpar HN)
    as (_ & u & _ & Hc).
  pose proof (c_inv Hc) as HInv'.
  assert (Hf' : length (heap st') < f) by (rewrite (c_length Hc); exact Hf).
  exists (contains_of st' (_all st') x). split.
  - apply Inv_contains; auto. apply (all_keys_ok _ st'). apply (r_all HInv').
  - rewrite (contains_keys st' (_all st') (_children st') x (r_keys HInv')).
    apply Inv_contains; auto. apply (children_keys_ok _ st').
    apply (r_children HInv').
Qed.

Lemma sync_error (st : state) (f : nat) (story : str) (parent : value) :
  drifted_ok st -> parent <> VNone -> val_ok (length (heap st)) parent ->
  length (heap st) < f ->
  length story <= STORY_SIZE -> existsb (N.eqb 0) story = false ->
  contains_of st (_all st) parent <> contains_of st (_children st) parent ->
  exists st', Node f story parent st = Raise SyncError st' /\
              _all st' = _all st /\ _children st' = _children st.
Proof.
  intros (Hheap & Hall & Hkc) Hp0 Hpar Hf Hlen Hnull Hdiff.
  set (n := length (heap st)) in *.
  set (s1 := set_heap (heap st ++ [mkNode story parent None None]) st).
  assert (Hag : agree n st s1) by apply alloc_agree.
  pose proof (all_keys_ok n st _ Hall) as Hka.
  assert (Hheap1 : heap_ok n s1).
  { apply (heap_ok_frame n st s1 [] Hag Hheap Hka). now rewrite app_nil_r. }
  assert (Hall1 : Forall (all_entry_ok n s1) (_all s1)).
  { eapply Forall_impl; [|exact Hall]. intros e. now apply all_entry_ok_frame. }
  exists s1. split; [|split; reflexivity].
  unfold Node, Node__init__.
  replace (STORY_SIZE <? length story) with false
    by (symmetry; now apply Nat.ltb_ge).
  rewrite Hnull. rewrite (bind_Ok _ _ st s1 n) by reflexivity.
  rewrite (match_not_none _ _ _ Hp0).
  assert (Hreg : register_parent (run f) parent s1 = Raise SyncError s1).
  { unfold register_parent, gets.
    rewrite (bind_Ok _ _ s1 s1 (_all s1)) by reflexivity.
    rewrite (bind_Ok _ _ _ _ _
               (char_contains n s1 f Hheap1 Hall1 Hf (_all s1) parent Hpar Hka)).
    rewrite (bind_Ok _ _ s1 s1 (_children s1)) by reflexivity.
    rewrite (bind_Ok _ _ _ _ _
               (char_contains n s1 f Hheap1 Hall1 Hf (_children s1) parent Hpar Hkc)).
    unfold contains_of.
    rewrite (agree_lookup n st s1 Hag Hheap (_all s1) parent Hpar Hka).
    rewrite (agree_lookup n st s1 Hag Hheap (_children s1) parent Hpar Hkc).
    change (_all s1) with (_all st). change (_children s1) with (_children st).
    unfold contains_of in Hdiff.
    destruct (lookup_of st (_all st) parent), (lookup_of st (_children st) parent);
      try reflexivity; congruence. }
  now rewrite (bind_Raise _ _ _ _ _ (bind_Raise _ _ _ _ _ Hreg)).
Qed.

(** ** [branch] *)

Lemma registry_children_update (n : nat) (s s' : state) :
  registry_ok n s -> heap s' = heap s -> _all s' = _all s ->
  keys (_children s') = keys (_children s) ->
  Forall (children_entry_ok n s') (_children s') ->
  registry_ok n s'.
Proof.
  intros Hr Hh Ha Hk Hc.
  pose proof (agree_same_heap n s s' Hh) as Hag.
  pose proof (all_keys_ok n s _ (r_all Hr)) as Hks.
  constructor.
  - apply (heap_ok_frame n s s' [] Hag (r_heap Hr) Hks). now rewrite Ha, app_nil_r.
  - rewrite Ha. eapply Forall_impl; [|apply (r_all Hr)].
    intros e. now apply all_entry_ok_frame.
  - exact Hc.
  - rewrite Ha, Hk. apply (r_keys Hr).
  - intros p Hlt. rewrite Ha.
    apply (agree_covered n s s' Hag (r_heap Hr) _ p Hlt Hks). now apply (r_covered Hr).
  - rewrite Ha. apply (unique_frame n s s' _ Hag (r_heap Hr) Hks). apply (r_unique Hr).
Qed.

(** Adding a constructed node to the child set of a registered node. *)
Lemma children_add_Inv (st : state) (f : nat) (p item : nat) :
  Inv st -> p < length (heap st) -> item < length (heap st) ->
  length (heap st) < f ->
  exists st', children_add (run f) (VNode p) item st = Ok tt st' /\
              Inv st' /\ heap st' = heap st /\ _all st' = _all st.
Proof.
  intros HInv Hp Hitem Hf.
  set (N := length (heap st)) in *.
  destruct (covered_contains st _ p (r_covered HInv Hp)) as [i Hi].
  rewrite (r_keys HInv) in Hi.
  assert (Hcont : contains_of st (_children st) (VNode p) = true)
    by (unfold contains_of, lookup_of; now rewrite Hi).
  destruct (contains_lookup st (_children st) (VNode p) Hcont)
    as (j & hk & k & ws & Hlook & Hnth).
  pose proof (children_keys_ok N st _ (r_children HInv)) as Hkc.
  assert (Hfind : dict_find (run f) (_children st) (VNode p) st = Ok (Some j) st).
  { rewrite <- Hlook.
    apply (char_find N st f (r_heap HInv) (r_all HInv) Hf (_children st) (VNode p)
             Hp Hkc). }
  set (h := hash_of st (VNode item)).
  exists (added_state st item h j ws). split; [|split; [|split; reflexivity]].
  - apply (children_add_eval N st st f (VNode p) item h j hk k ws (r_heap HInv)
             (r_all HInv) (r_children HInv) Hf Hitem eq_refl
             (char_hash N st f (r_heap HInv) (r_all HInv) Hf (VNode item) Hitem)
             eq_refl Hfind Hnth).
  - unfold Inv. change (length (heap (added_state st item h j ws))) with N.
    apply (registry_children_update N st _ HInv); try reflexivity.
    + unfold added_state. cbn [_children set_children]. apply keys_upd.
    + apply (added_children_ok N st st item h j hk k ws (r_children HInv) Hitem
               eq_refl eq_refl Hnth).
Qed.

(** A successful [branch] leaves a well-formed registry with the identity
    map of the construction. *)
Lemma branch_Ok_inv (st : state) (f self : nat) (story : str) (n : nat) (st' : state) :
  Inv st -> self < length (heap st) -> S (length (heap st)) < f ->
  branch f self story st = Ok n st' ->
  n = length (heap st) /\ Inv st' /\
  exists u stc, UTF8.encode story = Some u /\
                constructed st story (VNode self) u stc /\
                heap st' = heap stc /\ _all st' = _all stc.
Proof.
  intros HInv Hself Hf H. unfold branch, Node_branch in H.
  destruct (Node_init_cases st story (VNode self) f HInv Hf Hself)
    as [(u & stc & Hu & _ & _ & E & Hc)|[[_ E]|[_ [s E]]]].
  - rewrite (bind_Ok _ _ _ _ _ E) in H.
    pose proof (c_inv Hc) as HInvc. pose proof (c_length Hc) as Hlc.
    destruct (children_add_Inv stc f self (length (heap st)) HInvc)
      as (st2 & Hadd & HInv2 & Hh2 & Ha2); try lia.
    rewrite (bind_Ok _ _ _ _ _ Hadd) in H. inversion H; subst.
    split; [reflexivity|]. split; [exact HInv2|]. exists u, stc. auto.
  - rewrite (bind_Raise _ _ _ _ _ E) in H. discriminate.
  - rewrite (bind_Raise _ _ _ _ _ E) in H. discriminate.
Qed.

Lemma sync_after_branch (st : state) (f self : nat) (story : str) (n : nat)
  (st' : state) :
  Inv st -> self < length (heap st) -> S (length (heap st)) < f ->
  branch f self story st = Ok n st' ->
  forall x, val_ok (length (heap st')) x ->
    exists b, dict_contains (run f) (_all st') x st' = Ok b st' /\
              dict_contains (run f) (_children st') x st' = Ok b st'.
Proof.
  intros HInv Hself Hf HB x Hx.
  destruct (branch_Ok_inv st f self story n st' HInv Hself Hf HB)
    as (_ & HInv' & u & stc & _ & Hc & Hh & _).
  assert (Hf' : length (heap st') < f)
    by (rewrite Hh, (c_length Hc); exact Hf).
  exists (contains_of st' (_all st') x). split.
  - apply Inv_contains; auto. apply (all_keys_ok _ st'). apply (r_all HInv').
  - rewrite (contains_keys st' (_all st') (_children st') x (r_keys HInv')).
    apply Inv_contains; auto. apply (children_keys_ok _ st').
    apply (r_children HInv').
Qed.

(** C7.  After a successful construction on a well-formed registry, by
    the constructor or by [branch], [x in Node._all] and
    [x in Node._children] give the same answer for every [x]; and when the
    parent is in exactly one of the two dictionaries, the construction of
    a node with a valid story raises [SyncError] and leaves both
    dictionaries as they were. *)
Theorem registry_sync :
  (forall st f self story n st',
     Inv st -> self < length (heap st) -> S (length (heap st)) < f ->
     branch f self story st = Ok n st' ->
     forall x, val_ok (length (heap st')) x ->
       exists b, dict_contains (run f) (_all st') x st' = Ok b st' /\
                 dict_contains (run f) (_children st') x st' = Ok b st') /\
  (forall st f story parent n st',
     Inv st -> val_ok (length (heap st)) parent -> S (length (heap st)) < f ->
     Node f story parent st = Ok n st' ->
     forall x, val_ok (length (heap st')) x ->
       exists b, dict_contains (run f) (_all st') x st' = Ok b st' /\
                 dict_contains (run f) (_children st') x st' = Ok b st') /\
  (forall st f story parent,
     drifted_ok st -> parent <> VNone -> val_ok (length (heap st)) parent ->
     length (heap st) < f ->
     length story <= STORY_SIZE -> existsb (N.eqb 0) story = false ->
     contains_of st (_all st) parent <> contains_of st (_children st) parent ->
     exists st', Node f story parent st = Raise SyncError st' /\
                 _all st' = _all st /\ _children st' = _children st).
Proof.
  split; [|split].
  - exact sync_after_branch.
  - exact sync_after_construction.
  - exact sync_error.
Qed.

(** ** Encoding and decoding *)

Lemma lstrip0_length (l : bytes) : length (lstrip0 l) <= length l.
Proof.
  induction l as [|b l IH]; simpl; [lia|].
  destruct (is_x00 b); simpl; lia.
Qed.

Lemma rstrip0_length (l : bytes) : length (rstrip0 l) <= length l.
Proof.
  unfold rstrip0. rewrite length_rev.
  pose proof (lstrip0_length (rev l)) as H. now rewrite length_rev in H.
Qed.

Lemma unpack_story_length (b p sf s : bytes) :
  unpack_N_FMT b = Some (p, sf, s) -> length sf <= STORY_SIZE.
Proof.
  unfold unpack_N_FMT. destruct (length b =? TOTAL_SIZE); [|discriminate].
  intros H.
  assert (E : sf = firstn STORY_SIZE (skipn DIGEST_SIZE b)) by congruence.
  rewrite E, length_firstn. apply Nat.le_min_l.
Qed.

Lemma from_bytes_eval (st : state) (f : nat) (b pf sf idf : bytes) (s : str) :
  Inv st -> S (length (heap st)) < f ->
  unpack_N_FMT b = Some (pf, sf, idf) ->
  UTF8.decode (rstrip0 sf) = Some s -> existsb (N.eqb 0) s = false ->
  exists st',
    constructed st s (decoded_parent pf) (rstrip0 sf) st' /\
    from_bytes f b st =
    if bytes_eqb idf (q_hash (key_id st (decoded_parent pf) ++ rstrip0 sf))
    then Ok (length (heap st)) st' else Raise ValueError st'.
Proof.
  intros HInv Hf Hun Hdec Hnull.
  pose proof (UTF8Facts.encode_decode _ _ Hdec) as Henc.
  assert (Hlen : length s <= STORY_SIZE).
  { pose proof (UTF8Facts.encode_length _ _ Henc).
    pose proof (rstrip0_length sf). pose proof (unpack_story_length _ _ _ _ Hun). lia. }
  assert (Hpar : val_ok (length (heap st)) (decoded_parent pf))
    by (unfold decoded_parent; destruct (bytes_eqb _ _); exact I).
  destruct (Node_init_ok st s (decoded_parent pf) (rstrip0 sf) f HInv Hf Hpar Henc
              Hlen Hnull) as (st' & HN & Hc).
  exists st'. split; [exact Hc|].
  unfold from_bytes, Node_from_bytes. rewrite Hun, Hdec.
  fold (decoded_parent pf). rewrite (bind_Ok _ _ _ _ _ HN).
  assert (Hsid : Node_sid (run f) (length (heap st)) st' =
                 Ok (q_hash (key_id st (decoded_parent pf) ++ rstrip0 sf)) st').
  { pose proof (Inv_sid st' f (length (heap st)) (c_inv Hc)) as Hs.
    unfold sid in Hs. rewrite Hs by (rewrite (c_length Hc); lia).
    unfold sid_of. now rewrite (c_node Hc). }
  rewrite (bind_Ok _ _ _ _ _ Hsid).
  now destruct (bytes_eqb idf _).
Qed.

(** On a slot-sized buffer [from_bytes] returns a node or raises a
    [ValueError]. *)
Lemma from_bytes_total (st : state) (f : nat) (b : bytes) :
  Inv st -> S (length (heap st)) < f -> length b = TOTAL_SIZE ->
  (exists n st', from_bytes f b st = Ok n st') \/
  (exists e st', from_bytes f b st = Raise e st' /\ is_ValueError e = true).
Proof.
  intros HInv Hf Hlen.
  destruct (unpack_total b Hlen) as (pf & sf & idf & Hun).
  destruct (UTF8.decode (rstrip0 sf)) as [s|] eqn:Hdec.
  - destruct (existsb (N.eqb 0) s) eqn:Hnull.
    + right. exists ValueError, st. split; [|reflexivity].
      unfold from_bytes, Node_from_bytes. rewrite Hun, Hdec.
      assert (Hl : length s <= STORY_SIZE).
      { pose proof (UTF8Facts.encode_length _ _ (UTF8Facts.encode_decode _ _ Hdec)).
        pose proof (rstrip0_length sf).
        pose proof (unpack_story_length _ _ _ _ Hun). lia. }
      now rewrite (bind_Raise _ _ _ _ _ (Node_init_null (run f) s _ st Hl Hnull)).
    + destruct (from_bytes_eval st f b pf sf idf s HInv Hf Hun Hdec Hnull)
        as (st' & _ & HE).
      rewrite HE. destruct (bytes_eqb idf _).
      * left. eauto.
      * right. exists ValueError, st'. auto.
  - right. exists UnicodeDecodeError, st. split; [|reflexivity].
    unfold from_bytes, Node_from_bytes. now rewrite Hun, Hdec.
Qed.

(** C9, for slot-sized input.  On a well-formed registry and a buffer of
    exactly [TOTAL_SIZE] bytes, [identify_block] returns the node that
    [from_bytes] returns, and returns [None], raising nothing, when
    [from_bytes] raises. *)
Theorem identify_block_slot (st : state) (f : nat) (b : bytes) :
  Inv st -> S (length (heap st)) < f -> length b = TOTAL_SIZE ->
  (exists n st', from_bytes f b st = Ok n st' /\
                 identify_block (run f) b st = Ok (Some n) st') \/
  (exists e st', from_bytes f b st = Raise e st' /\ is_ValueError e = true /\
                 identify_block (run f) b st = Ok None st').
Proof.
  intros HInv Hf Hlen.
  destruct (from_bytes_total st f b HInv Hf Hlen) as [(n & st' & H)|(e & st' & H & He)].
  - left. exists n, st'. split; [exact H|].
    unfold identify_block, try_except. unfold from_bytes in H.
    now rewrite (bind_Ok _ _ _ _ _ H).
  - right. exists e, st'. split; [exact H|]. split; [exact He|].
    unfold identify_block, try_except. unfold from_bytes in H.
    now rewrite (bind_Raise _ _ _ _ _ H), He.
Qed.

Lemma to_bytes_eval (st : state) (f n : nat) (u : bytes) :
  Inv st -> cache_ok st -> n < length (heap st) -> length (heap st) < f ->
  UTF8.encode (story_of st n) = Some u ->
  exists st1,
    to_bytes f n st = Ok (pack_N_FMT (pid_of st n) u (sid_of st n)) st1 /\
    Inv st1 /\ agree (length (heap st)) st st1 /\
    length (heap st1) = length (heap st).
Proof.
  intros HInv Hcache Hn Hf Hu.
  destruct (Inv_node st n HInv Hn) as (nd & u' & Hnd & Hu' & Hs & Hslot & Hv).
  assert (u' = u) by congruence. subst u'.
  assert (Hstory : _story nd = story_of st n) by (unfold story_of; now rewrite Hnd).
  unfold to_bytes, Node_to_bytes.
  rewrite (bind_Ok _ _ _ _ _ (get_node_Ok st n nd Hnd)).
  destruct (_bytes nd) as [b0|] eqn:Eb.
  - exists st. split; [|split; [exact HInv|split; [apply agree_refl|reflexivity]]].
    unfold cache_ok in Hcache. rewrite Forall_forall in Hcache.
    destruct (Hcache nd (nth_error_In _ _ Hnd) b0 Eb) as (u0 & s0 & Hu0 & Hs0 & ->).
    unfold ret. do 2 f_equal.
    + unfold pid_of. now rewrite Hslot.
    + rewrite Hstory in Hu0. congruence.
    + unfold sid_of. now rewrite Hnd, Hs0.
  - pose proof (Inv_pid st f n HInv Hn Hf) as Hp. unfold pid in Hp.
    rewrite (bind_Ok _ _ _ _ _ Hp). rewrite Hstory, Hu.
    pose proof (Inv_sid st f n HInv Hn) as Hsid. unfold sid in Hsid.
    rewrite (bind_Ok _ _ _ _ _ Hsid).
    rewrite pack_N_FMT_length, Nat.eqb_refl.
    eexists. split; [reflexivity|].
    set (b := pack_N_FMT (pid_of st n) u (sid_of st n)).
    set (st1 := set_heap (upd (heap st) n
                  (fun x => mkNode (_story x) (_parent x) (_sid x) (Some b))) st).
    assert (Hag : agree (length (heap st)) st st1).
    { intros i Hi. unfold st1. cbn [heap set_heap].
      destruct (Nat.eq_dec n i) as [<-|Hne].
      - rewrite nth_error_upd_eq, Hnd. reflexivity.
      - now rewrite nth_error_upd_neq. }
    assert (Hl : length (heap st1) = length (heap st))
      by (unfold st1; cbn [heap set_heap]; apply upd_length).
    split; [|split; [exact Hag|exact Hl]].
    unfold Inv. rewrite Hl. now apply (registry_ok_frame _ st st1).
Qed.

(** C2, for nodes whose parent identity is not the root sentinel.  A node
    of a well-formed registry whose story has at most [STORY_SIZE] bytes
    and no null character, and whose parent identity is empty (a root) or
    a 64-byte value other than 64 null bytes, is decoded from its encoding
    as an equal node: same story, same sid, same parent identity, and the
    sid in the last 64 bytes of the encoding is the sid of the decoded
    node. *)
Theorem round_trip (st : state) (f n : nat) (u : bytes) :
  Inv st -> cache_ok st -> n < length (heap st) -> S (length (heap st)) < f ->
  UTF8.encode (story_of st n) = Some u -> length u <= STORY_SIZE ->
  existsb (N.eqb 0) (story_of st n) = false ->
  (pid_of st n = [] \/
   (length (pid_of st n) = DIGEST_SIZE /\ pid_of st n <> zeros DIGEST_SIZE)) ->
  exists b st1 m st2 s p,
    to_bytes f n st = Ok b st1 /\
    from_bytes f b st1 = Ok m st2 /\
    story_of st2 m = story_of st n /\
    sid f m st2 = Ok s st2 /\ sid f n st2 = Ok s st2 /\
    pid f m st2 = Ok p st2 /\ pid f n st2 = Ok p st2 /\
    eq f (VNode m) (VNode n) st2 = Ok true st2 /\
    skipn (DIGEST_SIZE + STORY_SIZE) b = s.
Proof.
  intros HInv Hcache Hn Hf Hu Hlen Hnull Hpid.
  set (N := length (heap st)) in *.
  assert (HfN : N < f) by lia.
  destruct (to_bytes_eval st f n u HInv Hcache Hn HfN Hu)
    as (st1 & Hto & HInv1 & Hag1 & Hl1).
  fold N in Hag1, Hl1.
  destruct (Inv_node st n HInv Hn) as (nd & u' & Hnd & Hu' & Hs & Hslot & Hv).
  assert (u' = u) by congruence. subst u'.
  set (P := pid_of st n) in *. set (sd := sid_of st n) in *.
  set (b := pack_N_FMT P u sd) in *.
  assert (Hsdl : length sd = DIGEST_SIZE) by (rewrite Hs; apply q_hash_length).
  assert (Hun : unpack_N_FMT b = Some (fit DIGEST_SIZE P, fit STORY_SIZE u, sd)).
  { unfold b. rewrite unpack_pack. now rewrite (fit_exact _ sd Hsdl). }
  assert (Hstrip : rstrip0 (fit STORY_SIZE u) = u).
  { apply rstrip0_fit; [exact Hlen|].
    now apply (UTF8Facts.encode_no_null (story_of st n)). }
  assert (Hdec : UTF8.decode (rstrip0 (fit STORY_SIZE u)) = Some (story_of st n)).
  { rewrite Hstrip. now apply UTF8Facts.decode_encode. }
  assert (Hf1 : S (length (heap st1)) < f) by (rewrite Hl1; exact Hf).
  destruct (from_bytes_eval st1 f b _ _ _ _ HInv1 Hf1 Hun Hdec Hnull)
    as (st2 & Hc & Hfrom).
  rewrite Hstrip in Hc, Hfrom.
  set (par := decoded_parent (fit DIGEST_SIZE P)) in *.
  assert (Hkid : key_id st1 par = P).
  { unfold par, decoded_parent. destruct Hpid as [E|[E1 E2]].
    - rewrite E, fit_nil, bytes_eqb_refl. reflexivity.
    - rewrite (fit_exact _ P E1).
      destruct (bytes_eqb P (zeros DIGEST_SIZE)) eqn:Ez; [|reflexivity].
      apply bytes_eqb_eq in Ez. contradiction. }
  rewrite Hkid in Hfrom.
  assert (Hsd : q_hash (P ++ u) = sd) by (symmetry; exact Hs).
  rewrite Hsd, bytes_eqb_refl, Hl1 in Hfrom.
  pose proof (c_inv Hc) as HInv2.
  pose proof (c_length Hc) as Hl2. rewrite Hl1 in Hl2.
  pose proof (same_below_agree _ _ _ (c_same Hc)) as Hag2. rewrite Hl1 in Hag2.
  pose proof (c_node Hc) as Hnode. rewrite Hl1, Hkid, Hsd in Hnode.
  assert (Hag : agree N st st2) by (apply (agree_trans N st st1 st2); auto).
  assert (Hn2 : n < length (heap st2)) by lia.
  assert (HN2 : N < length (heap st2)) by lia.
  assert (Hf2 : length (heap st2) < f) by lia.
  assert (Es : sid_of st2 n = sd) by (apply (agree_sid N st st2 Hag n Hn)).
  assert (Ep : pid_of st2 n = P)
    by (apply (agree_pid N st st2 Hag (r_heap HInv) n Hn)).
  assert (Et : story_of st2 n = story_of st n)
    by (apply (agree_story N st st2 Hag n Hn)).
  assert (EsN : sid_of st2 N = sd) by (unfold sid_of; now rewrite Hnode).
  assert (EtN : story_of st2 N = story_of st n)
    by (unfold story_of; now rewrite Hnode).
  assert (EpN : pid_of st2 N = P).
  { unfold pid_of, slot_of. rewrite Hnode. cbn [_parent].
    rewrite <- Hkid. apply (agree_key_id (length (heap st1)) st1 st2).
    - apply same_below_agree. apply (c_same Hc).
    - unfold par, decoded_parent. destruct (bytes_eqb _ _); exact I. }
  exists b, st1, N, st2, sd, P.
  split; [exact Hto|]. split; [exact Hfrom|]. split; [exact EtN|].
  split; [rewrite <- EsN; now apply Inv_sid|].
  split; [rewrite <- Es; now apply Inv_sid|].
  split; [rewrite <- EpN; now apply Inv_pid|].
  split; [rewrite <- Ep; now apply Inv_pid|].
  split.
  - rewrite (Inv_eq st2 f (VNode N) (VNode n) HInv2 Hf2 HN2 Hn2). cbn [eq_of].
    now rewrite Ep, EpN, Et, EtN, bytes_eqb_refl, str_eqb_refl.
  - unfold b, pack_N_FMT. rewrite app_assoc.
    rewrite skipn_app_exact by (rewrite length_app, !fit_length; reflexivity).
    now apply fit_exact.
Qed.

(** ** Retrace *)

Lemma retrace_loop_walk (st : state) (f : nat) (stop : value) :
  Inv st -> length (heap st) < f -> val_ok (length (heap st)) stop ->
  forall cur l, retrace_walk st stop cur l ->
  forall k acc, cur < length (heap st) -> length l < k ->
    retrace_loop (run f) k cur stop acc st = Ok (acc ++ l) st.
Proof.
  intros HInv Hf Hstop cur l Hw.
  induction Hw as [cur He|cur d Hp He|cur Hp|cur p l Hp He Hw IH];
    intros k acc Hcur Hk; (destruct k as [|k]; [simpl in Hk; lia|]);
    cbn [retrace_loop];
    pose proof (Inv_parent st f cur HInv Hcur Hf) as Hpar; unfold parent in Hpar;
    destruct (Inv_parent_id st cur HInv Hcur) as [_ Hpv];
    pose proof (Inv_eq st f (parent_of st cur) stop HInv Hf Hpv Hstop) as Heq;
    unfold eq in Heq;
    assert (Hne : py_ne (run f) (parent_of st cur) stop st =
                  Ok (negb (eq_of st (parent_of st cur) stop)) st)
      by (unfold py_ne; now rewrite (bind_Ok _ _ _ _ _ Heq));
    rewrite (bind_Ok _ _ _ _ _ Hpar), (bind_Ok _ _ _ _ _ Hne).
  - rewrite He. cbn [negb]. now rewrite app_nil_r.
  - rewrite Hp in *. rewrite He. cbn [negb].
    rewrite (bind_Ok _ _ _ _ _ Hpar). now rewrite app_nil_r.
  - rewrite Hp in *. destruct (eq_of st VNone stop); cbn [negb].
    + now rewrite app_nil_r.
    + rewrite !(bind_Ok _ _ _ _ _ Hpar). now rewrite app_nil_r.
  - rewrite Hp in *. rewrite He. cbn [negb].
    rewrite !(bind_Ok _ _ _ _ _ Hpar).
    rewrite (IH k (acc ++ [p]) Hpv); [|simpl in Hk; lia].
    now rewrite <- app_assoc.
Qed.

(** ** The chain of the example *)

Lemma find_keys_app_Some (st : state) (h : hashv) (key : value)
  (l1 l2 : list (hashv * value)) :
  forall i j, find_keys st h key l1 i = Some j ->
              find_keys st h key (l1 ++ l2) i = Some j.
Proof.
  induction l1 as [|[hk k] l1 IH]; intros i j H; simpl in *; [discriminate|].
  destruct (matches st h key hk k); auto.
Qed.

Lemma find_keys_app_None (st : state) (h : hashv) (key : value)
  (l1 l2 : list (hashv * value)) :
  forall i, find_keys st h key l1 i = None ->
            find_keys st h key (l1 ++ l2) i = find_keys st h key l2 (i + length l1).
Proof.
  induction l1 as [|[hk k] l1 IH]; intros i H; simpl in *.
  - now rewrite Nat.add_0_r.
  - destruct (matches st h key hk k); [discriminate|].
    rewrite IH by exact H. f_equal. lia.
Qed.

Lemma matches_nodes (st : state) (h hk : hashv) (x q : nat) :
  matches st h (VNode x) hk (VNode q) = true ->
  pid_of st q = pid_of st x /\ story_of st q = story_of st x.
Proof.
  unfold matches. intros H. apply orb_true_iff in H. destruct H as [H|H].
  - simpl in H. apply Nat.eqb_eq in H. now subst.
  - apply andb_true_iff in H. destruct H as [_ H]. simpl in H.
    apply andb_true_iff in H. destruct H as [H1 H2].
    apply bytes_eqb_eq in H1. apply str_eqb_eq in H2. auto.
Qed.

Lemma eq_of_nodes (st : state) (a b : nat) :
  pid_of st a = pid_of st b -> story_of st a = story_of st b ->
  eq_of st (VNode a) (VNode b) = true.
Proof.
  intros H1 H2. simpl. now rewrite H1, H2, bytes_eqb_refl, str_eqb_refl.
Qed.

(** After [d[n] = n] a lookup of [n] answers [n]. *)
Lemma setitem_holds (st : state) (d : dict value) (n : nat) :
  exists idx h k,
    lookup_of st (setitem_of st d (VNode n) (VNode n)) (VNode n) = Some idx /\
    nth_error (setitem_of st d (VNode n) (VNode n)) idx = Some (h, k, VNode n).
Proof.
  unfold setitem_of. destruct (lookup_of st d (VNode n)) as [i|] eqn:E.
  - pose proof E as E'. unfold lookup_of in E'. apply find_keys_Some in E'.
    destruct E' as (hk & k & Hn & _). rewrite Nat.sub_0_r in Hn.
    apply nth_error_keys in Hn. destruct Hn as [v Hn].
    exists i, hk, k. split.
    + unfold lookup_of. rewrite keys_upd. exact E.
    + rewrite nth_error_upd_eq, Hn. reflexivity.
  - exists (length d), (hash_of st (VNode n)), (VNode n). split.
    + unfold lookup_of in *. rewrite keys_app.
      rewrite find_keys_app_None by exact E.
      cbn [keys map find_keys fst]. rewrite matches_refl by discriminate.
      f_equal. unfold keys. now rewrite length_map.
    + rewrite nth_error_app2 by lia. now rewrite Nat.sub_diag.
Qed.

(** [d[n] = n] leaves the answer for a node that is not equal to [n]. *)
Lemma setitem_keeps (st : state) (d : dict value) (n m j : nat) (h : hashv)
  (k : value) :
  Forall (fun e => match snd e with VNode _ => True | _ => False end) (keys d) ->
  lookup_of st d (VNode m) = Some j -> nth_error d j = Some (h, k, VNode m) ->
  eq_of st (VNode m) (VNode n) = false ->
  lookup_of st (setitem_of st d (VNode n) (VNode n)) (VNode m) = Some j /\
  nth_error (setitem_of st d (VNode n) (VNode n)) j = Some (h, k, VNode m).
Proof.
  intros Hnk Hl Hn He. unfold setitem_of.
  destruct (lookup_of st d (VNode n)) as [i|] eqn:E.
  - split; [unfold lookup_of; rewrite keys_upd; exact Hl|].
    destruct (Nat.eq_dec i j) as [Eij|Hij]; [exfalso|now rewrite nth_error_upd_neq].
    subst i. unfold lookup_of in Hl, E.
    apply find_keys_Some in Hl. apply find_keys_Some in E.
    destruct Hl as (hk1 & k1 & Hn1 & Hm1 & _).
    destruct E as (hk2 & k2 & Hn2 & Hm2 & _).
    rewrite Nat.sub_0_r in *. rewrite Hn1 in Hn2. inversion Hn2; subst hk2 k2.
    assert (Hin : In (hk1, k1) (keys d)) by (eapply nth_error_In; eauto).
    rewrite Forall_forall in Hnk. specialize (Hnk _ Hin). simpl in Hnk.
    destruct k1 as [| |q]; try contradiction.
    apply matches_nodes in Hm1. apply matches_nodes in Hm2.
    destruct Hm1 as [P1 S1], Hm2 as [P2 S2].
    rewrite eq_of_nodes in He; [discriminate|congruence|congruence].
  - split.
    + unfold lookup_of in *. rewrite keys_app. now apply find_keys_app_Some.
    + rewrite nth_error_app1; auto. apply nth_error_Some. congruence.
Qed.

Lemma current_same (s s' : state) (m : nat) :
  heap s' = heap s -> _all s' = _all s -> current s m -> current s' m.
Proof.
  intros Hh Ha (j & h & k & Hl & Hn). exists j, h, k. rewrite Ha. split; auto.
  rewrite <- Hl. now apply lookup_of_heap.
Qed.

Lemma node_fields (st : state) (i : nat) (nd : node) :
  nth_error (heap st) i = Some nd ->
  slot_of st i = _parent nd /\ story_of st i = _story nd.
Proof. intros H. unfold slot_of, story_of. now rewrite H. Qed.

Lemma same_heap_fields (s s' : state) (i : nat) :
  heap s' = heap s ->
  slot_of s' i = slot_of s i /\ story_of s' i = story_of s i.
Proof. intros H. unfold slot_of, story_of. now rewrite H. Qed.

Lemma same_below_fields (n : nat) (s s' : state) (i : nat) :
  same_below n s s' -> i < n ->
  slot_of s' i = slot_of s i /\ story_of s' i = story_of s i.
Proof. intros H Hi. unfold slot_of, story_of. now rewrite (H i Hi). Qed.

(** A node built on a parent given as an object, or on none: the identity
    map answers it with itself, and keeps its answers for the nodes that
    are not equal to it. *)
Lemma constructed_current (st : state) (story : str) (parent : value) (u : bytes)
  (st' : state) :
  Inv st -> constructed st story parent u st' ->
  match parent with VBytes _ => False | _ => True end ->
  node_keys st ->
  node_keys st' /\ current st' (length (heap st)) /\
  forall m, m < length (heap st) -> current st m ->
    eq_of st' (VNode m) (VNode (length (heap st))) = false -> current st' m.
Proof.
  intros HInv Hc Hpar Hnk. destruct (c_all Hc) as (d & _ & Hd & Hall).
  assert (Ed : d = _all st) by (destruct parent; auto; contradiction). subst d.
  split; [|split].
  - unfold node_keys. rewrite Hall, keys_setitem. apply Forall_app.
    split; [exact Hnk|].
    destruct (contains_of st' (_all st) (VNode (length (heap st)))); constructor;
      simpl; auto.
  - unfold current. rewrite Hall. apply setitem_holds.
  - intros m Hm (j & h & k & Hl & Hn) He. unfold current. rewrite Hall.
    exists j, h, k. apply setitem_keeps; auto.
    rewrite (agree_lookup _ st st' (same_below_agree _ _ _ (c_same Hc)) (r_heap HInv)
               (_all st) (VNode m) Hm (all_keys_ok _ st _ (r_all HInv))).
    exact Hl.
Qed.

Lemma root_grown (st : state) (f : nat) (story : str) (u : bytes) :
  Inv st -> node_keys st -> S (length (heap st)) < f ->
  UTF8.encode story = Some u -> length story <= STORY_SIZE ->
  existsb (N.eqb 0) story = false ->
  exists st', Node f story VNone st = Ok (length (heap st)) st' /\
              grown st story VNone st'.
Proof.
  intros HInv Hnk Hf Hu Hlen Hnull.
  destruct (Node_init_ok st story VNone u f HInv Hf I Hu Hlen Hnull) as (st' & E & Hc).
  destruct (constructed_current st story VNone u st' HInv Hc I Hnk) as (H1 & H2 & H3).
  destruct (node_fields st' _ _ (c_node Hc)) as [Hs Hst].
  exists st'. split; [exact E|].
  refine (conj (c_inv Hc) (conj H1 (conj (c_length Hc) (conj H2 (conj Hs (conj Hst
            (conj _ H3))))))).
  intros m Hm. apply (same_below_fields _ st st' m (c_same Hc) Hm).
Qed.

Lemma branch_grown (st : state) (f self : nat) (story : str) (u : bytes) :
  Inv st -> node_keys st -> self < length (heap st) -> S (length (heap st)) < f ->
  UTF8.encode story = Some u -> length story <= STORY_SIZE ->
  existsb (N.eqb 0) story = false ->
  exists st', branch f self story st = Ok (length (heap st)) st' /\
              grown st story (VNode self) st'.
Proof.
  intros HInv Hnk Hself Hf Hu Hlen Hnull.
  destruct (Node_init_ok st story (VNode self) u f HInv Hf Hself Hu Hlen Hnull)
    as (stc & E & Hc).
  destruct (children_add_Inv stc f self (length (heap st)) (c_inv Hc))
    as (st' & Hadd & HInv' & Hh & Ha); try (rewrite (c_length Hc); lia).
  destruct (constructed_current st story (VNode self) u stc HInv Hc I Hnk)
    as (H1 & H2 & H3).
  destruct (node_fields stc _ _ (c_node Hc)) as [Hs Hst].
  exists st'. split.
  - unfold branch, Node_branch. unfold Node in E.
    now rewrite (bind_Ok _ _ _ _ _ E), (bind_Ok _ _ _ _ _ Hadd).
  - refine (conj HInv' (conj _ (conj _ (conj _ (conj _ (conj _ (conj _ _))))))).
    + unfold node_keys. now rewrite Ha.
    + rewrite Hh. apply (c_length Hc).
    + now apply (current_same stc st').
    + destruct (same_heap_fields stc st' (length (heap st)) Hh) as [E1 _].
      now rewrite E1.
    + destruct (same_heap_fields stc st' (length (heap st)) Hh) as [_ E2].
      now rewrite E2.
    + intros m Hm. destruct (same_heap_fields stc st' m Hh) as [E1 E2].
      rewrite E1, E2. apply (same_below_fields _ st stc m (c_same Hc) Hm).
    + intros m Hm Hcur He. apply (current_same stc st'); auto.
      apply H3; auto. rewrite <- He. now apply eq_of_heap.
Qed.

Lemma parent_of_current (st : state) (m p : nat) :
  slot_of st m = VNode p -> current st p -> parent_of st m = VNode p.
Proof.
  intros Hs (j & h & k & Hl & Hn). unfold parent_of. now rewrite Hs, Hl, Hn.
Qed.

Lemma parent_of_root (st : state) (m : nat) :
  Inv st -> slot_of st m = VNone -> parent_of st m = VNone.
Proof.
  intros HInv Hs. unfold parent_of. rewrite Hs.
  destruct (lookup_of st (_all st) VNone) as [i|] eqn:E; [|reflexivity].
  exfalso. unfold lookup_of in E. apply find_keys_Some in E.
  destruct E as (hk & k & Hn & Hm & _). rewrite Nat.sub_0_r in Hn.
  apply nth_error_keys in Hn. destruct Hn as [v Hn]. apply nth_error_In in Hn.
  pose proof (r_all HInv) as Hall. rewrite Forall_forall in Hall.
  destruct (Hall _ Hn) as [[Hk _] _].
  unfold matches in Hm. destruct k; [congruence| |]; simpl in Hm;
    rewrite andb_false_r in Hm; discriminate.
Qed.

(** A node with a node as parent is not equal to a root. *)
Lemma eq_of_root_child (st : state) (m n p : nat) :
  Inv st -> p < length (heap st) -> slot_of st m = VNone -> slot_of st n = VNode p ->
  eq_of st (VNode m) (VNode n) = false.
Proof.
  intros HInv Hp Hm Hn. simpl. unfold pid_of. rewrite Hm, Hn. simpl.
  destruct (Inv_node st p HInv Hp) as (nd & u & _ & _ & Hs & _).
  pose proof (q_hash_length (pid_of st p ++ u)) as Hl. rewrite <- Hs in Hl.
  replace (bytes_eqb (sid_of st p) []) with false; [reflexivity|].
  symmetry. apply bytes_eqb_neq. intros E. rewrite E in Hl. discriminate Hl.
Qed.

Lemma eq_of_stories (st : state) (m n : nat) :
  story_of st n <> story_of st m -> eq_of st (VNode m) (VNode n) = false.
Proof.
  intros H. simpl. replace (str_eqb (story_of st n) (story_of st m)) with false.
  - apply andb_false_r.
  - symmetry. destruct (str_eqb (story_of st n) (story_of st m)) eqn:E; auto.
    apply str_eqb_eq in E. contradiction.
Qed.

(** The example of the specification, for every root story, in every
    registry built from roots and branches. *)
Lemma example_retrace (st : state) (f : nat) (sr : str) (ur : bytes) :
  Inv st -> node_keys st ->
  UTF8.encode sr = Some ur -> length sr <= STORY_SIZE ->
  existsb (N.eqb 0) sr = false -> length (heap st) + 3 < f ->
  exists r a b st1 st2 st3,
    Node f sr VNone st = Ok r st1 /\
    branch f r [120%N] st1 = Ok a st2 /\
    branch f a [121%N] st2 = Ok b st3 /\
    retrace f b VNone st3 = Ok [b; a; r] st3 /\
    retrace f b (VNode a) st3 = Ok [b] st3.
Proof.
  intros HInv Hnk Hu Hlen Hnull Hf.
  set (r := length (heap st)).
  destruct (root_grown st f sr ur HInv Hnk) as (st1 & E1 & G1); auto; [lia|].
  destruct G1 as (HInv1 & Hnk1 & Hl1 & Hc1 & Hs1 & _ & _ & _). fold r in Hl1, Hc1, Hs1.
  assert (Ex : UTF8.encode [120%N] = Some [x78]) by (vm_compute; reflexivity).
  assert (Ey : UTF8.encode [121%N] = Some [x79]) by (vm_compute; reflexivity).
  assert (Hone : forall c : N, length [c] <= STORY_SIZE)
    by (intros c; unfold STORY_SIZE; simpl; lia).
  destruct (branch_grown st1 f r [120%N] [x78] HInv1 Hnk1) as (st2 & E2 & G2);
    [rewrite Hl1; lia|rewrite Hl1; unfold r; lia|exact Ex|apply Hone|reflexivity|].
  destruct G2 as (HInv2 & Hnk2 & Hl2 & Hc2 & Hs2 & Ht2 & Hsame2 & Hkeep2).
  rewrite Hl1 in *.
  destruct (Hsame2 r (Nat.lt_succ_diag_r r)) as [Hs2r _]. rewrite Hs1 in Hs2r.
  assert (Hc2r : current st2 r).
  { apply Hkeep2; auto.
    apply (eq_of_root_child st2 r (S r) r HInv2); auto. rewrite Hl2. lia. }
  destruct (branch_grown st2 f (S r) [121%N] [x79] HInv2 Hnk2) as (st3 & E3 & G3);
    [rewrite Hl2; lia|rewrite Hl2; unfold r; lia|exact Ey|apply Hone|reflexivity|].
  destruct G3 as (HInv3 & Hnk3 & Hl3 & Hc3 & Hs3 & Ht3 & Hsame3 & Hkeep3).
  rewrite Hl2 in *.
  destruct (Hsame3 r) as [Hs3r _]; [lia|]. rewrite Hs2r in Hs3r.
  destruct (Hsame3 (S r)) as [Hs3a Ht3a]; [lia|]. rewrite Hs2 in Hs3a.
  rewrite Ht2 in Ht3a.
  assert (Hc3a : current st3 (S r)).
  { apply Hkeep3; auto. apply eq_of_stories. rewrite Ht3, Ht3a. discriminate. }
  assert (Hc3r : current st3 r).
  { apply Hkeep3; auto.
    apply (eq_of_root_child st3 r (S (S r)) (S r) HInv3); auto. rewrite Hl3. lia. }
  pose proof (parent_of_current st3 (S (S r)) (S r) Hs3 Hc3a) as Pb.
  pose proof (parent_of_current st3 (S r) r Hs3a Hc3r) as Pa.
  pose proof (parent_of_root st3 r HInv3 Hs3r) as Pr.
  assert (Hf3 : length (heap st3) < f) by (rewrite Hl3; unfold r; lia).
  assert (Hb3 : S (S r) < length (heap st3)) by (rewrite Hl3; lia).
  assert (Ha3 : val_ok (length (heap st3)) (VNode (S r))) by (simpl; lia).
  assert (W1 : retrace_walk st3 VNone (S (S r)) [S r; r]).
  { apply (@walk_step st3 VNone (S (S r)) (S r) [r] Pb eq_refl).
    apply (@walk_step st3 VNone (S r) r [] Pa eq_refl).
    now apply walk_root. }
  assert (W2 : retrace_walk st3 (VNode (S r)) (S (S r)) []).
  { apply walk_stop. rewrite Pb. now apply eq_of_nodes. }
  exists r, (S r), (S (S r)), st1, st2, st3.
  refine (conj E1 (conj E2 (conj E3 (conj _ _)))).
  - unfold retrace, Node_retrace.
    apply (retrace_loop_walk st3 f VNone HInv3 Hf3 I (S (S r)) [S r; r] W1 f
             [S (S r)] Hb3).
    simpl. lia.
  - unfold retrace, Node_retrace.
    apply (retrace_loop_walk st3 f (VNode (S r)) HInv3 Hf3 Ha3 (S (S r)) [] W2 f
             [S (S r)] Hb3).
    simpl. lia.
Qed.

(** The chain with the root story "r", run in the empty registry. *)
Lemma example_chain_run :
  example_chain empty_state = Ok (0, 1, 2) example_state /\
  retrace 5 2 VNone example_state = Ok [2; 1; 0] example_state /\
  retrace 5 2 (VNode 1) example_state = Ok [2] example_state.
Proof. split; [|split]; vm_compute; reflexivity. Qed.

(** C4.  On a well-formed registry [retrace] returns the node followed by
    the walk towards the root that stops, without listing the parent, when
    the parent equals [stop], is an unresolved digest, or is absent.  For
    a root [R] built with any valid story in a registry built from roots
    and branches, [A = R.branch("x")] and [B = A.branch("y")],
    [B.retrace()] is [[B; A; R]] and [B.retrace(stop=A)] is [[B]]. *)
Theorem retrace_walks :
  (forall st f n stop l,
     Inv st -> n < length (heap st) -> val_ok (length (heap st)) stop ->
     retrace_walk st stop n l ->
     length (heap st) < f -> length l < f ->
     retrace f n stop st = Ok (n :: l) st) /\
  (forall st f sr ur,
     Inv st -> node_keys st ->
     UTF8.encode sr = Some ur -> length sr <= STORY_SIZE ->
     existsb (N.eqb 0) sr = false -> length (heap st) + 3 < f ->
     exists r a b st1 st2 st3,
       Node f sr VNone st = Ok r st1 /\
       branch f r [120%N] st1 = Ok a st2 /\
       branch f a [121%N] st2 = Ok b st3 /\
       retrace f b VNone st3 = Ok [b; a; r] st3 /\
       retrace f b (VNode a) st3 = Ok [b] st3).
Proof.
  split.
  - intros st f n stop l HInv Hn Hstop Hw Hf Hl.
    unfold retrace, Node_retrace.
    apply (retrace_loop_walk st f stop HInv Hf Hstop n l Hw f [n] Hn Hl).
  - exact example_retrace.
Qed.

(** ** Tampering *)

Lemma lstrip0_split (l : bytes) : exists k, l = zeros k ++ lstrip0 l.
Proof.
  induction l as [|b l [k IH]]; [exists 0; reflexivity|].
  simpl. unfold is_x00. destruct (Byte.eqb b x00) eqn:E.
  - apply Byte.byte_dec_bl in E. subst b. exists (S k). simpl. f_equal. exact IH.
  - exists 0. reflexivity.
Qed.

Lemma rstrip0_split (l : bytes) : exists k, l = rstrip0 l ++ zeros k.
Proof.
  destruct (lstrip0_split (rev l)) as [k Hk]. exists k. unfold rstrip0.
  rewrite <- (rev_zeros k), <- rev_app_distr, <- Hk. symmetry.
  apply rev_involutive.
Qed.

(** A story field that strips to [u] is [u] padded. *)
Lemma rstrip0_fit_inv (sf u : bytes) (n : nat) :
  length sf = n -> rstrip0 sf = u -> sf = fit n u.
Proof.
  intros Hl Hr. destruct (rstrip0_split sf) as [k Hk]. rewrite Hr in Hk.
  assert (Hlu : length u <= n).
  { rewrite <- Hl, Hk, length_app. lia. }
  rewrite (fit_short n u Hlu), Hk. f_equal. f_equal.
  rewrite Hk, length_app, zeros_length in Hl. lia.
Qed.

Lemma unpack_fields (pf sf idf : bytes) :
  length pf = DIGEST_SIZE -> length sf = STORY_SIZE -> length idf = DIGEST_SIZE ->
  unpack_N_FMT (pf ++ sf ++ idf) = Some (pf, sf, idf).
Proof.
  intros H1 H2 H3. rewrite <- (fit_exact _ pf H1) at 1.
  rewrite <- (fit_exact _ sf H2) at 1. rewrite <- (fit_exact _ idf H3) at 1.
  fold (pack_N_FMT pf sf idf). rewrite unpack_pack.
  now rewrite (fit_exact _ pf H1), (fit_exact _ sf H2), (fit_exact _ idf H3).
Qed.

Lemma unpack_fields_of (b pf sf idf : bytes) :
  unpack_N_FMT b = Some (pf, sf, idf) ->
  length b = TOTAL_SIZE /\ pf = firstn DIGEST_SIZE b /\
  sf = firstn STORY_SIZE (skipn DIGEST_SIZE b) /\
  idf = skipn (DIGEST_SIZE + STORY_SIZE) b.
Proof.
  unfold unpack_N_FMT. destruct (length b =? TOTAL_SIZE) eqn:E; [|discriminate].
  apply Nat.eqb_eq in E. intros H. inversion H. auto.
Qed.

Lemma key_id_decoded (st : state) (pf : bytes) :
  key_id st (decoded_parent pf) =
  match decoded_parent pf with VBytes d => d | _ => [] end.
Proof. unfold decoded_parent. now destruct (bytes_eqb pf (zeros DIGEST_SIZE)). Qed.

Lemma slot_hash_input_fields (st : state) (pf sf idf : bytes) :
  length pf = DIGEST_SIZE -> length sf = STORY_SIZE -> length idf = DIGEST_SIZE ->
  slot_hash_input (pf ++ sf ++ idf) = key_id st (decoded_parent pf) ++ rstrip0 sf.
Proof.
  intros H1 H2 H3.
  destruct (unpack_fields_of _ _ _ _ (unpack_fields pf sf idf H1 H2 H3))
    as (_ & Epf & Esf & _).
  unfold slot_hash_input. rewrite <- Epf, <- Esf. now rewrite key_id_decoded.
Qed.

(** A slot whose parent field or story field, not both, differs from the
    encoding of a node: the bytes [from_bytes] hashes are not the bytes
    the sid of the node was computed from. *)
Lemma tampered_input_differs (st : state) (P u pf sf : bytes) :
  (P = [] \/ (length P = DIGEST_SIZE /\ P <> zeros DIGEST_SIZE)) ->
  length pf = DIGEST_SIZE -> length sf = STORY_SIZE ->
  (pf = fit DIGEST_SIZE P /\ sf <> fit STORY_SIZE u) \/
  (sf = fit STORY_SIZE u /\ length u <= STORY_SIZE /\ ~ In x00 u /\
   pf <> fit DIGEST_SIZE P) ->
  key_id st (decoded_parent pf) ++ rstrip0 sf <> P ++ u.
Proof.
  intros HP Hlp Hls Hcase Heq.
  assert (Hfit : key_id st (decoded_parent (fit DIGEST_SIZE P)) = P).
  { unfold decoded_parent. destruct HP as [E|[E1 E2]].
    - rewrite E, fit_nil, bytes_eqb_refl. reflexivity.
    - rewrite (fit_exact _ P E1).
      destruct (bytes_eqb P (zeros DIGEST_SIZE)) eqn:Ez; [|reflexivity].
      apply bytes_eqb_eq in Ez. contradiction. }
  destruct Hcase as [[Epf Hsf]|(Esf & Hlu & Hnz & Hpf)].
  - subst pf. rewrite Hfit in Heq. apply app_inv_head in Heq.
    apply Hsf. apply rstrip0_fit_inv; auto.
  - subst sf. rewrite (rstrip0_fit u STORY_SIZE Hlu Hnz) in Heq.
    apply app_inv_tail in Heq. apply Hpf.
    unfold decoded_parent in Heq.
    destruct (bytes_eqb pf (zeros DIGEST_SIZE)) eqn:Ez.
    + apply bytes_eqb_eq in Ez. simpl in Heq. subst P. now rewrite fit_nil.
    + simpl in Heq. subst P. symmetry. now apply fit_exact.
Qed.

(** Such a slot under the sid of the node: [from_bytes] raises a
    [ValueError], or it returns a node whose sid is the digest of the
    tampered bytes, and then the tampered bytes and the original ones are
    two different inputs with one SHA-512 digest. *)
Lemma tampered_fields (st : state) (f : nat) (P u pf sf : bytes) :
  Inv st -> S (length (heap st)) < f ->
  (P = [] \/ (length P = DIGEST_SIZE /\ P <> zeros DIGEST_SIZE)) ->
  length pf = DIGEST_SIZE -> length sf = STORY_SIZE ->
  (pf = fit DIGEST_SIZE P /\ sf <> fit STORY_SIZE u) \/
  (sf = fit STORY_SIZE u /\ length u <= STORY_SIZE /\ ~ In x00 u /\
   pf <> fit DIGEST_SIZE P) ->
  slot_hash_input (pf ++ sf ++ q_hash (P ++ u)) <> P ++ u /\
  ((exists e st', from_bytes f (pf ++ sf ++ q_hash (P ++ u)) st = Raise e st' /\
                  is_ValueError e = true) \/
   (exists m st',
      from_bytes f (pf ++ sf ++ q_hash (P ++ u)) st = Ok m st' /\
      sid f m st' =
        Ok (q_hash (slot_hash_input (pf ++ sf ++ q_hash (P ++ u)))) st' /\
      q_hash (slot_hash_input (pf ++ sf ++ q_hash (P ++ u))) = q_hash (P ++ u))).
Proof.
  intros HInv Hf HP Hlp Hls Hcase.
  set (sd := q_hash (P ++ u)).
  assert (Hsdl : length sd = DIGEST_SIZE) by apply q_hash_length.
  rewrite (slot_hash_input_fields st pf sf sd Hlp Hls Hsdl).
  split; [now apply tampered_input_differs|].
  assert (Hun : unpack_N_FMT (pf ++ sf ++ sd) = Some (pf, sf, sd))
    by (apply unpack_fields; auto).
  destruct (UTF8.decode (rstrip0 sf)) as [s|] eqn:Hdec.
  2:{ left. exists UnicodeDecodeError, st. split; [|reflexivity].
      unfold from_bytes, Node_from_bytes. now rewrite Hun, Hdec. }
  destruct (existsb (N.eqb 0) s) eqn:Hnull.
  { left. exists ValueError, st. split; [|reflexivity].
    unfold from_bytes, Node_from_bytes. rewrite Hun, Hdec.
    assert (Hl : length s <= STORY_SIZE).
    { pose proof (UTF8Facts.encode_length _ _ (UTF8Facts.encode_decode _ _ Hdec)).
      pose proof (rstrip0_length sf). lia. }
    now rewrite (bind_Raise _ _ _ _ _ (Node_init_null (run f) s _ st Hl Hnull)). }
  destruct (from_bytes_eval st f _ pf sf sd s HInv Hf Hun Hdec Hnull) as (st' & Hc & HE).
  rewrite HE.
  destruct (bytes_eqb sd (q_hash (key_id st (decoded_parent pf) ++ rstrip0 sf))) eqn:Eh.
  2:{ left. exists ValueError, st'. auto. }
  apply bytes_eqb_eq in Eh. right.
  exists (length (heap st)), st'. split; [reflexivity|]. split; [|now rewrite <- Eh].
  assert (Hn : length (heap st) < length (heap st')) by (rewrite (c_length Hc); lia).
  rewrite (Inv_sid st' f _ (c_inv Hc) Hn). f_equal.
  unfold sid_of. now rewrite (c_node Hc).
Qed.

Lemma upd_app_l {A} (l1 l2 : list A) (i : nat) (g : A -> A) :
  i < length l1 -> upd (l1 ++ l2) i g = upd l1 i g ++ l2.
Proof.
  revert i. induction l1 as [|x l1 IH]; intros [|i] H; simpl in *; try lia; auto.
  f_equal. apply IH. lia.
Qed.

Lemma upd_app_r {A} (l1 l2 : list A) (i : nat) (g : A -> A) :
  length l1 <= i -> upd (l1 ++ l2) i g = l1 ++ upd l2 (i - length l1) g.
Proof.
  revert i. induction l1 as [|x l1 IH]; intros i H; simpl in *.
  - now rewrite Nat.sub_0_r.
  - destruct i as [|i]; [lia|]. simpl. f_equal. apply IH. lia.
Qed.

Lemma upd_neq {A} (l : list A) (i : nat) (g : A -> A) :
  i < length l -> (forall x, g x <> x) -> upd l i g <> l.
Proof.
  revert i. induction l as [|x l IH]; intros [|i] H Hg E; simpl in *; try lia.
  - injection E as E. exact (Hg x E).
  - injection E as E. apply (IH i); auto. lia.
Qed.

Lemma to_N_byte_of_mod (n : N) : Byte.to_N (byte_of n) = (n mod 256)%N.
Proof.
  unfold byte_of. destruct (Byte.of_N (n mod 256)) as [b|] eqn:E.
  - now apply Byte.to_of_N.
  - apply Byte.of_N_None_iff in E.
    pose proof (N.mod_upper_bound n 256). lia.
Qed.

Lemma flip_byte_neq (k : nat) (x : byte) :
  k < 8 -> byte_of (N.lxor (Byte.to_N x) (2 ^ N.of_nat k)) <> x.
Proof.
  intros Hk E. apply (f_equal Byte.to_N) in E. rewrite to_N_byte_of_mod in E.
  apply (f_equal (fun n => N.testbit n (N.of_nat k))) in E.
  change 256%N with (2 ^ 8)%N in E.
  rewrite N.mod_pow2_bits_low, N.lxor_spec, N.pow2_bits_true in E by lia.
  destruct (N.testbit (Byte.to_N x) (N.of_nat k)); discriminate.
Qed.

(** One bit flipped in the parent field or in the story field of the
    encoding of a node: the bytes [from_bytes] hashes differ from the
    original ones, and decoding raises a [ValueError] unless the two have
    one SHA-512 digest. *)
Lemma single_bit_flip (st : state) (f : nat) (P u : bytes) (i : nat) :
  Inv st -> S (length (heap st)) < f ->
  (P = [] \/ (length P = DIGEST_SIZE /\ P <> zeros DIGEST_SIZE)) ->
  length u <= STORY_SIZE -> ~ In x00 u ->
  i < 8 * (DIGEST_SIZE + STORY_SIZE) ->
  slot_hash_input (flip_bit i (pack_N_FMT P u (q_hash (P ++ u)))) <> P ++ u /\
  ((exists e st',
      from_bytes f (flip_bit i (pack_N_FMT P u (q_hash (P ++ u)))) st = Raise e st' /\
      is_ValueError e = true) \/
   (exists m st',
      from_bytes f (flip_bit i (pack_N_FMT P u (q_hash (P ++ u)))) st = Ok m st' /\
      sid f m st' =
        Ok (q_hash (slot_hash_input
                      (flip_bit i (pack_N_FMT P u (q_hash (P ++ u)))))) st' /\
      q_hash (slot_hash_input (flip_bit i (pack_N_FMT P u (q_hash (P ++ u))))) =
      q_hash (P ++ u))).
Proof.
  intros HInv Hf HP Hlu Hnz Hi.
  assert (Hi8 : i / 8 < DIGEST_SIZE + STORY_SIZE)
    by (apply Nat.Div0.div_lt_upper_bound; exact Hi).
  assert (Hk : i mod 8 < 8) by (apply Nat.mod_upper_bound; lia).
  set (g := fun x => byte_of (N.lxor (Byte.to_N x) (2 ^ N.of_nat (i mod 8)))).
  assert (Hg : forall x, g x <> x) by (intro x; apply flip_byte_neq; exact Hk).
  unfold flip_bit, pack_N_FMT. fold g.
  rewrite (fit_exact _ (q_hash (P ++ u)) (q_hash_length _)).
  destruct (Nat.lt_ge_cases (i / 8) DIGEST_SIZE) as [Hlt|Hge].
  - rewrite upd_app_l by (rewrite fit_length; exact Hlt).
    apply tampered_fields; auto.
    + rewrite upd_length. apply fit_length.
    + apply fit_length.
    + right. repeat split; auto. apply upd_neq; auto. now rewrite fit_length.
  - rewrite upd_app_r by (rewrite fit_length; exact Hge).
    rewrite fit_length.
    rewrite upd_app_l by (rewrite fit_length; lia).
    apply tampered_fields; auto.
    + apply fit_length.
    + rewrite upd_length. apply fit_length.
    + left. split; auto. apply upd_neq; auto. rewrite fit_length. lia.
Qed.

(** One bit flipped in the parent field or in the story field of the
    encoding [to_bytes] returns for a node of a well-formed registry, the
    sid field left as it is: the bytes [from_bytes] hashes for the result
    are not the bytes the sid was computed from; [from_bytes] raises a
    [ValueError] on it, or returns a node whose sid is the digest of the
    tampered bytes, and then these and the original bytes are two
    different inputs with one SHA-512 digest. *)
Lemma flipped_encoding (st : state) (f n : nat) (u : bytes) (i : nat) :
  Inv st -> cache_ok st -> n < length (heap st) -> S (length (heap st)) < f ->
  UTF8.encode (story_of st n) = Some u -> length u <= STORY_SIZE ->
  existsb (N.eqb 0) (story_of st n) = false ->
  (pid_of st n = [] \/
   (length (pid_of st n) = DIGEST_SIZE /\ pid_of st n <> zeros DIGEST_SIZE)) ->
  i < 8 * (DIGEST_SIZE + STORY_SIZE) ->
  exists b st1,
    to_bytes f n st = Ok b st1 /\
    sid f n st = Ok (q_hash (pid_of st n ++ u)) st /\
    slot_hash_input (flip_bit i b) <> pid_of st n ++ u /\
    ((exists e st', from_bytes f (flip_bit i b) st1 = Raise e st' /\
                    is_ValueError e = true) \/
     (exists m st',
        from_bytes f (flip_bit i b) st1 = Ok m st' /\
        sid f m st' = Ok (q_hash (slot_hash_input (flip_bit i b))) st' /\
        q_hash (slot_hash_input (flip_bit i b)) = q_hash (pid_of st n ++ u))).
Proof.
  intros HInv Hcache Hn Hf Hu Hlen Hnull Hpid Hi.
  assert (HfN : length (heap st) < f) by lia.
  destruct (to_bytes_eval st f n u HInv Hcache Hn HfN Hu)
    as (st1 & Hto & HInv1 & _ & Hl1).
  destruct (Inv_node st n HInv Hn) as (nd & u' & _ & Hu' & Hs & _).
  assert (u' = u) by congruence. subst u'.
  exists (pack_N_FMT (pid_of st n) u (sid_of st n)), st1. split; [exact Hto|].
  split; [rewrite <- Hs; now apply Inv_sid|].
  rewrite Hs. apply single_bit_flip; auto.
  - now rewrite Hl1.
  - now apply (UTF8Facts.encode_no_null (story_of st n)).
Qed.

(** * Concrete registries are well-formed *)

Lemma Inv_step (st : state) (story : str) (parent : value) (f n : nat) (st' : state) :
  Inv st -> S (length (heap st)) < f -> val_ok (length (heap st)) parent ->
  Node f story parent st = Ok n st' -> Inv st'.
Proof.
  intros HInv Hf Hp H.
  destruct (Node_init_Ok_inv st story parent f n st' HInv Hf Hp H) as (_ & u & _ & Hc).
  apply (c_inv Hc).
Qed.

Lemma Inv_w1 : Inv st_w1.
Proof.
  apply (Inv_step empty_state [114%N] VNone 6 0 st_w1 Inv_empty).
  - simpl. lia.
  - exact I.
  - vm_compute. reflexivity.
Qed.

Lemma Inv_w2 : Inv st_w2.
Proof.
  apply (Inv_step st_w1 [120%N] (VNode 0) 6 1 st_w2 Inv_w1).
  - simpl. lia.
  - simpl. lia.
  - vm_compute. reflexivity.
Qed.

Lemma Inv_w3 : Inv st_w3.
Proof.
  apply (Inv_step st_w2 [114%N] VNone 6 2 st_w3 Inv_w2).
  - simpl. lia.
  - exact I.
  - vm_compute. reflexivity.
Qed.

Lemma Inv_w4 : Inv st_w4.
Proof.
  apply (Inv_step st_w3 [121%N] (VBytes (sid_of st_w3 0)) 6 3 st_w4 Inv_w3).
  - simpl. lia.
  - exact I.
  - vm_compute. reflexivity.
Qed.

Lemma cache_ok_w2 : cache_ok st_w2.
Proof.
  unfold cache_ok. repeat constructor; intros b H; discriminate H.
Qed.

(** * The length bound, the store, and the counterexamples *)

(** C6, at the failing input.  A story of 449 two-byte characters has 898
    bytes of UTF-8, more than [STORY_SIZE]; the constructor counts
    characters, accepts it and returns the node. *)
Theorem long_story_accepted :
  length long_story = 449 /\
  option_map (@length byte) (UTF8.encode long_story) = Some 898 /\
  STORY_SIZE = 896 /\
  outcome (Node 2 long_story VNone empty_state) = Some (inl 0).
Proof. repeat split; vm_compute; reflexivity. Qed.

(** The packed form of that node keeps only the first 896 bytes of the
    story, and [from_bytes] rejects it. *)
Lemma long_story_not_decodable :
  outcome ((n <- Node 3 long_story VNone ;;
            b <- to_bytes 3 n ;;
            from_bytes 3 b)%monad empty_state) = Some (inr ValueError).
Proof. vm_compute. reflexivity. Qed.

(** C2 as stated fails for a node whose parent digest is 64 null bytes:
    the node is built, [to_bytes] encodes it, and [from_bytes] raises
    [ValueError] on the encoding. *)
Lemma zero_parent_not_round_trip :
  outcome (Node 3 [120%N] (VBytes (zeros DIGEST_SIZE)) empty_state) = Some (inl 0) /\
  outcome (zero_parent_round_trip empty_state) = Some (inr ValueError).
Proof. split; vm_compute; reflexivity. Qed.

(** C8 as stated fails when the registry holds more than one node with
    the sid [d].  With [R], [A = Node("x", R)] and a second instance [R2]
    equal to [R], the node [C = Node("y", R.sid)] reads [R2] as its
    parent, not [R], which the registry holds as a key.  With two nodes
    that are not equal and have one sid, the node whose parent is that
    sid reads the first of them, not the other. *)
Lemma parent_returns_another_node :
  (slot_of st_w4 3 = VBytes (sid_of st_w4 0) /\ holds st_w4 0 /\
   sid 6 0 st_w4 = Ok (sid_of st_w4 0) st_w4 /\
   parent 6 3 st_w4 = Ok (VNode 2) st_w4) /\
  (slot_of st_a3 2 = VBytes (sid_of st_a3 1) /\ holds st_a3 1 /\
   sid 6 1 st_a3 = Ok (sid_of st_a3 1) st_a3 /\
   parent 6 2 st_a3 = Ok (VNode 0) st_a3 /\
   eq 6 (VNode 0) (VNode 1) st_a3 = Ok false st_a3).
Proof.
  split.
  - split; [vm_compute; reflexivity|]. split.
    + unfold holds. do 3 eexists. split; [left; reflexivity|]. now left.
    + split; vm_compute; reflexivity.
  - split; [vm_compute; reflexivity|]. split.
    + unfold holds. do 3 eexists.
      split; [right; right; left; reflexivity|]. now left.
    + split; [|split]; vm_compute; reflexivity.
Qed.

(** C9 as stated fails for a buffer that is not slot-sized: the
    [struct.error] of [unpack] is not a [ValueError] and leaves
    [identify_block]. *)
Lemma identify_block_empty_raises :
  identify_block (run 5) [] empty_state = Raise StructError empty_state.
Proof. reflexivity. Qed.

Lemma identify_block_wrong_size (rec : ops) (b : bytes) (st : state) :
  length b <> TOTAL_SIZE ->
  identify_block rec b st = Raise StructError st.
Proof.
  intros H. unfold identify_block, try_except, Node_from_bytes, bind, unpack_N_FMT.
  apply Nat.eqb_neq in H. now rewrite H.
Qed.

Module StoreFacts.

Import StoreFile.

Lemma contents_new (fs : filesystem) (name : String.string) (d : bytes) :
  contents ((name, d) :: fs) name = Some d.
Proof. simpl. now rewrite String.eqb_refl. Qed.

(** C10, at the failing input.  For a name with no file, [open_store]
    creates the file empty, reads no header bytes from it and raises
    [struct.error]; no [Store] with default values is returned. *)
Theorem open_store_new_file (name : String.string) (fs : filesystem) :
  contents fs name = None ->
  open_store name fs = IoRaise StructError ((name, []) :: fs).
Proof.
  intros H. unfold open_store, open_file. rewrite H.
  unfold opt_load, read_at_start. cbn [b_name]. rewrite contents_new.
  reflexivity.
Qed.

(** With a file of at least 32 bytes the four fields are those of its
    first 32 bytes. *)
Lemma open_store_existing (name : String.string) (fs : filesystem) (d : bytes) :
  contents fs name = Some d -> OPT_SIZE <= length d ->
  exists stored size limit previous,
    unpack_OPT_FMT (firstn OPT_SIZE d) = Some (stored, size, limit, previous) /\
    open_store name fs =
    IoOk (mkStore (mkBuffer name OPT_SIZE) stored size limit (Some previous)) fs.
Proof.
  intros H Hlen. unfold open_store, open_file. rewrite H.
  unfold opt_load, read_at_start. cbn [b_name]. rewrite H.
  assert (Hl : length (firstn OPT_SIZE d) = OPT_SIZE)
    by (rewrite length_firstn; lia).
  unfold unpack_OPT_FMT. rewrite Hl, Nat.eqb_refl.
  do 4 eexists. split; reflexivity.
Qed.

Import String.

Lemma open_store_new_file_witness :
  open_store "store"%string [] = IoRaise StructError [("store"%string, [])].
Proof. apply (open_store_new_file "store"%string []). reflexivity. Defined.

End StoreFacts.

(** * Witnesses *)

Lemma sid_is_digest_witness :
  exists s, sid 6 1 st_w2 = Ok s st_w2 /\ length s = DIGEST_SIZE.
Proof.
  destruct (sid_is_digest st_w2 6 1 Inv_w2) as (s & p & u & H1 & H2 & _).
  - simpl. lia.
  - simpl. lia.
  - exists s. split; assumption.
Defined.

Lemma identity_dedup_witness : eq 6 (VNode 0) (VNode 2) st_w3 = Ok true st_w3.
Proof.
  apply (identity_dedup st_w3 6 0 2 [] Inv_w3).
  - simpl. lia.
  - simpl. lia.
  - simpl. lia.
  - vm_compute. reflexivity.
  - vm_compute. reflexivity.
  - reflexivity.
Defined.

Lemma parent_resolution_witness :
  exists q, parent 6 3 st_w4 = Ok (VNode q) st_w4.
Proof.
  destruct (parent_resolution st_w4 6 3 (sid_of st_w3 0) Inv_w4) as [H _].
  - simpl. lia.
  - simpl. lia.
  - reflexivity.
  - destruct H as (q & Hq & _).
    + exists 2. split; [|vm_compute; reflexivity].
      exists (HBytes (sid_of st_w3 0)), (VNode 0), (VNode 2).
      split; [vm_compute; left; reflexivity|now right].
    + exists q. exact Hq.
Defined.

Lemma registry_sync_witness :
  (exists b, dict_contains (run 6) (_all st_w1) (VNode 0) st_w1 = Ok b st_w1 /\
             dict_contains (run 6) (_children st_w1) (VNode 0) st_w1 = Ok b st_w1) /\
  (exists st', Node 6 [120%N] (VBytes [x01]) st_drifted = Raise SyncError st' /\
               _all st' = _all st_drifted /\ _children st' = _children st_drifted).
Proof.
  destruct registry_sync as [_ [H1 H2]]. split.
  - apply (H1 empty_state 6 [114%N] VNone 0 st_w1 Inv_empty).
    + exact I.
    + simpl. lia.
    + vm_compute. reflexivity.
    + simpl. lia.
  - apply (H2 st_drifted 6 [120%N] (VBytes [x01])).
    + split; [|split].
      * split; [simpl; lia|]. intros i nd Hi. simpl in Hi. lia.
      * constructor.
      * intros hk k [E|[]]. inversion E. exact I.
    + discriminate.
    + exact I.
    + simpl. lia.
    + vm_compute. lia.
    + reflexivity.
    + vm_compute. discriminate.
Defined.

Lemma identify_block_slot_witness :
  (exists n st', from_bytes 6 (zeros TOTAL_SIZE) empty_state = Ok n st' /\
     identify_block (run 6) (zeros TOTAL_SIZE) empty_state = Ok (Some n) st') \/
  (exists e st', from_bytes 6 (zeros TOTAL_SIZE) empty_state = Raise e st' /\
     is_ValueError e = true /\
     identify_block (run 6) (zeros TOTAL_SIZE) empty_state = Ok None st').
Proof.
  apply (identify_block_slot empty_state 6 (zeros TOTAL_SIZE) Inv_empty).
  - simpl. lia.
  - apply zeros_length.
Defined.

Lemma round_trip_witness :
  exists b st1 m st2,
    to_bytes 6 1 st_w2 = Ok b st1 /\ from_bytes 6 b st1 = Ok m st2 /\
    eq 6 (VNode m) (VNode 1) st2 = Ok true st2.
Proof.
  destruct (round_trip st_w2 6 1 [x78] Inv_w2 cache_ok_w2)
    as (b & st1 & m & st2 & s & p & H1 & H2 & _ & _ & _ & _ & _ & H3 & _).
  - simpl. lia.
  - simpl. lia.
  - vm_compute. reflexivity.
  - vm_compute. lia.
  - reflexivity.
  - right. split; [vm_compute; reflexivity|vm_compute; discriminate].
  - exists b, st1, m, st2. auto.
Defined.

Lemma retrace_walks_witness :
  retrace 6 1 VNone st_w2 = Ok [1; 0] st_w2 /\
  exists r a b st1 st2 st3,
    Node 5 [114%N] VNone empty_state = Ok r st1 /\
    branch 5 r [120%N] st1 = Ok a st2 /\
    branch 5 a [121%N] st2 = Ok b st3 /\
    retrace 5 b VNone st3 = Ok [b; a; r] st3 /\
    retrace 5 b (VNode a) st3 = Ok [b] st3.
Proof.
  destruct retrace_walks as [H1 H2]. split.
  - apply (H1 st_w2 6 1 VNone [0] Inv_w2).
    + simpl. lia.
    + exact I.
    + apply (@walk_step st_w2 VNone 1 0 []).
      * vm_compute. reflexivity.
      * reflexivity.
      * apply walk_root. vm_compute. reflexivity.
    + simpl. lia.
    + simpl. lia.
  - apply (H2 empty_state 5 [114%N] [x72] Inv_empty).
    + constructor.
    + vm_compute. reflexivity.
    + unfold STORY_SIZE. simpl. lia.
    + reflexivity.
    + simpl. lia.
Defined.

(** * Further properties of the node engine *)

(** ** Reachable registries are well-formed *)

Lemma key_id_heap (s s' : state) (v : value) :
  heap s' = heap s -> key_id s' v = key_id s v.
Proof. intros H. destruct v; simpl; auto. unfold sid_of. now rewrite H. Qed.

Lemma bytes_ok_frame (n : nat) (st st' : state) (nd : node) :
  agree n st st' -> val_ok n (_parent nd) -> bytes_ok st nd -> bytes_ok st' nd.
Proof.
  intros Hag Hv H b Hb. destruct (H b Hb) as (u & s & Hu & Hs & ->).
  exists u, s. repeat split; auto.
  now rewrite (agree_key_id n st st' Hag).
Qed.

Lemma cache_ok_heap (s s' : state) :
  heap s' = heap s -> cache_ok s -> cache_ok s'.
Proof.
  intros Hh Hc. unfold cache_ok in *. rewrite Hh.
  eapply Forall_impl; [|exact Hc]. intros nd H b Hb.
  destruct (H b Hb) as (u & s0 & Hu & Hs & ->). exists u, s0.
  repeat split; auto. now rewrite (key_id_heap s s').
Qed.

Lemma node_parent_ok (st : state) (i : nat) (nd : node) :
  Inv st -> nth_error (heap st) i = Some nd ->
  val_ok (length (heap st)) (_parent nd).
Proof.
  intros HInv Hnd.
  assert (Hi : i < length (heap st)) by (apply nth_error_Some; congruence).
  destruct (heap_ok_node _ st i (r_heap HInv) Hi) as (nd' & Hnd' & _ & Hp).
  assert (nd' = nd) by congruence. subst nd'.
  destruct (_parent nd); simpl; auto. destruct Hp. lia.
Qed.

Lemma cache_ok_constructed (st : state) (story : str) (parent : value)
  (u : bytes) (st' : state) :
  Inv st -> cache_ok st -> constructed st story parent u st' -> cache_ok st'.
Proof.
  intros HInv Hc Hcon. unfold cache_ok in *. rewrite Forall_forall in *.
  intros nd Hin. apply In_nth_error in Hin. destruct Hin as [i Hi].
  assert (Hlt : i < length (heap st')) by (apply nth_error_Some; congruence).
  rewrite (c_length Hcon) in Hlt.
  destruct (Nat.eq_dec i (length (heap st))) as [->|Hne].
  - rewrite (c_node Hcon) in Hi. inversion Hi; subst nd.
    intros b Hb. discriminate Hb.
  - assert (Hi' : i < length (heap st)) by lia.
    rewrite (c_same Hcon Hi') in Hi.
    apply (bytes_ok_frame (length (heap st)) st st' nd
             (same_below_agree _ _ _ (c_same Hcon))).
    + now apply (node_parent_ok st i).
    + apply Hc. now apply (nth_error_In _ i).
Qed.

(** [to_bytes] on a well-formed registry: the packed node, cached. *)
Lemma to_bytes_state (st : state) (f n : nat) :
  Inv st -> cache_ok st -> n < length (heap st) -> length (heap st) < f ->
  exists u st1,
    UTF8.encode (story_of st n) = Some u /\
    to_bytes f n st = Ok (pack_N_FMT (pid_of st n) u (sid_of st n)) st1 /\
    to_bytes f n st1 = Ok (pack_N_FMT (pid_of st n) u (sid_of st n)) st1 /\
    Inv st1 /\ cache_ok st1 /\ agree (length (heap st)) st st1 /\
    length (heap st1) = length (heap st) /\
    _all st1 = _all st /\ _children st1 = _children st.
Proof.
  intros HInv Hcache Hn Hf.
  destruct (Inv_node st n HInv Hn) as (nd & u & Hnd & Hu & Hs & Hslot & Hv).
  assert (Hstory : _story nd = story_of st n) by (unfold story_of; now rewrite Hnd).
  exists u.
  destruct (_bytes nd) as [b0|] eqn:Eb.
  - exists st.
    assert (E : to_bytes f n st = Ok (pack_N_FMT (pid_of st n) u (sid_of st n)) st).
    { unfold to_bytes, Node_to_bytes.
      rewrite (bind_Ok _ _ _ _ _ (get_node_Ok st n nd Hnd)), Eb.
      pose proof Hcache as Hc. unfold cache_ok in Hc. rewrite Forall_forall in Hc.
      destruct (Hc nd (nth_error_In _ _ Hnd) b0 Eb) as (u0 & s0 & Hu0 & Hs0 & ->).
      unfold ret. do 2 f_equal.
      + unfold pid_of. now rewrite Hslot.
      + rewrite Hstory in Hu0. congruence.
      + unfold sid_of. now rewrite Hnd, Hs0. }
    refine (conj Hu (conj E (conj E (conj HInv (conj Hcache (conj _
              (conj eq_refl (conj eq_refl eq_refl)))))))).
    apply agree_refl.
  - set (b := pack_N_FMT (pid_of st n) u (sid_of st n)).
    set (st1 := set_heap (upd (heap st) n
                  (fun x => mkNode (_story x) (_parent x) (_sid x) (Some b))) st).
    exists st1.
    assert (Hag : agree (length (heap st)) st st1).
    { intros i Hi. unfold st1. cbn [heap set_heap].
      destruct (Nat.eq_dec n i) as [<-|Hne].
      - rewrite nth_error_upd_eq, Hnd. reflexivity.
      - now rewrite nth_error_upd_neq. }
    assert (Hl : length (heap st1) = length (heap st))
      by (unfold st1; cbn [heap set_heap]; apply upd_length).
    assert (Hnd1 : nth_error (heap st1) n =
                   Some (mkNode (_story nd) (_parent nd) (_sid nd) (Some b))).
    { unfold st1. cbn [heap set_heap]. now rewrite nth_error_upd_eq, Hnd. }
    split; [exact Hu|]. split; [|split; [|split; [|split; [|split;
      [exact Hag|split; [exact Hl|split; reflexivity]]]]]].
    + unfold to_bytes, Node_to_bytes.
      rewrite (bind_Ok _ _ _ _ _ (get_node_Ok st n nd Hnd)), Eb.
      pose proof (Inv_pid st f n HInv Hn Hf) as Hp. unfold pid in Hp.
      rewrite (bind_Ok _ _ _ _ _ Hp). rewrite Hstory, Hu.
      pose proof (Inv_sid st f n HInv Hn) as Hsid. unfold sid in Hsid.
      rewrite (bind_Ok _ _ _ _ _ Hsid).
      rewrite pack_N_FMT_length, Nat.eqb_refl. reflexivity.
    + unfold to_bytes, Node_to_bytes.
      rewrite (bind_Ok _ _ _ _ _ (get_node_Ok st1 n _ Hnd1)). reflexivity.
    + unfold Inv. rewrite Hl. now apply (registry_ok_frame _ st st1).
    + assert (Hframe : forall x, In x (heap st) -> bytes_ok st x -> bytes_ok st1 x).
      { intros x Hin. apply In_nth_error in Hin. destruct Hin as [i Hi].
        apply (bytes_ok_frame (length (heap st)) st st1 x Hag).
        now apply (node_parent_ok st i). }
      unfold cache_ok. unfold st1 at 2. cbn [heap set_heap]. apply Forall_upd.
      * unfold cache_ok in Hcache. rewrite Forall_forall in *.
        intros x Hx. apply Hframe; auto.
      * intros x Hx _ c Hc. cbn [_bytes] in Hc. inversion Hc; subst c.
        assert (x = nd) by congruence. subst x.
        exists u, (sid_of st n). cbn [_story _parent _sid].
        rewrite Hstory. split; [exact Hu|]. split.
        -- unfold sid_of. rewrite Hnd.
           destruct (heap_ok_node _ st n (r_heap HInv) Hn) as (nd' & Hnd' & (u' & _ & Hs') & _).
           assert (nd' = nd) by congruence. subst nd'. now rewrite Hs'.
        -- unfold b, pid_of. rewrite Hslot.
           rewrite (agree_key_id _ st st1 Hag); auto.
           now apply (node_parent_ok st n).
Qed.

(** What [from_bytes] does to a well-formed registry: it raises and leaves
    it as it is, or it has built the decoded node, whether that node is
    then returned or rejected. *)
Lemma from_bytes_cases (st : state) (f : nat) (b : bytes) :
  Inv st -> S (length (heap st)) < f ->
  (exists e, from_bytes f b st = Raise e st) \/
  (exists s par u st',
     constructed st s par u st' /\
     (from_bytes f b st = Ok (length (heap st)) st' \/
      from_bytes f b st = Raise ValueError st')).
Proof.
  intros HInv Hf.
  destruct (unpack_N_FMT b) as [[[pf sf] idf]|] eqn:Hun.
  2:{ left. exists StructError. unfold from_bytes, Node_from_bytes. now rewrite Hun. }
  destruct (UTF8.decode (rstrip0 sf)) as [s|] eqn:Hdec.
  2:{ left. exists UnicodeDecodeError. unfold from_bytes, Node_from_bytes.
      now rewrite Hun, Hdec. }
  destruct (existsb (N.eqb 0) s) eqn:Hnull.
  { left. exists ValueError. unfold from_bytes, Node_from_bytes. rewrite Hun, Hdec.
    assert (Hl : length s <= STORY_SIZE).
    { pose proof (UTF8Facts.encode_length _ _ (UTF8Facts.encode_decode _ _ Hdec)).
      pose proof (rstrip0_length sf).
      pose proof (unpack_story_length _ _ _ _ Hun). lia. }
    now rewrite (bind_Raise _ _ _ _ _ (Node_init_null (run f) s _ st Hl Hnull)). }
  right.
  destruct (from_bytes_eval st f b pf sf idf s HInv Hf Hun Hdec Hnull) as (st' & Hc & HE).
  exists s, (decoded_parent pf), (rstrip0 sf), st'. split; [exact Hc|].
  rewrite HE. destruct (bytes_eqb idf _); auto.
Qed.

Lemma reachable_ok (st : state) : reachable st -> Inv st /\ cache_ok st.
Proof.
  induction 1 as [|f story parent st n st' _ [HInv Hc] Hp Hf HN
                  |f self story st n st' _ [HInv Hc] Hs Hf HB
                  |f b st n st' _ [HInv Hc] Hf HF
                  |f b st e st' _ [HInv Hc] Hf HF
                  |f n st b st' _ [HInv Hc] Hn Hf HT].
  - split; [exact Inv_empty|constructor].
  - destruct (Node_init_Ok_inv st story parent f n st' HInv Hf Hp HN)
      as (_ & u & _ & Hcon).
    split; [apply (c_inv Hcon)|]. now apply (cache_ok_constructed st story parent u).
  - destruct (branch_Ok_inv st f self story n st' HInv Hs Hf HB)
      as (_ & HInv' & u & stc & _ & Hcon & Hh & _).
    split; [exact HInv'|]. apply (cache_ok_heap stc st' Hh).
    now apply (cache_ok_constructed st story (VNode self) u).
  - destruct (from_bytes_cases st f b HInv Hf) as [[e E]|(s & par & u & st1 & Hcon & [E|E])];
      rewrite E in HF; try discriminate.
    inversion HF; subst.
    split; [apply (c_inv Hcon)|]. now apply (cache_ok_constructed st s par u).
  - destruct (from_bytes_cases st f b HInv Hf) as [[e' E]|(s & par & u & st1 & Hcon & [E|E])];
      rewrite E in HF; try discriminate.
    + inversion HF; subst. auto.
    + inversion HF; subst.
      split; [apply (c_inv Hcon)|]. now apply (cache_ok_constructed st s par u).
  - destruct (to_bytes_state st f n HInv Hc Hn Hf)
      as (u & st1 & _ & E & _ & HInv1 & Hc1 & _).
    rewrite E in HT. inversion HT; subst. auto.
Qed.

(** Every registry the operations lead to from the empty one is
    well-formed: the two class dictionaries have the same keys in the
    same order, and the sid cached in every node is the SHA-512 digest of
    its parent identity followed by its encoded story. *)
Theorem reachable_well_formed (st : state) :
  reachable st ->
  Inv st /\ cache_ok st /\
  keys (_all st) = keys (_children st) /\
  forall n, n < length (heap st) ->
    exists u, UTF8.encode (story_of st n) = Some u /\
              length (sid_of st n) = DIGEST_SIZE /\
              sid_of st n = q_hash (pid_of st n ++ u).
Proof.
  intros H. destruct (reachable_ok st H) as [HInv Hc].
  split; [exact HInv|]. split; [exact Hc|]. split; [apply (r_keys HInv)|].
  intros n Hn. destruct (Inv_node st n HInv Hn) as (nd & u & _ & Hu & Hs & _).
  exists u. split; [exact Hu|]. split; [|exact Hs].
  rewrite Hs. apply q_hash_length.
Qed.

(** ** The outcomes of the constructor *)

(** On a well-formed registry [Node(story, parent)] has three outcomes.
    A story of at most [STORY_SIZE] characters without a null character
    that UTF-8 can encode gives a new node with that story and parent and
    leaves the older nodes as they were.  A longer story, or one with a
    null character, raises [ValueError] before anything is changed.  A
    story that UTF-8 cannot encode (a lone surrogate) raises
    [UnicodeEncodeError]. *)
Theorem Node_outcomes (st : state) (f : nat) (story : str) (parent : value) :
  Inv st -> S (length (heap st)) < f -> val_ok (length (heap st)) parent ->
  (length story <= STORY_SIZE -> existsb (N.eqb 0) story = false ->
   UTF8.encode story <> None ->
   exists st', Node f story parent st = Ok (length (heap st)) st' /\
               Inv st' /\ length (heap st') = S (length (heap st)) /\
               story_of st' (length (heap st)) = story /\
               slot_of st' (length (heap st)) = parent /\
               same_below (length (heap st)) st st') /\
  (STORY_SIZE < length story \/ existsb (N.eqb 0) story = true ->
   Node f story parent st = Raise ValueError st) /\
  (length story <= STORY_SIZE -> existsb (N.eqb 0) story = false ->
   UTF8.encode story = None ->
   exists st', Node f story parent st = Raise UnicodeEncodeError st').
Proof.
  intros HInv Hf Hp. split; [|split].
  - intros Hlen Hnull Henc.
    destruct (UTF8.encode story) as [u|] eqn:Hu; [|congruence].
    destruct (Node_init_ok st story parent u f HInv Hf Hp Hu Hlen Hnull)
      as (st' & E & Hc).
    destruct (node_fields st' _ _ (c_node Hc)) as [Hs Hst].
    exists st'. refine (conj E (conj (c_inv Hc) (conj (c_length Hc)
                          (conj Hst (conj Hs (c_same Hc)))))).
  - intros [Hlen|Hnull].
    + now apply Node_init_too_long.
    + destruct (le_lt_dec (length story) STORY_SIZE) as [Hl|Hl].
      * now apply Node_init_null.
      * now apply Node_init_too_long.
  - intros Hlen Hnull Henc.
    apply (Node_init_unencodable st story parent f HInv Hf Hp Henc Hlen Hnull).
Qed.

Lemma Node_outcomes_witness :
  (exists st', Node 3 [104; 105]%N VNone empty_state = Ok 0 st' /\
               story_of st' 0 = [104; 105]%N) /\
  Node 3 [104; 0]%N VNone empty_state = Raise ValueError empty_state /\
  (exists st', Node 3 [0xD800%N] VNone empty_state = Raise UnicodeEncodeError st').
Proof.
  assert (H0 : S (length (heap empty_state)) < 3) by (simpl; lia).
  split; [|split].
  - destruct (Node_outcomes empty_state 3 [104; 105]%N VNone Inv_empty H0 I)
      as [H _].
    destruct H as (st' & E & _ & _ & Hs & _).
    + unfold STORY_SIZE. simpl. lia.
    + reflexivity.
    + vm_compute. discriminate.
    + exists st'. split; [exact E|exact Hs].
  - destruct (Node_outcomes empty_state 3 [104; 0]%N VNone Inv_empty H0 I)
      as (_ & H & _).
    apply H. right. reflexivity.
  - destruct (Node_outcomes empty_state 3 [0xD800%N] VNone Inv_empty H0 I)
      as (_ & _ & H).
    apply H.
    + unfold STORY_SIZE. simpl. lia.
    + reflexivity.
    + vm_compute. reflexivity.
Defined.

(** ** Equality and hashing *)

Lemma eq_of_nodes_inv (st : state) (a b : nat) :
  eq_of st (VNode a) (VNode b) = true ->
  pid_of st a = pid_of st b /\ story_of st a = story_of st b.
Proof.
  simpl. intros H. apply andb_true_iff in H. destruct H as [H1 H2].
  apply bytes_eqb_eq in H1. apply str_eqb_eq in H2. auto.
Qed.

Lemma eq_of_sid (st : state) (a b : nat) :
  Inv st -> a < length (heap st) -> b < length (heap st) ->
  eq_of st (VNode a) (VNode b) = true -> sid_of st a = sid_of st b.
Proof.
  intros HInv Ha Hb H. apply eq_of_nodes_inv in H. destruct H as [Hp Hs].
  destruct (Inv_node st a HInv Ha) as (_ & ua & _ & Hua & Hsa & _).
  destruct (Inv_node st b HInv Hb) as (_ & ub & _ & Hub & Hsb & _).
  rewrite Hs in Hua. assert (ua = ub) by congruence. subst ub.
  now rewrite Hsa, Hsb, Hp.
Qed.

Lemma eq_of_refl (st : state) (v : value) : eq_of st v v = true.
Proof.
  destruct v; simpl; auto using bytes_eqb_refl.
  now rewrite bytes_eqb_refl, str_eqb_refl.
Qed.

Lemma bytes_eqb_sym (a b : bytes) : bytes_eqb a b = bytes_eqb b a.
Proof.
  destruct (bytes_eqb a b) eqn:E.
  - apply bytes_eqb_eq in E. subst. symmetry. apply bytes_eqb_refl.
  - symmetry. apply bytes_eqb_neq. apply bytes_eqb_neq in E. congruence.
Qed.

Lemma str_eqb_sym (a b : str) : str_eqb a b = str_eqb b a.
Proof.
  destruct (str_eqb a b) eqn:E.
  - apply str_eqb_eq in E. subst. symmetry. apply str_eqb_refl.
  - symmetry. destruct (str_eqb b a) eqn:E'; auto.
    apply str_eqb_eq in E'. subst. now rewrite str_eqb_refl in E.
Qed.

Lemma eq_of_sym (st : state) (a b : value) : eq_of st a b = eq_of st b a.
Proof.
  destruct a, b; simpl; auto using bytes_eqb_sym.
  now rewrite bytes_eqb_sym, str_eqb_sym.
Qed.

Lemma eq_of_hash (st : state) (a b : value) :
  Inv st -> val_ok (length (heap st)) a -> val_ok (length (heap st)) b ->
  eq_of st a b = true -> hash_of st a = hash_of st b.
Proof.
  intros HInv Ha Hb H. destruct a as [|x|i], b as [|y|j]; simpl in *;
    try discriminate; auto.
  - apply bytes_eqb_eq in H. now subst.
  - apply bytes_eqb_eq in H. now subst.
  - apply bytes_eqb_eq in H. now subst.
  - f_equal. apply eq_of_sid; auto.
Qed.

(** [==] on the values of a well-formed registry is reflexive and
    symmetric, and transitive on nodes. *)
Theorem eq_equivalence (st : state) (f : nat) (a b : value) (i j k : nat) :
  Inv st -> length (heap st) < f ->
  val_ok (length (heap st)) a -> val_ok (length (heap st)) b ->
  i < length (heap st) -> j < length (heap st) -> k < length (heap st) ->
  eq f a a st = Ok true st /\
  eq f a b st = eq f b a st /\
  (eq f (VNode i) (VNode j) st = Ok true st ->
   eq f (VNode j) (VNode k) st = Ok true st ->
   eq f (VNode i) (VNode k) st = Ok true st).
Proof.
  intros HInv Hf Ha Hb Hi Hj Hk.
  assert (T : eq_of st (VNode i) (VNode j) = true ->
              eq_of st (VNode j) (VNode k) = true ->
              eq_of st (VNode i) (VNode k) = true).
  { intros E1 E2. apply eq_of_nodes_inv in E1. apply eq_of_nodes_inv in E2.
    destruct E1, E2. apply eq_of_nodes; congruence. }
  rewrite !(Inv_eq st f) by (simpl; auto).
  rewrite eq_of_refl, (eq_of_sym st b a). split; [reflexivity|].
  split; [reflexivity|].
  intros H1 H2. injection H1 as E1. injection H2 as E2.
  now rewrite (T E1 E2).
Qed.

Lemma eq_equivalence_witness :
  eq 6 (VNode 0) (VNode 0) st_w4 = Ok true st_w4 /\
  eq 6 (VNode 0) (VBytes (sid_of st_w4 0)) st_w4 =
  eq 6 (VBytes (sid_of st_w4 0)) (VNode 0) st_w4.
Proof.
  destruct (eq_equivalence st_w4 6 (VNode 0) (VBytes (sid_of st_w4 0)) 0 2 0 Inv_w4)
    as (H1 & H2 & _); try (simpl; lia); try exact I.
  split; assumption.
Defined.

(** Values of a well-formed registry that compare equal have the same
    hash, and equal nodes have the same sid. *)
Theorem eq_implies_same_hash (st : state) (f : nat) (a b : value) :
  Inv st -> length (heap st) < f ->
  val_ok (length (heap st)) a -> val_ok (length (heap st)) b ->
  eq f a b st = Ok true st ->
  (exists h, hash f a st = Ok h st /\ hash f b st = Ok h st) /\
  (forall i j, a = VNode i -> b = VNode j ->
     exists s, sid f i st = Ok s st /\ sid f j st = Ok s st).
Proof.
  intros HInv Hf Ha Hb H. rewrite (Inv_eq st f a b HInv Hf Ha Hb) in H.
  inversion H as [E]. split.
  - exists (hash_of st a). split; [now apply Inv_hash|].
    rewrite (eq_of_hash st a b HInv Ha Hb E). now apply Inv_hash.
  - intros i j -> ->. simpl in Ha, Hb. exists (sid_of st i). split.
    + now apply Inv_sid.
    + rewrite (eq_of_sid st i j HInv Ha Hb E). now apply Inv_sid.
Qed.

Lemma eq_implies_same_hash_witness :
  exists h, hash 6 (VNode 0) st_w3 = Ok h st_w3 /\ hash 6 (VNode 2) st_w3 = Ok h st_w3.
Proof.
  destruct (eq_implies_same_hash st_w3 6 (VNode 0) (VNode 2) Inv_w3) as [H _];
    try (simpl; lia).
  - vm_compute. reflexivity.
  - exact H.
Defined.

(** ** Decoding *)

Lemma constructed_is_current (st : state) (story : str) (parent : value)
  (u : bytes) (st' : state) :
  constructed st story parent u st' -> current st' (length (heap st)).
Proof.
  intros Hc. destruct (c_all Hc) as (d & _ & _ & Hall).
  unfold current. rewrite Hall. apply setitem_holds.
Qed.

Lemma current_contains (st : state) (f n : nat) :
  Inv st -> length (heap st) < f -> n < length (heap st) -> current st n ->
  dict_contains (run f) (_all st) (VNode n) st = Ok true st.
Proof.
  intros HInv Hf Hn (idx & h & k & Hl & _).
  rewrite (Inv_contains st f (_all st) (VNode n) HInv Hf Hn
             (all_keys_ok _ st _ (r_all HInv))).
  unfold contains_of. now rewrite Hl.
Qed.

(** A node [from_bytes] returns is the node the buffer describes: the
    buffer has [TOTAL_SIZE] bytes, the story of the node is the story
    field without its padding, decoded, its parent is [None] for a parent
    field of null bytes and the parent field otherwise, and its sid is the
    last field of the buffer. *)
Theorem from_bytes_sound (st : state) (f : nat) (b : bytes) (n : nat) (st' : state) :
  Inv st -> S (length (heap st)) < f ->
  from_bytes f b st = Ok n st' ->
  length b = TOTAL_SIZE /\ n = length (heap st) /\
  Inv st' /\ length (heap st') = S (length (heap st)) /\
  UTF8.decode (rstrip0 (firstn STORY_SIZE (skipn DIGEST_SIZE b))) =
    Some (story_of st' n) /\
  slot_of st' n = decoded_parent (firstn DIGEST_SIZE b) /\
  sid f n st' = Ok (skipn (DIGEST_SIZE + STORY_SIZE) b) st'.
Proof.
  intros HInv Hf H.
  destruct (unpack_N_FMT b) as [[[pf sf] idf]|] eqn:Hun.
  2:{ unfold from_bytes, Node_from_bytes in H. rewrite Hun in H. discriminate. }
  destruct (UTF8.decode (rstrip0 sf)) as [s|] eqn:Hdec.
  2:{ unfold from_bytes, Node_from_bytes in H. rewrite Hun, Hdec in H. discriminate. }
  destruct (existsb (N.eqb 0) s) eqn:Hnull.
  { exfalso. unfold from_bytes, Node_from_bytes in H. rewrite Hun, Hdec in H.
    assert (Hl : length s <= STORY_SIZE).
    { pose proof (UTF8Facts.encode_length _ _ (UTF8Facts.encode_decode _ _ Hdec)).
      pose proof (rstrip0_length sf).
      pose proof (unpack_story_length _ _ _ _ Hun). lia. }
    rewrite (bind_Raise _ _ _ _ _ (Node_init_null (run f) s _ st Hl Hnull)) in H.
    discriminate. }
  destruct (from_bytes_eval st f b pf sf idf s HInv Hf Hun Hdec Hnull) as (st1 & Hc & HE).
  rewrite HE in H.
  destruct (bytes_eqb idf (q_hash (key_id st (decoded_parent pf) ++ rstrip0 sf))) eqn:Eh;
    [|discriminate].
  inversion H; subst n st1. apply bytes_eqb_eq in Eh.
  destruct (unpack_fields_of b pf sf idf Hun) as (Hlen & Epf & Esf & Eidf).
  destruct (node_fields st' _ _ (c_node Hc)) as [Hs Hst]. cbn [_parent _story] in Hs, Hst.
  assert (Hn : length (heap st) < length (heap st')) by (rewrite (c_length Hc); lia).
  refine (conj Hlen (conj eq_refl (conj (c_inv Hc) (conj (c_length Hc)
            (conj _ (conj _ _)))))).
  - rewrite <- Esf, Hst. exact Hdec.
  - now rewrite <- Epf.
  - rewrite (Inv_sid st' f _ (c_inv Hc) Hn). f_equal.
    rewrite <- Eidf, Eh. unfold sid_of. now rewrite (c_node Hc).
Qed.

Lemma from_bytes_sound_witness :
  exists m st2,
    from_bytes 4 (pack_N_FMT [] [x78] (q_hash [x78])) empty_state = Ok m st2 /\
    sid 4 m st2 =
      Ok (skipn (DIGEST_SIZE + STORY_SIZE) (pack_N_FMT [] [x78] (q_hash [x78]))) st2.
Proof.
  assert (E : exists m st2,
             from_bytes 4 (pack_N_FMT [] [x78] (q_hash [x78])) empty_state = Ok m st2)
    by (vm_compute; do 2 eexists; reflexivity).
  destruct E as (m & st2 & E). exists m, st2. split; [exact E|].
  apply (from_bytes_sound empty_state 4 _ m st2 Inv_empty); [simpl; lia|exact E].
Defined.

(** A buffer that decodes to a valid story but carries another sid than
    the one computed: [from_bytes] raises [ValueError] only after the node
    has been built, and the rejected node stays in the registry. *)
Theorem rejected_node_registered (st : state) (f : nat) (b : bytes) (s : str) :
  Inv st -> S (length (heap st)) < f -> length b = TOTAL_SIZE ->
  UTF8.decode (rstrip0 (firstn STORY_SIZE (skipn DIGEST_SIZE b))) = Some s ->
  existsb (N.eqb 0) s = false ->
  skipn (DIGEST_SIZE + STORY_SIZE) b <>
    q_hash (key_id st (decoded_parent (firstn DIGEST_SIZE b)) ++
            rstrip0 (firstn STORY_SIZE (skipn DIGEST_SIZE b))) ->
  exists st',
    from_bytes f b st = Raise ValueError st' /\
    Inv st' /\ length (heap st') = S (length (heap st)) /\
    story_of st' (length (heap st)) = s /\
    dict_contains (run f) (_all st') (VNode (length (heap st))) st' = Ok true st' /\
    dict_contains (run f) (_children st') (VNode (length (heap st))) st' = Ok true st'.
Proof.
  intros HInv Hf Hlen Hdec Hnull Hne.
  destruct (unpack_total b Hlen) as (pf & sf & idf & Hun).
  destruct (unpack_fields_of b pf sf idf Hun) as (_ & Epf & Esf & Eidf).
  rewrite <- Epf, <- Esf, <- Eidf in *.
  destruct (from_bytes_eval st f b pf sf idf s HInv Hf Hun Hdec Hnull) as (st' & Hc & HE).
  replace (bytes_eqb idf (q_hash (key_id st (decoded_parent pf) ++ rstrip0 sf)))
    with false in HE by (symmetry; now apply bytes_eqb_neq).
  destruct (node_fields st' _ _ (c_node Hc)) as [_ Hst]. cbn [_story] in Hst.
  assert (Hn : length (heap st) < length (heap st')) by (rewrite (c_length Hc); lia).
  assert (Hf' : length (heap st') < f) by (rewrite (c_length Hc); lia).
  assert (Hcont : dict_contains (run f) (_all st') (VNode (length (heap st))) st' =
                  Ok true st').
  { apply current_contains; auto. apply (c_inv Hc).
    apply (constructed_is_current st s (decoded_parent pf) (rstrip0 sf) st' Hc). }
  exists st'.
  refine (conj HE (conj (c_inv Hc) (conj (c_length Hc) (conj Hst (conj Hcont _))))).
  rewrite (Inv_contains st' f (_children st') (VNode (length (heap st))) (c_inv Hc)
             Hf' Hn (children_keys_ok _ st' _ (r_children (c_inv Hc)))).
  rewrite (Inv_contains st' f (_all st') (VNode (length (heap st))) (c_inv Hc)
             Hf' Hn (all_keys_ok _ st' _ (r_all (c_inv Hc)))) in Hcont.
  now rewrite <- (contains_keys st' (_all st') (_children st') _ (r_keys (c_inv Hc))).
Qed.

Lemma rejected_node_registered_witness :
  exists st',
    from_bytes 4 (pack_N_FMT [] [x78] (zeros DIGEST_SIZE)) empty_state =
      Raise ValueError st' /\
    length (heap st') = 1.
Proof.
  destruct (rejected_node_registered empty_state 4
              (pack_N_FMT [] [x78] (zeros DIGEST_SIZE)) [120%N] Inv_empty)
    as (st' & E & _ & Hl & _).
  - simpl. lia.
  - apply pack_N_FMT_length.
  - vm_compute. reflexivity.
  - reflexivity.
  - vm_compute. discriminate.
  - exists st'. split; [exact E|exact Hl].
Defined.

(** ** Encoding *)

(** [to_bytes] of a node of a well-formed registry returns [TOTAL_SIZE]
    bytes: the pid padded to 64 bytes, the encoded story cut or padded to
    896 bytes, and the sid.  The bytes are cached: a second call returns
    them again and changes nothing, and neither call touches the two
    dictionaries. *)
Theorem to_bytes_layout (st : state) (f n : nat) :
  Inv st -> cache_ok st -> n < length (heap st) -> length (heap st) < f ->
  exists b u p s st1,
    to_bytes f n st = Ok b st1 /\ length b = TOTAL_SIZE /\
    UTF8.encode (story_of st n) = Some u /\
    pid f n st = Ok p st /\ sid f n st = Ok s st /\
    firstn DIGEST_SIZE b = fit DIGEST_SIZE p /\
    firstn STORY_SIZE (skipn DIGEST_SIZE b) = fit STORY_SIZE u /\
    skipn (DIGEST_SIZE + STORY_SIZE) b = s /\
    to_bytes f n st1 = Ok b st1 /\
    _all st1 = _all st /\ _children st1 = _children st /\
    Inv st1 /\ cache_ok st1.
Proof.
  intros HInv Hc Hn Hf.
  destruct (to_bytes_state st f n HInv Hc Hn Hf)
    as (u & st1 & Hu & E1 & E2 & HInv1 & Hc1 & _ & _ & Ha & Hch).
  set (b := pack_N_FMT (pid_of st n) u (sid_of st n)) in *.
  destruct (Inv_node st n HInv Hn) as (_ & u' & _ & _ & Hs & _).
  assert (Hsl : length (sid_of st n) = DIGEST_SIZE) by (rewrite Hs; apply q_hash_length).
  destruct (unpack_fields_of b _ _ _ (unpack_pack (pid_of st n) u (sid_of st n)))
    as (Hlen & Epf & Esf & Eidf).
  exists b, u, (pid_of st n), (sid_of st n), st1.
  refine (conj E1 (conj Hlen (conj Hu (conj (Inv_pid st f n HInv Hn Hf)
            (conj (Inv_sid st f n HInv Hn) (conj (eq_sym Epf) (conj (eq_sym Esf)
            (conj _ (conj E2 (conj Ha (conj Hch (conj HInv1 Hc1)))))))))))).
  rewrite <- Eidf. now apply fit_exact.
Qed.

Lemma to_bytes_layout_witness :
  exists b st1, to_bytes 6 1 st_w2 = Ok b st1 /\ length b = TOTAL_SIZE /\
                to_bytes 6 1 st1 = Ok b st1.
Proof.
  destruct (to_bytes_layout st_w2 6 1 Inv_w2 cache_ok_w2)
    as (b & u & p & s & st1 & E & Hl & _ & _ & _ & _ & _ & _ & E2 & _);
    try (simpl; lia).
  exists b, st1. auto.
Defined.

(** ** Retrace *)

Lemma retrace_loop_sound (st : state) (f : nat) (stop : value) :
  Inv st -> length (heap st) < f -> val_ok (length (heap st)) stop ->
  forall k cur acc, cur < length (heap st) ->
    retrace_loop (run f) k cur stop acc st = OutOfFuel \/
    exists l, retrace_walk st stop cur l /\
              retrace_loop (run f) k cur stop acc st = Ok (acc ++ l) st.
Proof.
  intros HInv Hf Hstop k. induction k as [|k IH]; intros cur acc Hcur; [now left|].
  cbn [retrace_loop].
  pose proof (Inv_parent st f cur HInv Hcur Hf) as Hpar. unfold parent in Hpar.
  destruct (Inv_parent_id st cur HInv Hcur) as [_ Hpv].
  pose proof (Inv_eq st f (parent_of st cur) stop HInv Hf Hpv Hstop) as Heq.
  unfold eq in Heq.
  assert (Hne : py_ne (run f) (parent_of st cur) stop st =
                Ok (negb (eq_of st (parent_of st cur) stop)) st)
    by (unfold py_ne; now rewrite (bind_Ok _ _ _ _ _ Heq)).
  rewrite (bind_Ok _ _ _ _ _ Hpar), (bind_Ok _ _ _ _ _ Hne).
  destruct (eq_of st (parent_of st cur) stop) eqn:He; cbn [negb].
  - right. exists []. split; [now apply walk_stop|]. now rewrite app_nil_r.
  - rewrite (bind_Ok _ _ _ _ _ Hpar).
    destruct (parent_of st cur) as [|d|p] eqn:Hp.
    + right. exists []. split; [now apply walk_root|].
      rewrite (bind_Ok _ _ _ _ _ Hpar). now rewrite app_nil_r.
    + right. exists []. split; [now apply (@walk_unresolved st stop cur d)|].
      now rewrite app_nil_r.
    + rewrite !(bind_Ok _ _ _ _ _ Hpar).
      destruct (IH p (acc ++ [p]) Hpv) as [E|(l & Hw & E)]; [now left|].
      right. exists (p :: l). split; [now apply (@walk_step st stop cur p l)|].
      rewrite E. now rewrite <- app_assoc.
Qed.

Lemma walk_excludes (st : state) (stop : value) (cur : nat) (l : list nat) :
  Inv st -> retrace_walk st stop cur l -> cur < length (heap st) ->
  Forall (fun m => m < length (heap st) /\ eq_of st (VNode m) stop = false) l.
Proof.
  intros HInv Hw. induction Hw as [cur He|cur d Hp He|cur Hp|cur p l Hp He Hw IH];
    intros Hcur; try constructor.
  - destruct (Inv_parent_id st cur HInv Hcur) as [_ Hpv]. rewrite Hp in Hpv.
    split; assumption.
  - apply IH. destruct (Inv_parent_id st cur HInv Hcur) as [_ Hpv].
    now rewrite Hp in Hpv.
Qed.

(** On a well-formed registry [retrace] raises nothing and changes
    nothing.  When the loop ends, the list starts with the node itself,
    goes on along the parents as the three stopping rules say, and none of
    the nodes after the first compares equal to [stop]. *)
Theorem retrace_sound (st : state) (f n : nat) (stop : value) :
  Inv st -> n < length (heap st) -> val_ok (length (heap st)) stop ->
  length (heap st) < f ->
  retrace f n stop st = OutOfFuel \/
  exists l,
    retrace f n stop st = Ok (n :: l) st /\
    retrace_walk st stop n l /\
    Forall (fun m => m < length (heap st) /\
                     eq f (VNode m) stop st = Ok false st) l.
Proof.
  intros HInv Hn Hstop Hf. unfold retrace, Node_retrace.
  destruct (retrace_loop_sound st f stop HInv Hf Hstop f n [n] Hn) as [E|(l & Hw & E)];
    [now left|].
  right. exists l. split; [exact E|]. split; [exact Hw|].
  eapply Forall_impl; [|apply (walk_excludes st stop n l HInv Hw Hn)].
  intros m [Hm He]. split; [exact Hm|].
  rewrite (Inv_eq st f (VNode m) stop HInv Hf Hm Hstop). now rewrite He.
Qed.

Lemma retrace_sound_witness :
  exists l, retrace 6 1 VNone st_w2 = Ok (1 :: l) st_w2 /\
            retrace_walk st_w2 VNone 1 l.
Proof.
  destruct (retrace_sound st_w2 6 1 VNone Inv_w2) as [E|(l & E & Hw & _)];
    try (simpl; lia); try exact I.
  - exfalso. revert E. vm_compute. discriminate.
  - exists l. split; assumption.
Defined.

(** ** The identity map answers with the newest instance *)

Lemma matches_equal_nodes (st : state) (m n : nat) (hk : hashv) (k : value) :
  Inv st -> m < length (heap st) -> n < length (heap st) ->
  eq_of st (VNode m) (VNode n) = true -> hk = hash_of st k ->
  matches st (hash_of st (VNode m)) (VNode m) hk k =
  matches st (hash_of st (VNode n)) (VNode n) hk k.
Proof.
  intros HInv Hm Hn He Hk.
  pose proof (eq_of_sid st m n HInv Hm Hn He) as Hs.
  destruct (eq_of_nodes_inv st m n He) as [Hp Hst].
  unfold matches. cbn [hash_of]. rewrite Hs.
  destruct k as [|x|q].
  - reflexivity.
  - cbn [value_is eq_of]. now rewrite Hs.
  - assert (E : eq_of st (VNode q) (VNode m) = eq_of st (VNode q) (VNode n))
      by (cbn [eq_of]; now rewrite Hp, Hst).
    rewrite E. cbn [value_is].
    destruct (Nat.eqb_spec q m) as [Eqm|Hqm]; destruct (Nat.eqb_spec q n) as [Eqn|Hqn];
      cbn [orb]; auto.
    + subst q hk. cbn [hash_of]. rewrite Hs, hashv_eqb_refl.
      rewrite <- E, eq_of_refl. reflexivity.
    + subst q hk. cbn [hash_of]. rewrite hashv_eqb_refl.
      rewrite eq_of_refl. reflexivity.
Qed.

Lemma find_keys_equal_nodes (st : state) (m n : nat) (ks : list (hashv * value)) :
  Inv st -> m < length (heap st) -> n < length (heap st) ->
  eq_of st (VNode m) (VNode n) = true ->
  Forall (fun e => fst e = hash_of st (snd e)) ks ->
  forall i, find_keys st (hash_of st (VNode m)) (VNode m) ks i =
            find_keys st (hash_of st (VNode n)) (VNode n) ks i.
Proof.
  intros HInv Hm Hn He Hks. induction Hks as [|[hk k] ks Hk _ IH]; intros i;
    [reflexivity|].
  cbn [find_keys]. rewrite (matches_equal_nodes st m n hk k HInv Hm Hn He Hk).
  now rewrite IH.
Qed.

Lemma all_keys_hashed (st : state) :
  Inv st -> Forall (fun e => fst e = hash_of st (snd e)) (keys (_all st)).
Proof.
  intros HInv. unfold keys. apply Forall_map.
  eapply Forall_impl; [|apply (r_all HInv)].
  intros [[h k] v] [[_ [_ Hh]] _]. exact Hh.
Qed.

(** After [n = Node(story, parent)] the identity map answers a lookup of
    any node equal to [n] with [n]: a node whose parent slot holds an
    older instance equal to [n] now reads [n] as its parent. *)
Theorem newest_instance_wins (st : state) (f : nat) (story : str) (parent0 : value)
  (n : nat) (st' : state) (c m : nat) :
  Inv st -> S (length (heap st)) < f -> val_ok (length (heap st)) parent0 ->
  Node f story parent0 st = Ok n st' ->
  c < length (heap st') -> slot_of st' c = VNode m ->
  eq f (VNode m) (VNode n) st' = Ok true st' ->
  parent f c st' = Ok (VNode n) st'.
Proof.
  intros HInv Hf Hp HN Hc Hslot He.
  destruct (Node_init_Ok_inv st story parent0 f n st' HInv Hf Hp HN)
    as (-> & u & _ & Hcon).
  pose proof (c_inv Hcon) as HInv'.
  assert (Hf' : length (heap st') < f) by (rewrite (c_length Hcon); exact Hf).
  assert (Hn : length (heap st) < length (heap st')) by (rewrite (c_length Hcon); lia).
  assert (Hm : m < length (heap st')).
  { destruct (Inv_node st' c HInv' Hc) as (_ & _ & _ & _ & _ & _ & Hv).
    now rewrite Hslot in Hv. }
  rewrite (Inv_eq st' f (VNode m) (VNode (length (heap st))) HInv' Hf' Hm Hn) in He.
  injection He as He.
  rewrite (Inv_parent st' f c HInv' Hc Hf'). f_equal.
  destruct (constructed_is_current st story parent0 u st' Hcon)
    as (idx & h & k & Hl & Hnth).
  unfold parent_of. rewrite Hslot.
  unfold lookup_of in *.
  rewrite (find_keys_equal_nodes st' m _ _ HInv' Hm Hn He (all_keys_hashed st' HInv')).
  now rewrite Hl, Hnth.
Qed.

Lemma newest_instance_wins_witness : parent 6 1 st_w3 = Ok (VNode 2) st_w3.
Proof.
  apply (newest_instance_wins st_w2 6 [114%N] VNone 2 st_w3 1 0 Inv_w2).
  - simpl. lia.
  - exact I.
  - vm_compute. reflexivity.
  - simpl. lia.
  - reflexivity.
  - vm_compute. reflexivity.
Defined.

(** ** Children *)

Section ChildBuilt.

Variables (st : state) (story : str) (parent : value) (u : bytes) (f : nat).
Hypothesis HInv : Inv st.
Hypothesis Hf : S (length (heap st)) < f.
Hypothesis Hpar : val_ok (length (heap st)) parent.
Hypothesis Hp0 : parent <> VNone.
Hypothesis Hu : UTF8.encode story = Some u.
Hypothesis Hlen : length story <= STORY_SIZE.
Hypothesis Hnull : existsb (N.eqb 0) story = false.

Let n := length (heap st).
Let nd0 := mkNode story parent None None.
Let s1 := set_heap (heap st ++ [nd0]) st.

(** The constructor, with the entry of the parent in the children map it
    leaves. *)
Lemma child_built :
  exists st' i hk k ws,
    Node f story parent st = Ok n st' /\
    constructed st story parent u st' /\
    lookup_of st' (_children st') parent = Some i /\
    nth_error (_children st') i = Some (hk, k, ws).
Proof.
  assert (Hnf : n < f) by (unfold n; lia).
  pose proof (cons_reg1 st story parent HInv) as Hreg1. fold n nd0 s1 in Hreg1.
  set (s2 := registered_parent s1 parent).
  assert (Hreg2 : registry_ok n s2)
    by (apply register_parent_registry; auto).
  assert (Hheap2 : heap s2 = heap s1) by apply registered_parent_heap.
  destruct (registered_parent_all s1 parent) as (ext & Hext & Hnil). fold s2 in Hext.
  assert (Hext0 : match parent with VBytes _ => True | _ => ext = [] end).
  { apply ext_nil_node; [exact Hp0|]. intros p Ep. apply Hnil.
    pose proof Hpar as Hpar'. rewrite Ep in Hpar'. simpl in Hpar'. rewrite Ep.
    destruct (covered_contains s1 _ p (r_covered Hreg1 Hpar')) as [i Hi].
    unfold contains_of, lookup_of. now rewrite Hi. }
  destruct (fresh_cached st story parent u f Hf Hpar Hu s2 ext Hreg2 Hheap2 Hext Hext0)
    as [Hc Hd].
  fold n nd0 in Hc, Hd.
  set (s3 := with_sid n (fresh_digest s2 nd0 u) s2) in *.
  destruct Hc as (Hhash & Hall3 & Hpend & Hag3 & Hlen3 & Hnth3 & Hkeys3).
  fold n in Hhash, Hpend, Hag3, Hlen3, Hnth3.
  destruct (pending_registry_S n s3 Hpend) as [Hheap3 HallS].
  assert (Hcont : contains_of s2 (_children s2) parent = true).
  { rewrite <- (contains_keys s2 (_all s2) (_children s2) parent (r_keys Hreg2)).
    pose proof (register_parent_contains s1 parent Hp0) as Hc. fold s2 in Hc.
    unfold contains_of in *.
    rewrite (agree_lookup n s1 s2 (agree_same_heap n s1 s2 Hheap2) (r_heap Hreg1)
               (_all s2) parent Hpar (all_keys_ok n s2 _ (r_all Hreg2))).
    exact Hc. }
  destruct (contains_lookup s2 (_children s2) parent Hcont)
    as (i & hk & k & ws & Hlook & Hnth).
  assert (Hfind : dict_find (run f) (_children s2) parent s2 = Ok (Some i) s2).
  { rewrite <- Hlook.
    apply (char_find n s2 f (r_heap Hreg2) (r_all Hreg2) Hnf (_children s2) parent
             Hpar (children_keys_ok n s2 _ (r_children Hreg2))). }
  set (hh := hash_of s3 (VNode n)) in *.
  set (s4 := added_state s3 n hh i ws).
  assert (Hadd : children_add (run f) parent n s2 = Ok tt s4).
  { apply (children_add_eval (S n) s2 s3 f parent n hh i hk k ws Hheap3 HallS
             (p_children Hpend) Hf (Nat.lt_succ_diag_r n) eq_refl Hhash eq_refl
             Hfind Hnth). }
  assert (Hpend4 : pending n s4).
  { apply (pending_children_update n s3 s4 Hpend); try reflexivity.
    - unfold s4, added_state. cbn [_children set_children]. apply keys_upd.
    - apply (added_children_ok (S n) s2 s3 n hh i hk k ws (p_children Hpend)
               (Nat.lt_succ_diag_r n) eq_refl eq_refl Hnth). }
  destruct (pending_registry_S n s4 Hpend4) as [Hheap4 Hall4].
  assert (Hhash4 : py_hash (run f) (VNode n) s4 = Ok (hash_of s4 (VNode n)) s4).
  { apply (char_hash (S n) s4 f Hheap4 Hall4 Hf (VNode n)). simpl. lia. }
  set (st' := registered_node s4 n).
  assert (HN : Node f story parent st = Ok n st').
  { unfold Node, Node__init__.
    replace (STORY_SIZE <? length story) with false
      by (symmetry; apply Nat.ltb_ge; exact Hlen).
    rewrite Hnull.
    rewrite (bind_Ok _ _ st s1 n) by reflexivity.
    rewrite (match_not_none _ _ _ Hp0).
    assert (Hstep : bind (register_parent (run f) parent)
                      (fun _ => children_add (run f) parent n) s1 = Ok tt s4).
    { rewrite (bind_Ok _ _ _ _ _
                 (register_parent_eval n s1 f parent Hreg1 Hnf Hp0 Hpar)).
      exact Hadd. }
    fold n. rewrite (bind_Ok _ _ s1 s4 tt Hstep).
    now rewrite (bind_Ok _ _ _ _ _ (register_node_eval n s4 s4 f Hpend4 Hf Hhash4 eq_refl)). }
  destruct (Node_init_ok st story parent u f HInv Hf Hpar Hu Hlen Hnull)
    as (st0 & HN0 & Hcon).
  fold (Node f story parent st) in HN0. rewrite HN in HN0. inversion HN0; subst st0.
  (* the entry of the parent after the two registrations *)
  assert (Hk4 : keys (_children s4) = keys (_children s2)).
  { unfold s4, added_state. cbn [_children set_children]. apply keys_upd. }
  assert (Hnth4 : nth_error (_children s4) i = Some (hk, k, added_set s3 n hh ws)).
  { unfold s4, added_state. cbn [_children set_children].
    change (_children s3) with (_children s2).
    now rewrite nth_error_upd_eq, Hnth. }
  assert (Hlook4 : lookup_of st' (_children s4) parent = Some i).
  { unfold lookup_of. rewrite Hk4.
    assert (Hag : agree n s2 st').
    { intros j Hj. unfold st', registered_node, s4, added_state, s3.
      cbn [heap set_children with_sid set_heap].
      now rewrite nth_error_upd_neq by lia. }
    pose proof (agree_lookup n s2 st' Hag (r_heap Hreg2) (_children s2) parent Hpar
                  (children_keys_ok n s2 _ (r_children Hreg2))) as E.
    unfold lookup_of in E. rewrite E. exact Hlook. }
  exists st', i, hk, k, (added_set s3 n hh ws).
  split; [exact HN|]. split; [exact Hcon|]. split.
  - unfold st' at 2. unfold registered_node. cbn [_children].
    destruct (contains_of s4 (_children s4) (VNode n)); [exact Hlook4|].
    unfold lookup_of in *. rewrite keys_app. now apply find_keys_app_Some.
  - unfold st', registered_node. cbn [_children].
    destruct (contains_of s4 (_children s4) (VNode n)); [exact Hnth4|].
    rewrite nth_error_app1; [exact Hnth4|]. apply nth_error_Some. congruence.
Qed.

End ChildBuilt.

Lemma children_keys_hashed (st : state) :
  Inv st -> Forall (fun e => fst e = hash_of st (snd e)) (keys (_children st)).
Proof.
  intros HInv. unfold keys. apply Forall_map.
  eapply Forall_impl; [|apply (r_children HInv)].
  intros [[h k] ws] [[_ [_ Hh]] _]. exact Hh.
Qed.

Lemma node_has_children_entry (st : state) (n : nat) :
  Inv st -> n < length (heap st) ->
  exists i hk k ws, lookup_of st (_children st) (VNode n) = Some i /\
                    nth_error (_children st) i = Some (hk, k, ws).
Proof.
  intros HInv Hn. apply contains_lookup.
  destruct (covered_contains st _ n (r_covered HInv Hn)) as [i Hi].
  rewrite (r_keys HInv) in Hi. unfold contains_of, lookup_of. now rewrite Hi.
Qed.

Lemma children_eval (st : state) (f n i : nat) (hk : hashv) (k : value) (ws : weakset) :
  Inv st -> n < length (heap st) -> length (heap st) < f ->
  lookup_of st (_children st) (VNode n) = Some i ->
  nth_error (_children st) i = Some (hk, k, ws) ->
  children f n st = Ok (map snd ws) st.
Proof.
  intros HInv Hn Hf Hl Hnth. unfold children, Node_children, gets.
  rewrite (bind_Ok _ _ st st (_children st)) by reflexivity.
  assert (Hfind : dict_find (run f) (_children st) (VNode n) st = Ok (Some i) st).
  { rewrite <- Hl.
    apply (char_find _ st f (r_heap HInv) (r_all HInv) Hf (_children st) (VNode n) Hn
             (children_keys_ok _ st _ (r_children HInv))). }
  assert (Hget : dict_getitem (run f) (_children st) (VNode n) st = Ok ws st).
  { unfold dict_getitem. rewrite (bind_Ok _ _ _ _ _ Hfind). now rewrite Hnth. }
  now rewrite (bind_Ok _ _ _ _ _ Hget).
Qed.

(** [children] of a node of a well-formed registry never raises
    [KeyError]: it returns nodes of the registry and changes nothing; and
    two nodes that compare equal have one child set. *)
Theorem children_total (st : state) (f m n : nat) :
  Inv st -> m < length (heap st) -> n < length (heap st) ->
  length (heap st) < f ->
  (exists l, children f n st = Ok l st /\
             Forall (fun c => c < length (heap st)) l) /\
  (eq f (VNode m) (VNode n) st = Ok true st ->
   children f m st = children f n st).
Proof.
  intros HInv Hm Hn Hf.
  destruct (node_has_children_entry st n HInv Hn) as (i & hk & k & ws & Hl & Hnth).
  split.
  - exists (map snd ws). split; [now apply (children_eval st f n i hk k ws)|].
    pose proof (r_children HInv) as Hch. rewrite Forall_forall in Hch.
    destruct (Hch _ (nth_error_In _ _ Hnth)) as [_ Hws].
    apply Forall_map. eapply Forall_impl; [|exact Hws]. intros e [He _]. exact He.
  - intros He.
    rewrite (Inv_eq st f (VNode m) (VNode n) HInv Hf Hm Hn) in He. injection He as He.
    rewrite (children_eval st f n i hk k ws HInv Hn Hf Hl Hnth).
    apply (children_eval st f m i hk k ws HInv Hm Hf); [|exact Hnth].
    unfold lookup_of in *.
    now rewrite (find_keys_equal_nodes st m n _ HInv Hm Hn He (children_keys_hashed st HInv)).
Qed.

Lemma children_total_witness :
  (exists l, children 6 0 st_w3 = Ok l st_w3) /\
  children 6 2 st_w3 = children 6 0 st_w3.
Proof.
  destruct (children_total st_w3 6 2 0 Inv_w3) as [(l & E & _) H]; try (simpl; lia).
  split; [exists l; exact E|]. apply H. vm_compute. reflexivity.
Defined.

(** [self.branch(story)] returns the node [Node(story, self)] returns,
    or raises what it raises: on a well-formed registry the [add] that
    follows the constructor raises nothing, [self] having a child set,
    and it leaves the nodes, the identity map and the keys of the children
    map as the constructor left them. *)
Theorem branch_after_Node (st : state) (f self : nat) (story : str) :
  Inv st -> self < length (heap st) -> S (length (heap st)) < f ->
  (forall n st1,
     Node f story (VNode self) st = Ok n st1 ->
     exists st2,
       branch f self story st = Ok n st2 /\
       heap st2 = heap st1 /\ _all st2 = _all st1 /\
       keys (_children st2) = keys (_children st1)) /\
  (forall e st1,
     Node f story (VNode self) st = Raise e st1 ->
     branch f self story st = Raise e st1).
Proof.
  intros HInv Hp Hf. split.
  - intros n st1 HN.
    destruct (Node_init_Ok_inv st story (VNode self) f n st1 HInv Hf Hp HN)
      as (-> & u & _ & Hcon).
    pose proof (c_inv Hcon) as HInv1.
    destruct (children_add_Inv st1 f self (length (heap st)) HInv1)
      as (st2 & Hadd & HInv2 & Hh & Ha); try (rewrite (c_length Hcon); lia).
    exists st2. split; [|split; [exact Hh|split; [exact Ha|]]].
    + unfold branch, Node_branch. unfold Node in HN.
      now rewrite (bind_Ok _ _ _ _ _ HN), (bind_Ok _ _ _ _ _ Hadd).
    + now rewrite <- (r_keys HInv2), <- (r_keys HInv1), Ha.
  - intros e st1 HN. unfold branch, Node_branch. unfold Node in HN.
    now rewrite (bind_Raise _ _ _ _ _ HN).
Qed.

Lemma branch_after_Node_witness :
  exists st2, branch 6 0 [120%N] st_w1 = Ok 1 st2 /\ _all st2 = _all st_w2.
Proof.
  destruct (branch_after_Node st_w1 6 0 [120%N] Inv_w1) as [H _];
    try (simpl; lia).
  destruct (H 1 st_w2) as (st2 & E & _ & Ha & _); [vm_compute; reflexivity|].
  exists st2. split; assumption.
Defined.

(** ** [repr] *)

Lemma hex_digit_ascii (n : N) : (n < 16)%N -> (Byte.to_N (hex_digit n) < 128)%N.
Proof.
  intros H. unfold hex_digit. destruct (n <? 10)%N; rewrite to_N_byte_of; lia.
Qed.

Lemma hexlify_ascii (s : bytes) :
  Forall (fun b => (Byte.to_N b < 128)%N) (hexlify s).
Proof.
  induction s as [|x s IH]; [constructor|]. cbn [hexlify].
  pose proof (Byte.to_N_bounded x) as Hx.
  constructor; [|constructor; [|exact IH]]; apply hex_digit_ascii.
  - apply N.Div0.div_lt_upper_bound. lia.
  - apply N.mod_lt. lia.
Qed.

Lemma hexlify_length (s : bytes) : length (hexlify s) = 2 * length s.
Proof. induction s as [|x s IH]; simpl; [reflexivity|]. rewrite IH. lia. Qed.

Lemma decode_ascii (l : bytes) :
  Forall (fun b => (Byte.to_N b < 128)%N) l ->
  UTF8.decode l = Some (map Byte.to_N l).
Proof.
  induction 1 as [|b l Hb _ IH]; [reflexivity|].
  cbn [UTF8.decode map].
  replace (Byte.to_N b <? 128)%N with true by (symmetry; now apply N.ltb_lt).
  now rewrite IH.
Qed.

(** [repr] of a node of a well-formed registry raises nothing and changes
    nothing: it is ["<Node : "], the first four bytes of the sid as eight
    hexadecimal digits, and [">"], 17 characters in all, so that nodes
    that compare equal print the same. *)
Theorem repr_shape (st : state) (f m n : nat) :
  Inv st -> m < length (heap st) -> n < length (heap st) ->
  length (heap st) < f ->
  (exists s r, sid f n st = Ok s st /\ repr f n st = Ok r st /\
               r = [60; 78; 111; 100; 101; 32; 58; 32]%N ++
                   map Byte.to_N (hexlify (firstn 4 s)) ++ [62%N] /\
               length r = 17) /\
  (eq f (VNode m) (VNode n) st = Ok true st -> repr f m st = repr f n st).
Proof.
  intros HInv Hm Hn Hf.
  assert (R : forall i, i < length (heap st) ->
            repr f i st =
            Ok ([60; 78; 111; 100; 101; 32; 58; 32]%N ++
                map Byte.to_N (hexlify (firstn 4 (sid_of st i))) ++ [62%N]) st).
  { intros i Hi. unfold repr, Node__repr__.
    pose proof (Inv_sid st f i HInv Hi) as Hs. unfold sid in Hs.
    rewrite (bind_Ok _ _ _ _ _ Hs).
    assert (E : firstn 8 (hexlify (sid_of st i)) = hexlify (firstn 4 (sid_of st i))).
    { generalize (sid_of st i). intros l.
      destruct l as [|a [|b [|c [|d l]]]]; reflexivity. }
    rewrite E, (decode_ascii _ (hexlify_ascii _)). reflexivity. }
  split.
  - exists (sid_of st n), ([60; 78; 111; 100; 101; 32; 58; 32]%N ++
             map Byte.to_N (hexlify (firstn 4 (sid_of st n))) ++ [62%N]).
    split; [now apply Inv_sid|]. split; [now apply R|]. split; [reflexivity|].
    destruct (Inv_node st n HInv Hn) as (_ & u & _ & _ & Hs & _).
    pose proof (q_hash_length (pid_of st n ++ u)) as Hl. rewrite <- Hs in Hl.
    rewrite !length_app, length_map, hexlify_length, length_firstn, Hl.
    reflexivity.
  - intros He.
    rewrite (Inv_eq st f (VNode m) (VNode n) HInv Hf Hm Hn) in He. injection He as He.
    rewrite (R m Hm), (R n Hn). now rewrite (eq_of_sid st m n HInv Hm Hn He).
Qed.

Lemma repr_shape_witness :
  exists r, repr 6 1 st_w2 = Ok r st_w2 /\ length r = 17.
Proof.
  destruct (repr_shape st_w2 6 1 1 Inv_w2) as [(s & r & _ & E & _ & Hl) _];
    try (simpl; lia).
  exists r. split; assumption.
Defined.

(** ** The parent is registered *)

(** After [Node(story, parent)] returns with a parent that is not [None],
    the parent, be it a node or a raw digest, is a key of the identity map
    and of the children map. *)
Theorem parent_registered (st : state) (f : nat) (story : str) (parent0 : value)
  (n : nat) (st' : state) :
  Inv st -> S (length (heap st)) < f -> val_ok (length (heap st)) parent0 ->
  parent0 <> VNone ->
  Node f story parent0 st = Ok n st' ->
  dict_contains (run f) (_all st') parent0 st' = Ok true st' /\
  dict_contains (run f) (_children st') parent0 st' = Ok true st'.
Proof.
  intros HInv Hf Hp Hp0 HN.
  destruct (Node_init_cases st story parent0 f HInv Hf Hp)
    as [(u & s & Hu & Hlen & Hnull & E & _)|[[_ E]|[_ [s E]]]];
    fold (Node f story parent0 st) in E; rewrite E in HN; try discriminate.
  inversion HN; subst n s.
  destruct (child_built st story parent0 u f HInv Hf Hp Hp0 Hu Hlen Hnull)
    as (st0 & i & hk & k & ws & HN0 & Hcon & Hl & _).
  rewrite E in HN0. inversion HN0; subst st0.
  pose proof (c_inv Hcon) as HInv'.
  assert (Hf' : length (heap st') < f) by (rewrite (c_length Hcon); exact Hf).
  assert (Hp' : val_ok (length (heap st')) parent0).
  { rewrite (c_length Hcon). now apply val_ok_S. }
  rewrite (Inv_contains st' f (_all st') parent0 HInv' Hf' Hp'
             (all_keys_ok _ st' _ (r_all HInv'))).
  rewrite (Inv_contains st' f (_children st') parent0 HInv' Hf' Hp'
             (children_keys_ok _ st' _ (r_children HInv'))).
  rewrite (contains_keys st' (_all st') (_children st') parent0 (r_keys HInv')).
  unfold contains_of. rewrite Hl. auto.
Qed.

Lemma parent_registered_witness :
  dict_contains (run 6) (_all st_w4) (VBytes (sid_of st_w3 0)) st_w4 = Ok true st_w4 /\
  dict_contains (run 6) (_children st_w4) (VBytes (sid_of st_w3 0)) st_w4 =
    Ok true st_w4.
Proof.
  apply (parent_registered st_w3 6 [121%N] (VBytes (sid_of st_w3 0)) 3 st_w4 Inv_w3).
  - simpl. lia.
  - exact I.
  - discriminate.
  - vm_compute. reflexivity.
Defined.

(** ** One sid for two nodes *)

Lemma encode_app (a b : str) (ua ub : bytes) :
  UTF8.encode a = Some ua -> UTF8.encode b = Some ub ->
  UTF8.encode (a ++ b) = Some (ua ++ ub).
Proof.
  revert ua. induction a as [|c a IH]; intros ua Ha Hb.
  - cbn [UTF8.encode] in Ha. apply UTF8Facts.Some_inj in Ha. now subst ua.
  - cbn [UTF8.encode app] in *.
    destruct (UTF8.encode_char c) as [bc|]; [|discriminate].
    destruct (UTF8.encode a) as [ra|]; [|discriminate].
    apply UTF8Facts.Some_inj in Ha. subst ua.
    rewrite (IH ra eq_refl Hb). now rewrite app_assoc.
Qed.

(** The sid hashes the parent identity and the story end to end, with
    nothing between them: a root whose story begins with the text of a
    digest [d] has the sid, and so the hash, of the node with the rest of
    that story and the parent [d], and the two do not compare equal. *)
Theorem sid_ambiguity (st : state) (f m n : nat) (sd : str) (d : bytes) :
  Inv st -> m < length (heap st) -> n < length (heap st) ->
  length (heap st) < f ->
  pid f m st = Ok [] st -> pid f n st = Ok d st -> d <> [] ->
  UTF8.encode sd = Some d ->
  story_of st m = sd ++ story_of st n ->
  (exists s, sid f m st = Ok s st /\ sid f n st = Ok s st) /\
  (exists h, hash f (VNode m) st = Ok h st /\ hash f (VNode n) st = Ok h st) /\
  eq f (VNode m) (VNode n) st = Ok false st.
Proof.
  intros HInv Hm Hn Hf Pm Pn Hd Hsd Hst.
  rewrite (Inv_pid st f m HInv Hm Hf) in Pm. injection Pm as Pm.
  rewrite (Inv_pid st f n HInv Hn Hf) in Pn. injection Pn as Pn.
  destruct (Inv_node st m HInv Hm) as (_ & um & _ & Hum & Hsm & _).
  destruct (Inv_node st n HInv Hn) as (_ & un & _ & Hun & Hsn & _).
  rewrite Hst, (encode_app sd _ d un Hsd Hun) in Hum.
  apply UTF8Facts.Some_inj in Hum. subst um.
  assert (Es : sid_of st m = sid_of st n) by (rewrite Hsm, Hsn, Pm, Pn; reflexivity).
  split; [|split].
  - exists (sid_of st m). split; [now apply Inv_sid|].
    rewrite Es. now apply Inv_sid.
  - exists (hash_of st (VNode m)). split; [now apply Inv_hash|].
    replace (hash_of st (VNode m)) with (hash_of st (VNode n))
      by (simpl; now rewrite Es).
    now apply Inv_hash.
  - rewrite (Inv_eq st f (VNode m) (VNode n) HInv Hf Hm Hn). f_equal.
    cbn [eq_of]. rewrite Pm, Pn.
    replace (bytes_eqb d []) with false; [reflexivity|].
    symmetry. now apply bytes_eqb_neq.
Qed.

Lemma Inv_a2 : Inv st_a2.
Proof.
  assert (H1 : Inv st_a1).
  { apply (Inv_step empty_state (repeat 65%N 64 ++ [120%N]) VNone 6 0 st_a1 Inv_empty).
    - simpl. lia.
    - exact I.
    - vm_compute. reflexivity. }
  apply (Inv_step st_a1 [120%N] (VBytes (repeat x41 64)) 6 1 st_a2 H1).
  - simpl. lia.
  - exact I.
  - vm_compute. reflexivity.
Qed.

Lemma sid_ambiguity_witness :
  exists s, sid 6 0 st_a2 = Ok s st_a2 /\ sid 6 1 st_a2 = Ok s st_a2.
Proof.
  destruct (sid_ambiguity st_a2 6 0 1 (repeat 65%N 64) (repeat x41 64) Inv_a2)
    as [H _]; try (simpl; lia); try (vm_compute; reflexivity).
  - discriminate.
  - exact H.
Defined.

(** ** Witnesses of the well-formedness and tampering lemmas *)

Lemma reachable_w2 : reachable st_w2.
Proof.
  apply (@reach_Node 6 [120%N] (VNode 0) st_w1 1 st_w2).
  - apply (@reach_Node 6 [114%N] VNone empty_state 0 st_w1 reach_empty).
    + exact I.
    + simpl. lia.
    + vm_compute. reflexivity.
  - simpl. lia.
  - simpl. lia.
  - vm_compute. reflexivity.
Qed.

Lemma reachable_well_formed_witness :
  keys (_all st_w2) = keys (_children st_w2) /\
  length (sid_of st_w2 1) = DIGEST_SIZE.
Proof.
  destruct (reachable_well_formed st_w2 reachable_w2) as (_ & _ & Hk & Hs).
  split; [exact Hk|].
  destruct (Hs 1) as (u & _ & Hl & _); [simpl; lia|exact Hl].
Defined.

Lemma flipped_encoding_witness :
  exists b st1,
    to_bytes 6 1 st_w2 = Ok b st1 /\
    slot_hash_input (flip_bit 0 b) <> pid_of st_w2 1 ++ [x78].
Proof.
  destruct (flipped_encoding st_w2 6 1 [x78] 0 Inv_w2 cache_ok_w2)
    as (b & st1 & E & _ & Hne & _).
  - simpl. lia.
  - simpl. lia.
  - vm_compute. reflexivity.
  - unfold STORY_SIZE. simpl. lia.
  - reflexivity.
  - right. split; [vm_compute; reflexivity|vm_compute; discriminate].
  - unfold DIGEST_SIZE, STORY_SIZE. simpl. lia.
  - exists b, st1. split; assumption.
Defined.

(** ** Growth *)

(** A construction that returns never removes or reorders a key: the
    keys of the identity map and of the children map after it are the
    keys before it, in the same order, followed by the same new keys. *)
Theorem registry_only_grows (st : state) (f : nat) (story : str) (parent0 : value)
  (n : nat) (st' : state) :
  Inv st -> S (length (heap st)) < f -> val_ok (length (heap st)) parent0 ->
  Node f story parent0 st = Ok n st' ->
  exists ext,
    keys (_all st') = keys (_all st) ++ ext /\
    keys (_children st') = keys (_children st) ++ ext.
Proof.
  intros HInv Hf Hp HN.
  destruct (Node_init_Ok_inv st story parent0 f n st' HInv Hf Hp HN)
    as (_ & u & _ & Hcon).
  destruct (c_keys Hcon) as [ext Hext]. exists ext. split; [exact Hext|].
  now rewrite <- (r_keys (c_inv Hcon)), <- (r_keys HInv).
Qed.

Lemma registry_only_grows_witness :
  exists ext, keys (_all st_w2) = keys (_all st_w1) ++ ext /\
              keys (_children st_w2) = keys (_children st_w1) ++ ext.
Proof.
  apply (registry_only_grows st_w1 6 [120%N] (VNode 0) 1 st_w2 Inv_w1).
  - simpl. lia.
  - simpl. lia.
  - vm_compute. reflexivity.
Defined.

(** The pid of the node [self.branch(story)] returns is the sid of
    [self], which the call leaves as it was. *)
Theorem branch_pid (st : state) (f self : nat) (story : str) (n : nat)
  (st' : state) :
  Inv st -> self < length (heap st) -> S (length (heap st)) < f ->
  branch f self story st = Ok n st' ->
  exists s, sid f self st = Ok s st /\ sid f self st' = Ok s st' /\
            pid f n st' = Ok s st' /\ story_of st' n = story.
Proof.
  intros HInv Hs Hf HB.
  destruct (branch_Ok_inv st f self story n st' HInv Hs Hf HB)
    as (-> & HInv' & u & stc & _ & Hcon & Hh & _).
  assert (Hl : length (heap st') = S (length (heap st)))
    by (rewrite Hh; apply (c_length Hcon)).
  assert (Hs' : self < length (heap st')) by (rewrite Hl; lia).
  assert (Hn' : length (heap st) < length (heap st')) by (rewrite Hl; lia).
  assert (Hf' : length (heap st') < f) by (rewrite Hl; exact Hf).
  destruct (node_fields stc _ _ (c_node Hcon)) as [Hslot Hst].
  cbn [_parent _story] in Hslot, Hst.
  destruct (same_heap_fields stc st' (length (heap st)) Hh) as [E1 E2].
  assert (Es : sid_of st' self = sid_of st self).
  { unfold sid_of. rewrite Hh. now rewrite (c_same Hcon Hs). }
  exists (sid_of st self).
  split; [now apply Inv_sid|]. split; [rewrite <- Es; now apply Inv_sid|].
  split; [|now rewrite E2].
  rewrite (Inv_pid st' f _ HInv' Hn' Hf'). f_equal.
  unfold pid_of. rewrite E1, Hslot. exact Es.
Qed.

Lemma branch_pid_witness :
  exists s, sid 6 0 st_w1 = Ok s st_w1 /\ sid 6 0 st_w2 = Ok s st_w2 /\
            pid 6 1 st_w2 = Ok s st_w2.
Proof.
  destruct (branch_pid st_w1 6 0 [120%N] 1 st_w2 Inv_w1) as (s & H1 & H2 & H3 & _).
  - simpl. lia.
  - simpl. lia.
  - vm_compute. reflexivity.
  - exists s. auto.
Defined.

(** * Further properties of the store *)

Module StoreMore.

Import StoreFile.

Lemma le_bytes_length (k : nat) (n : N) : length (le_bytes k n) = k.
Proof. revert n. induction k as [|k IH]; intros n; simpl; auto. Qed.

Lemma le_word_le_bytes (k : nat) (n : N) :
  (n < 256 ^ N.of_nat k)%N -> le_word (le_bytes k n) = n.
Proof.
  revert n. induction k as [|k IH]; intros n Hn.
  - simpl in *. lia.
  - cbn [le_bytes le_word fold_right]. fold (le_word (le_bytes k (n / 256))).
    rewrite to_N_byte_of by (apply N.mod_lt; lia).
    rewrite IH.
    + rewrite N.add_comm. symmetry. apply N.div_mod. lia.
    + apply N.Div0.div_lt_upper_bound.
      rewrite Nat2N.inj_succ, N.pow_succ_r' in Hn. exact Hn.
Qed.

Lemma le_bytes_le_word (l : bytes) : le_bytes (length l) (le_word l) = l.
Proof.
  induction l as [|b l IH]; [reflexivity|].
  cbn [length le_bytes le_word fold_right]. fold (le_word l).
  pose proof (Byte.to_N_bounded b) as Hb.
  replace ((Byte.to_N b + 256 * le_word l) mod 256)%N with (Byte.to_N b).
  2:{ rewrite (N.mul_comm 256), N.Div0.mod_add. symmetry. apply N.mod_small. lia. }
  replace ((Byte.to_N b + 256 * le_word l) / 256)%N with (le_word l).
  2:{ rewrite (N.mul_comm 256), N.div_add by lia.
      rewrite N.div_small by lia. reflexivity. }
  now rewrite byte_of_to_N, IH.
Qed.

Lemma le_word_bound (l : bytes) : (le_word l < 256 ^ N.of_nat (length l))%N.
Proof.
  induction l as [|b l IH]; [simpl; lia|].
  cbn [length le_word fold_right]. fold (le_word l).
  rewrite Nat2N.inj_succ, N.pow_succ_r'.
  pose proof (Byte.to_N_bounded b). lia.
Qed.

Lemma contents_set_same (fs : filesystem) (name : String.string) (d : bytes) :
  contents (set_contents fs name d) name = Some d.
Proof.
  induction fs as [|[n x] fs IH]; simpl.
  - now rewrite String.eqb_refl.
  - destruct (String.eqb n name) eqn:E; simpl; rewrite E; auto.
Qed.

Lemma contents_set_other (fs : filesystem) (name name' : String.string) (d : bytes) :
  name' <> name ->
  contents (set_contents fs name d) name' = contents fs name'.
Proof.
  intros Hne. induction fs as [|[n x] fs IH]; simpl.
  - destruct (String.eqb name name') eqn:E; auto.
    apply String.eqb_eq in E. congruence.
  - destruct (String.eqb n name) eqn:E; simpl.
    + apply String.eqb_eq in E. subst n.
      destruct (String.eqb name name') eqn:E'; auto.
      apply String.eqb_eq in E'. congruence.
    + now rewrite IH.
Qed.

Lemma set_contents_same (fs : filesystem) (name : String.string) (d : bytes) :
  contents fs name = Some d -> set_contents fs name d = fs.
Proof.
  induction fs as [|[n x] fs IH]; simpl; [discriminate|].
  destruct (String.eqb n name) eqn:E.
  - intros H. inversion H. reflexivity.
  - intros H. now rewrite IH.
Qed.

Lemma pack_OPT_FMT_length (a b c : N) (p : option N) (bs : bytes) :
  pack_OPT_FMT a b c p = Some bs -> length bs = OPT_SIZE.
Proof.
  unfold pack_OPT_FMT. destruct p as [d|]; [|discriminate].
  destruct (forallb _ _); [|discriminate]. intros H.
  assert (E : le_bytes 8 a ++ le_bytes 8 b ++ le_bytes 8 c ++ le_bytes 8 d = bs)
    by congruence.
  rewrite <- E. now rewrite !length_app, !le_bytes_length.
Qed.

Lemma firstn_8_app (x y : bytes) : length x = 8 -> firstn 8 (x ++ y) = x.
Proof.
  intros H. rewrite <- H. clear H. induction x as [|a x IH]; simpl.
  - reflexivity.
  - now rewrite IH.
Qed.

Lemma skipn_8_app (x y : bytes) : length x = 8 -> skipn 8 (x ++ y) = y.
Proof.
  intros H. rewrite <- H. clear H. induction x as [|a x IH]; simpl; auto.
Qed.

Ltac eight l :=
  destruct l as [|? [|? [|? [|? [|? [|? [|? [|? [|? ?]]]]]]]]]; try discriminate.

Lemma fields4 (wa wb wc wd : bytes) :
  length wa = 8 -> length wb = 8 -> length wc = 8 -> length wd = 8 ->
  firstn 8 (wa ++ wb ++ wc ++ wd) = wa /\
  firstn 8 (skipn 8 (wa ++ wb ++ wc ++ wd)) = wb /\
  firstn 8 (skipn 16 (wa ++ wb ++ wc ++ wd)) = wc /\
  firstn 8 (skipn 24 (wa ++ wb ++ wc ++ wd)) = wd.
Proof.
  intros La Lb Lc Ld. eight wa. eight wb. eight wc. eight wd.
  repeat split; reflexivity.
Qed.

Lemma unpack_pack_OPT (a b c d : N) (bs : bytes) :
  pack_OPT_FMT a b c (Some d) = Some bs ->
  unpack_OPT_FMT bs = Some (a, b, c, d).
Proof.
  intros H. pose proof (pack_OPT_FMT_length _ _ _ _ _ H) as Hl.
  unfold pack_OPT_FMT in H.
  destruct (forallb _ _) eqn:E; [|discriminate].
  assert (Hbs : le_bytes 8 a ++ le_bytes 8 b ++ le_bytes 8 c ++ le_bytes 8 d = bs)
    by congruence.
  clear H.
  cbn [forallb] in E. repeat (apply andb_true_iff in E; destruct E as [? E]).
  repeat match goal with H : (_ <? _)%N = true |- _ => apply N.ltb_lt in H end.
  unfold unpack_OPT_FMT. rewrite Hl, Nat.eqb_refl. rewrite <- Hbs.
  set (wa := le_bytes 8 a). set (wb := le_bytes 8 b).
  set (wc := le_bytes 8 c). set (wd := le_bytes 8 d).
  assert (La : length wa = 8) by apply le_bytes_length.
  assert (Lb : length wb = 8) by apply le_bytes_length.
  assert (Lc : length wc = 8) by apply le_bytes_length.
  assert (Ld : length wd = 8) by apply le_bytes_length.
  destruct (fields4 wa wb wc wd La Lb Lc Ld) as (Fa & Fb & Fc & Fd).
  rewrite Fa, Fb, Fc, Fd.
  unfold wa, wb, wc, wd.
  rewrite !le_word_le_bytes by (change (256 ^ N.of_nat 8)%N with (2 ^ 64)%N; assumption).
  reflexivity.
Qed.

Lemma pack_unpack_OPT (bs : bytes) (a b c d : N) :
  unpack_OPT_FMT bs = Some (a, b, c, d) ->
  pack_OPT_FMT a b c (Some d) = Some bs.
Proof.
  unfold unpack_OPT_FMT. destruct (length bs =? OPT_SIZE) eqn:E; [|discriminate].
  apply Nat.eqb_eq in E. intros H.
  assert (Ha : le_word (firstn 8 bs) = a) by congruence.
  assert (Hb : le_word (firstn 8 (skipn 8 bs)) = b) by congruence.
  assert (Hc : le_word (firstn 8 (skipn 16 bs)) = c) by congruence.
  assert (Hd : le_word (firstn 8 (skipn 24 bs)) = d) by congruence.
  clear H. subst a b c d.
  set (wa := firstn 8 bs). set (wb := firstn 8 (skipn 8 bs)).
  set (wc := firstn 8 (skipn 16 bs)). set (wd := firstn 8 (skipn 24 bs)).
  unfold OPT_SIZE in E.
  assert (La : length wa = 8) by (unfold wa; rewrite length_firstn; lia).
  assert (Lb : length wb = 8)
    by (unfold wb; rewrite length_firstn, length_skipn; lia).
  assert (Lc : length wc = 8)
    by (unfold wc; rewrite length_firstn, length_skipn; lia).
  assert (Ld : length wd = 8)
    by (unfold wd; rewrite length_firstn, length_skipn; lia).
  assert (Hsplit : bs = wa ++ wb ++ wc ++ wd).
  { unfold wa, wb, wc, wd.
    rewrite <- (firstn_skipn 8 bs) at 1. f_equal.
    rewrite <- (firstn_skipn 8 (skipn 8 bs)) at 1. f_equal.
    rewrite skipn_skipn. change (8 + 8) with 16.
    rewrite <- (firstn_skipn 8 (skipn 16 bs)) at 1. f_equal.
    rewrite skipn_skipn. change (8 + 16) with 24.
    symmetry. apply firstn_all2. rewrite length_skipn. lia. }
  unfold pack_OPT_FMT.
  assert (B : forall w : bytes, length w = 8 -> (le_word w <? 2 ^ 64)%N = true).
  { intros w Hw. apply N.ltb_lt. pose proof (le_word_bound w) as Hb'.
    rewrite Hw in Hb'. exact Hb'. }
  cbn [forallb]. rewrite (B wa La), (B wb Lb), (B wc Lc), (B wd Ld). cbn [andb].
  assert (R : forall w : bytes, length w = 8 -> le_bytes 8 (le_word w) = w).
  { intros w Hw. pose proof (le_bytes_le_word w) as E'. now rewrite Hw in E'. }
  rewrite (R wa La), (R wb Lb), (R wc Lc), (R wd Ld). now rewrite <- Hsplit.
Qed.

(** [opt_save] either writes the header or raises before touching the
    file.  With an integer [previous] and four values below [2 ^ 64] the
    first 32 bytes of the file become the packed header, the bytes after
    them and the other files stay as they were, [opt_load] reads the
    four values back, and the buffer is left at the start of block 0
    wherever [seek_block] had put it.  With [previous = None], the
    default of [Store], or a value that does not fit 64 bits, [opt_save]
    and [close] raise [struct.error] and the file is untouched. *)
Theorem opt_save_outcome (s : Store) (fs : filesystem) :
  (forall p,
     _previous s = Some p ->
     (_stored s < 2 ^ 64)%N -> (_size s < 2 ^ 64)%N -> (_limit s < 2 ^ 64)%N ->
     (p < 2 ^ 64)%N ->
     exists hdr s' fs',
       opt_save s fs = IoOk s' fs' /\ close s fs = IoOk tt fs' /\
       length hdr = OPT_SIZE /\
       contents fs' (b_name (_buffer s)) =
         Some (hdr ++ skipn OPT_SIZE
                 (match contents fs (b_name (_buffer s)) with
                  | Some d => d
                  | None => []
                  end)) /\
       (forall name', name' <> b_name (_buffer s) ->
          contents fs' name' = contents fs name') /\
       fst (opt_load (_buffer s') fs') = Some (_stored s, _size s, _limit s, p) /\
       s' = seek_block s 0) /\
  (_previous s = None \/ (2 ^ 64 <= _stored s)%N \/ (2 ^ 64 <= _size s)%N \/
   (2 ^ 64 <= _limit s)%N \/
   (exists p, _previous s = Some p /\ (2 ^ 64 <= p)%N) ->
   opt_save s fs = IoRaise StructError fs /\ close s fs = IoRaise StructError fs).
Proof.
  split.
  - intros p Hp H1 H2 H3 H4.
    assert (Hpack : exists hdr,
               pack_OPT_FMT (_stored s) (_size s) (_limit s) (_previous s) = Some hdr).
    { unfold pack_OPT_FMT. rewrite Hp. cbn [forallb].
      apply N.ltb_lt in H1, H2, H3, H4. rewrite H1, H2, H3, H4. cbn [andb]. eauto. }
    destruct Hpack as [hdr Hpack].
    pose proof (pack_OPT_FMT_length _ _ _ _ _ Hpack) as Hl.
    set (name := b_name (_buffer s)) in *.
    set (old := match contents fs name with Some d => d | None => [] end).
    exists hdr, (mkStore (mkBuffer name (length hdr)) (_stored s) (_size s) (_limit s)
                   (_previous s)),
           (set_contents fs name (hdr ++ skipn (length hdr) old)).
    assert (E : opt_save s fs =
                IoOk (mkStore (mkBuffer name (length hdr)) (_stored s) (_size s)
                        (_limit s) (_previous s))
                     (set_contents fs name (hdr ++ skipn (length hdr) old)))
      by (unfold opt_save; rewrite Hpack; reflexivity).
    split; [exact E|]. split; [unfold close; now rewrite E|]. split; [exact Hl|].
    split; [rewrite Hl; apply contents_set_same|].
    split; [intros name' Hne; now apply contents_set_other|].
    rewrite and_comm. split; [unfold seek_block; fold name;
                              now rewrite Hl, Nat.mul_0_r, Nat.add_0_r|].
    unfold opt_load, read_at_start. cbn [_buffer b_name fst].
    rewrite contents_set_same.
    rewrite <- Hl at 1. rewrite firstn_app, Nat.sub_diag, firstn_all. cbn [firstn].
    rewrite app_nil_r. rewrite Hp in Hpack. now apply unpack_pack_OPT.
  - intros H.
    assert (Hpack : pack_OPT_FMT (_stored s) (_size s) (_limit s) (_previous s) = None).
    { unfold pack_OPT_FMT. destruct (_previous s) as [p|]; [|reflexivity].
      cbn [forallb].
      destruct H as [H|[H|[H|[H|(p' & Hp' & H)]]]]; try discriminate;
        try (injection Hp' as <-); apply N.ltb_ge in H; rewrite H;
        rewrite ?andb_false_r; reflexivity. }
    assert (E : opt_save s fs = IoRaise StructError fs)
      by (unfold opt_save; now rewrite Hpack).
    split; [exact E|]. unfold close. now rewrite E.
Qed.

(** A file that exists: [open_store] raises [struct.error] when it has
    fewer than 32 bytes, and otherwise returns the store of the four
    fields of its first 32 bytes, positioned after the header, with a
    [previous] that is an integer; the file is not changed. *)
Theorem open_store_existing_file (name : String.string) (fs : filesystem)
  (d : bytes) :
  contents fs name = Some d ->
  (length d < OPT_SIZE -> open_store name fs = IoRaise StructError fs) /\
  (OPT_SIZE <= length d ->
   open_store name fs =
   IoOk (mkStore (mkBuffer name OPT_SIZE)
           (le_word (firstn 8 d)) (le_word (firstn 8 (skipn 8 d)))
           (le_word (firstn 8 (skipn 16 d)))
           (Some (le_word (firstn 8 (skipn 24 d))))) fs).
Proof.
  intros H. split; intros Hlen.
  - unfold open_store, open_file. rewrite H.
    unfold opt_load, read_at_start. cbn [b_name]. rewrite H.
    unfold unpack_OPT_FMT.
    replace (length (firstn OPT_SIZE d) =? OPT_SIZE) with false; [reflexivity|].
    symmetry. apply Nat.eqb_neq. rewrite length_firstn. lia.
  - unfold open_store, open_file. rewrite H.
    unfold opt_load, read_at_start. cbn [b_name]. rewrite H.
    assert (Hl : length (firstn OPT_SIZE d) = OPT_SIZE)
      by (rewrite length_firstn; lia).
    unfold unpack_OPT_FMT. rewrite Hl, Nat.eqb_refl.
    assert (F : forall k, k + 8 <= OPT_SIZE ->
                firstn 8 (skipn k (firstn OPT_SIZE d)) = firstn 8 (skipn k d)).
    { intros k Hk. rewrite skipn_firstn_comm, firstn_firstn.
      f_equal. unfold OPT_SIZE in *. lia. }
    rewrite (F 8), (F 16), (F 24) by (unfold OPT_SIZE; lia).
    rewrite firstn_firstn. reflexivity.
Qed.

(** A store that [open_store] returned can be closed at once, and the
    pair leaves every file as it was: the header written back is the
    header that was read. *)
Theorem open_then_close (name : String.string) (fs : filesystem) (s : Store)
  (fs1 : filesystem) :
  open_store name fs = IoOk s fs1 ->
  fs1 = fs /\ close s fs1 = IoOk tt fs.
Proof.
  intros H. unfold open_store, open_file in H.
  destruct (contents fs name) as [d|] eqn:Hc.
  2:{ unfold opt_load, read_at_start in H. cbn [b_name] in H.
      rewrite StoreFacts.contents_new in H. discriminate H. }
  unfold opt_load, read_at_start in H. cbn [b_name] in H. rewrite Hc in H.
  destruct (unpack_OPT_FMT (firstn OPT_SIZE d)) as [[[[a b] c] p]|] eqn:Hu;
    [|discriminate].
  assert (E1 : fs1 = fs) by congruence.
  assert (Es : s = mkStore (mkBuffer name (length (firstn OPT_SIZE d))) a b c (Some p))
    by congruence.
  clear H. subst fs1 s. split; [reflexivity|].
  pose proof (pack_unpack_OPT _ _ _ _ _ Hu) as Hp.
  unfold close, opt_save. cbn [_stored _size _limit _previous _buffer]. rewrite Hp.
  unfold write_at_start. cbn [b_name]. rewrite Hc.
  assert (Hl : length (firstn OPT_SIZE d) = OPT_SIZE).
  { unfold unpack_OPT_FMT in Hu.
    destruct (length (firstn OPT_SIZE d) =? OPT_SIZE) eqn:E; [|discriminate].
    now apply Nat.eqb_eq. }
  rewrite Hl, firstn_skipn. now rewrite (set_contents_same fs name d Hc).
Qed.

Import String.

Lemma opt_save_outcome_witness :
  exists s' fs',
    opt_save (mkStore (mkBuffer "s" 0) 1 16 1024 (Some 0%N)) [] = IoOk s' fs' /\
    fst (opt_load (_buffer s') fs') = Some (1, 16, 1024, 0)%N.
Proof.
  destruct (opt_save_outcome (mkStore (mkBuffer "s" 0) 1 16 1024 (Some 0%N)) [])
    as [H _].
  destruct (H 0%N eq_refl) as (hdr & s' & fs' & E & _ & _ & _ & _ & L & _);
    try reflexivity.
  exists s', fs'. split; assumption.
Defined.

Lemma open_store_existing_file_witness :
  open_store "s" [("s"%string, [x01])] =
  IoRaise StructError [("s"%string, [x01])].
Proof.
  destruct (open_store_existing_file "s" [("s"%string, [x01])] [x01] eq_refl)
    as [H _].
  apply H. unfold OPT_SIZE. simpl. lia.
Defined.

Lemma open_then_close_witness :
  close (mkStore (mkBuffer "s" 32) 0 0 0 (Some 0%N)) [("s"%string, zeros 32)] =
  IoOk tt [("s"%string, zeros 32)].
Proof.
  destruct (open_then_close "s" [("s"%string, zeros 32)]
              (mkStore (mkBuffer "s" 32) 0 0 0 (Some 0%N))
              [("s"%string, zeros 32)]) as [_ H].
  - reflexivity.
  - exact H.
Defined.

End StoreMore.
